(** * tools/sort/sort.py: sequencing, grouping and renaming of face images

    A shallow embedding of the [Sort] class of [tools/sort/sort.py] and the
    properties of its ordering, binning, clustering and file-renaming code.

    Conventions of the embedding:
    - a Python exception that the code does not catch is [None];
    - [float] scores are rationals ([Q]); [float("inf")] is [Inf];
    - a Python [list] is a [list], indexed with stdpp's [!!]; an index that
      Python would reject is an explicit [None];
    - the change log ([self.changes], a [dict]) is a [gmap string string];
    - the file system is the set of paths that exist ([gset string]). *)

From Stdlib Require Import ZArith QArith Lqa Ascii String.
From stdpp Require Import base option list sorting gmap strings pretty.

Close Scope Q_scope.
Local Open Scope Z_scope.
Local Open Scope nat_scope.

(** ** Python built-ins used by the tool *)

Module Py.

(** [for x in xs: body], threading the state [s]; an exception raised by
    the body leaves the loop. *)
Fixpoint for_each {S A : Type} (xs : list A) (body : A → S → option S)
    (s : S) : option S :=
  match xs with
  | [] => Some s
  | x :: xs' =>
      match body x s with
      | Some s' => for_each xs' body s'
      | None => None
      end
  end.

(** [range(a, b)] for integers. *)
Definition range (a b : Z) : list Z := seqZ a (b - a).

(** [l[i]], with Python's negative indices counting from the end. *)
Definition index {A : Type} (l : list A) (i : Z) : option A :=
  if (0 <=? i)%Z then l !! Z.to_nat i
  else if (- Z.of_nat (length l) <=? i)%Z
       then l !! Z.to_nat (Z.of_nat (length l) + i)
       else None.

(** [l[i].append(x)] on a list of lists ([IndexError] when [i] is out of
    range). *)
Definition append_at {A : Type} (l : list (list A)) (i : Z) (x : A)
    : option (list (list A)) :=
  let n := Z.of_nat (length l) in
  let k := if (0 <=? i)%Z then i else (n + i)%Z in
  if ((0 <=? k) && (k <? n))%Z
  then Some (alter (λ b, b ++ [x]) (Z.to_nat k) l)
  else None.


(** [sorted(l, key=key, reverse=reverse)]: a stable sort, also when
    reversed.  [lt] is [<] on the keys. *)
Fixpoint insert_by {A : Type} (stop : A → A → bool) (x : A) (l : list A)
    : list A :=
  match l with
  | [] => [x]
  | y :: l' => if stop x y then x :: l else y :: insert_by stop x l'
  end.

Definition sorted {A K : Type} (lt : K → K → bool) (key : A → K)
    (reverse : bool) (l : list A) : list A :=
  foldr (insert_by (λ x y,
           negb (if reverse then lt (key x) (key y) else lt (key y) (key x))))
        [] l.

(** [l.index(x)] ([ValueError] when [x] is absent). *)
Fixpoint list_index {A : Type} `{EqDecision A} (x : A) (l : list A)
    : option nat :=
  match l with
  | [] => None
  | y :: l' => if decide (y = x) then Some 0 else S <$> list_index x l'
  end.

(** A [dict] keeps its keys in insertion order, and [.items()] iterates in
    that order: an association list without repeated keys. *)
Fixpoint dict_alter {V : Type} (f : V → V) (key : Z) (d : list (Z * V))
    : option (list (Z * V)) :=
  match d with
  | [] => None
  | (k, v) :: d' =>
      if decide (k = key) then Some ((k, f v) :: d')
      else ((k, v) ::.) <$> dict_alter f key d'
  end.

(** [d[key] = v] *)
Definition dict_set {V : Type} (key : Z) (v : V) (d : list (Z * V))
    : list (Z * V) :=
  match dict_alter (λ _, v) key d with
  | Some d' => d'
  | None => d ++ [(key, v)]
  end.

End Py.

(** ** Scores

    Comparator results are floats; the embedding takes them as rationals
    extended with [float("inf")].  NaN and rounding are not modelled. *)

Definition Qltb (x y : Q) : bool := negb (Qle_bool y x).

Inductive score : Type :=
| Fin (q : Q)
| Inf.

Definition score_ltb (a b : score) : bool :=
  match a, b with
  | Fin x, Fin y => Qltb x y
  | Fin _, Inf => true
  | Inf, _ => false
  end.

Definition score_add (a b : score) : score :=
  match a, b with
  | Fin x, Fin y => Fin (x + y)
  | _, _ => Inf
  end.

Definition score_div (a : score) (n : nat) : score :=
  match a with
  | Fin x => Fin (x / inject_Z (Z.of_nat n))
  | Inf => Inf
  end.

(** ** Sequencer *)

Section Sequencer.
Context {Name Fp : Type}.
(** The comparator of the metric: [np.sum(np.absolute((fl2 - fl1).flatten()))]
    in [sort_face_cnn], [cv2.compareHist(.., cv2.HISTCMP_BHATTACHARYYA)] in
    [sort_hist]. *)
Context (dist : Fp → Fp → score).

(** One turn of the inner loop over [j]: the state is
    [(min_score, j_min_score)]. *)
Definition scan_one (img_list : list (Name * Fp)) (i j : nat)
    (st : score * nat) : option (score * nat) :=
  a ← img_list !! i;
  b ← img_list !! j;
  let score := dist a.2 b.2 in
  Some (if score_ltb score st.1 then (score, j) else st).

(** The inner loop, [for j in range(i + 1, img_list_len)]. *)
Definition nearest (img_list : list (Name * Fp)) (i : nat) : option nat :=
  snd <$> Py.for_each (seq (i + 1) (length img_list - (i + 1)))
            (scan_one img_list i) (Inf, i + 1).

(** [(l[a], l[b]) = (l[b], l[a])]: both reads, then the two writes in
    order. *)
Definition swap_items {A : Type} (l : list A) (a b : nat) : option (list A) :=
  y ← l !! b;
  x ← l !! a;
  Some (<[b := x]> (<[a := y]> l)).

Definition chain_step (i : nat) (img_list : list (Name * Fp))
    : option (list (Name * Fp)) :=
  j_min_score ← nearest img_list i;
  swap_items img_list (i + 1) j_min_score.

(** The outer loop, [for i in range(0, img_list_len - 1)], on the list the
    loader and the scorer produced. *)
Definition chain_sort (img_list : list (Name * Fp))
    : option (list (Name * Fp)) :=
  Py.for_each (seq 0 (length img_list - 1)) chain_step img_list.

Definition sort_face_cnn := chain_sort.
Definition sort_hist := chain_sort.

(** Dissimilarity sorts: every item carries a third field, its total. *)
Definition add_score (img_list : list (Name * Fp * score)) (i j : nat)
    (score_total : score) : option score :=
  if decide (i = j) then Some score_total
  else
    a ← img_list !! i;
    b ← img_list !! j;
    Some (score_add score_total (dist a.1.2 b.1.2)).

(** [img_list[i][2] = score_total] after summing over [js]. *)
Definition set_total (js : nat → list nat) (i : nat)
    (img_list : list (Name * Fp * score)) : option (list (Name * Fp * score)) :=
  score_total ← Py.for_each (js i) (add_score img_list i) (Fin 0);
  a ← img_list !! i;
  Some (<[i := (a.1, score_total)]> img_list).

Definition sort_face_cnn_dissim (loaded : list (Name * Fp))
    : option (list (Name * Fp * score)) :=
  let img_list := (λ x, (x, Fin 0)) <$> loaded in
  let img_list_len := length img_list in
  img_list' ← Py.for_each (seq 0 (img_list_len - 1))
                 (set_total (λ i, seq (i + 1) (img_list_len - (i + 1))))
                 img_list;
  Some (Py.sorted score_ltb snd true img_list').

Definition sort_hist_dissim (loaded : list (Name * Fp))
    : option (list (Name * Fp * score)) :=
  let img_list := (λ x, (x, Fin 0)) <$> loaded in
  let img_list_len := length img_list in
  img_list' ← Py.for_each (seq 0 img_list_len)
                 (set_total (λ _, seq 0 img_list_len)) img_list;
  Some (Py.sorted score_ltb snd true img_list').

End Sequencer.

(** Sorts by a scalar key, on the list of [(filename, value)] pairs. *)
Section ScalarSort.
Context {Name : Type}.

Definition sort_distance (matched_list : list (Name * Q)) : list (Name * Q) :=
  Py.sorted Qltb snd false matched_list.

Definition sort_blur (blurs : list (Name * Q)) : list (Name * Q) :=
  Py.sorted Qltb snd true blurs.

Definition sort_blur_fft (fft_blurs : list (Name * Q)) : list (Name * Q) :=
  Py.sorted Qltb snd true fft_blurs.

Definition sort_color (matched_list : list (Name * Q)) : list (Name * Q) :=
  Py.sorted Qltb snd true matched_list.

Definition sort_face_yaw (matched_list : list (Name * Q)) : list (Name * Q) :=
  Py.sorted Qltb snd true matched_list.

Definition sort_size (img_list : list (Name * Q)) : list (Name * Q) :=
  Py.sorted Qltb snd true img_list.

(** [sort_black_pixels] sorts by hand, exchanging neighbours. *)
Definition compare_swap (j : nat) (img_list : list (Name * Q))
    : option (list (Name * Q)) :=
  a ← img_list !! j;
  b ← img_list !! (j + 1);
  Some (if Qltb b.2 a.2 then <[j + 1 := a]> (<[j := b]> img_list)
        else img_list).

Definition sort_black_pixels (img_list : list (Name * Q))
    : option (list (Name * Q)) :=
  let img_list_len := length img_list in
  Py.for_each (seq 0 (img_list_len - 1))
    (λ i, Py.for_each (seq 0 (img_list_len - i - 1)) compare_swap)
    img_list.

End ScalarSort.

(** ** Grouper *)

(** *** Equal split: [group_blur], [group_blur_fft], [group_face_yaw] *)

Section EqualSplit.
Context {Name Val : Type}.

(** [bins[i].append(img_list[idx][0]); idx += 1], on the state [(bins, idx)]. *)
Definition fill_one (img_list : list (Name * Val)) (i : Z)
    (st : list (list Name) * Z) : option (list (list Name) * Z) :=
  item ← Py.index img_list st.2;
  bins ← Py.append_at st.1 i item.1;
  Some (bins, (st.2 + 1)%Z).

(** [for _ in range(num_per_bin)] *)
Definition fill_bin (img_list : list (Name * Val)) (num_per_bin : Z) (i : Z)
    (st : list (list Name) * Z) : option (list (list Name) * Z) :=
  Py.for_each (Py.range 0 num_per_bin) (λ _, fill_one img_list i) st.

(** [bins[-1].append(img_list[-i][0])] *)
Definition add_extra (img_list : list (Name * Val)) (i : Z)
    (bins : list (list Name)) : option (list (list Name)) :=
  item ← Py.index img_list (- i);
  Py.append_at bins (-1) item.1.

Definition group_blur (num_bins : Z) (img_list : list (Name * Val))
    : option (list (list Name)) :=
  if (num_bins =? 0)%Z then None
  else
    let n := Z.of_nat (length img_list) in
    let num_per_bin := (n `div` num_bins)%Z in
    let remainder := (n `mod` num_bins)%Z in
    let bins := replicate (Z.to_nat num_bins) [] in
    st ← Py.for_each (Py.range 0 num_bins)
            (fill_bin img_list num_per_bin) (bins, 0%Z);
    Py.for_each (Py.range 1 (remainder + 1)) (add_extra img_list) st.1.

(** The three equal-split groupers have the same body. *)
Definition group_blur_fft := group_blur.
Definition group_face_yaw := group_blur.

End EqualSplit.

(** *** Threshold edges: [_near_split] and [group_black_pixels] *)

Definition _near_split (bin_range num_bins : Z) : option (list Z) :=
  if (num_bins =? 0)%Z then None
  else
    let quotient := (bin_range `div` num_bins)%Z in
    let remainder := (bin_range `mod` num_bins)%Z in
    let seps := replicate (Z.to_nat remainder) (quotient + 1)%Z
                ++ replicate (Z.to_nat (num_bins - remainder)) quotient in
    Some (foldl (λ st sep, (st.1 ++ [(st.2 + sep)%Z], (st.2 + sep)%Z))
                ([0%Z], 0%Z) seps).1.

(** [np.digitize(x, bins, right=True)] for increasing [bins] is
    [np.searchsorted(bins, x, side="left")]: the index [i] with
    [bins[i-1] < x <= bins[i]], that is the number of leading edges below
    [x]. *)
Fixpoint digitize (x : Q) (bins : list Z) : nat :=
  match bins with
  | [] => 0
  | b :: bins' => if Qltb (inject_Z b) x then S (digitize x bins') else 0
  end.

Section ThresholdEdges.
Context {Name : Type}.

(** [bins[_bin].append(img_list[idx][0])] *)
Definition place (img_list : list (Name * Q)) (entry : nat * nat)
    (bins : list (list Name)) : option (list (list Name)) :=
  item ← img_list !! entry.1;
  Py.append_at bins (Z.of_nat entry.2) item.1.

Definition group_black_pixels (num_bins : Z) (img_list : list (Name * Q))
    : option (list (list Name)) :=
  let bins := replicate (Z.to_nat num_bins) [] in
  bins_edges ← _near_split 100 num_bins;
  let img_bins := (λ x, digitize x.2 bins_edges) <$> img_list in
  Py.for_each (imap (λ idx _bin, (idx, _bin)) img_bins) (place img_list) bins.

End ThresholdEdges.

(** *** Online clustering: [group_face_cnn] and [group_hist] *)

Section Clustering.
Context {Name Fp : Type}.
(** The comparator, and [fl1[0]], the first row of a landmark array. *)
Context (dist : Fp → Fp → score) (row0 : Fp → Fp).

(** [sum(scores) / len(scores)] ([ZeroDivisionError] on no scores). *)
Definition mean (scores : list score) : option score :=
  match scores with
  | [] => None
  | _ => Some (score_div (foldl score_add (Fin 0) scores) (length scores))
  end.

Definition get_avg_score_hist (img1 : Fp) (references : list Fp)
    : option score :=
  mean (dist img1 <$> references).

(** [get_avg_score_faces_cnn(fl1, references)]: the scores
    [np.sum(np.absolute((fl2 - fl1).flatten()))] of the references, which
    [dist fl1] stands for, and [return sum(scores) / len(scores)]. *)
Definition get_avg_score_faces_cnn (fl1 : Fp) (references : list Fp)
    : option score :=
  mean (dist fl1 <$> references).

(** One turn of [for key, references in reference_groups.items()], on
    [current_best]. *)
Definition consider (score_of : list Fp → option score)
    (entry : Z * list Fp) (current_best : Z * score) : option (Z * score) :=
  score ← score_of entry.2;
  Some (if score_ltb score current_best.2 then (entry.1, score)
        else current_best).

Definition best_group (score_of : list Fp → option score)
    (reference_groups : list (Z * list Fp)) : option (Z * score) :=
  Py.for_each reference_groups (consider score_of) ((-1)%Z, Inf).

(** The [try] of [group_face_cnn]: an exception of the scorer counts as
    [float("inf")]. *)
Definition score_faces_cnn (fl1 : Fp) (references : list Fp) : option score :=
  Some (default Inf (get_avg_score_faces_cnn fl1 references)).

(** The body of the loop of [group_face_cnn], on
    [(reference_groups, bins)]. *)
Definition group_face_cnn_step (min_threshold : Q)
    (img_list : list (Name * Fp)) (i : nat)
    (st : list (Z * list Fp) * list (list Name))
    : option (list (Z * list Fp) * list (list Name)) :=
  item ← img_list !! i;
  let fl1 := item.2 in
  current_best ← best_group (score_faces_cnn fl1) st.1;
  if score_ltb current_best.2 (Fin min_threshold) then
    reference_groups ←
      Py.dict_alter (λ refs, refs ++ [row0 fl1]) current_best.1 st.1;
    bins ← Py.append_at st.2 current_best.1 item.1;
    Some (reference_groups, bins)
  else
    Some (Py.dict_set (Z.of_nat (length st.1)) [item.2] st.1,
          st.2 ++ [[item.1]]).

Definition group_face_cnn (args_min_threshold : Q)
    (img_list : list (Name * Fp)) : option (list (list Name)) :=
  let min_threshold := (args_min_threshold * 1000)%Q in
  let img_list_len := length img_list in
  snd <$> Py.for_each (seq 0 (img_list_len - 1))
            (group_face_cnn_step min_threshold img_list) ([], []).

(** The body of the loop of [group_hist]. *)
Definition group_hist_step (min_threshold : Q)
    (img_list : list (Name * Fp)) (i : nat)
    (st : list (Z * list Fp) * list (list Name))
    : option (list (Z * list Fp) * list (list Name)) :=
  item ← img_list !! i;
  current_best ← best_group (get_avg_score_hist item.2) st.1;
  if score_ltb current_best.2 (Fin min_threshold) then
    reference_groups ←
      Py.dict_alter (λ refs, refs ++ [item.2]) current_best.1 st.1;
    bins ← Py.append_at st.2 current_best.1 item.1;
    Some (reference_groups, bins)
  else
    Some (Py.dict_set (Z.of_nat (length st.1)) [item.2] st.1,
          st.2 ++ [[item.1]]).

Definition group_hist (min_threshold : Q) (img_list : list (Name * Fp))
    : option (list (list Name)) :=
  let img_list_len := length img_list in
  first ← img_list !! 0;
  snd <$> Py.for_each (seq 1 (img_list_len - 1))
            (group_hist_step min_threshold img_list)
            (Py.dict_set 0%Z [first.2] [], [[first.1]]).

End Clustering.

(** ** Strings and paths (POSIX [os.path]) *)

Module PyStr.
Local Open Scope string_scope.

Definition lower_ascii (c : ascii) : ascii :=
  let n := nat_of_ascii c in
  if ((65 <=? n) && (n <=? 90))%nat then ascii_of_nat (n + 32) else c.

(** [s.lower()], on ASCII text. *)
Fixpoint lower (s : string) : string :=
  match s with
  | EmptyString => EmptyString
  | String c s' => String (lower_ascii c) (lower s')
  end.

(** [s.startswith(p)] *)
Definition startswith (p s : string) : bool := String.prefix p s.

(** [needle in s] *)
Fixpoint contains (needle s : string) : bool :=
  String.prefix needle s
  || match s with
     | EmptyString => false
     | String _ s' => contains needle s'
     end.

(** [s.replace(old, new)] for a non-empty [old]: occurrences are replaced
    from the left, without overlap; [skip] counts the characters of an
    occurrence still to be dropped. *)
Fixpoint replace_from (old new : string) (skip : nat) (s : string) : string :=
  match s with
  | EmptyString => EmptyString
  | String c s' =>
      match skip with
      | S k => replace_from old new k s'
      | O =>
          if String.prefix old s
          then new +:+ replace_from old new (String.length old - 1) s'
          else String c (replace_from old new 0 s')
      end
  end.

Definition replace (old new s : string) : string := replace_from old new 0 s.

(** [s[:n]] *)
Definition take (n : nat) (s : string) : string := String.substring 0 n s.

(** [os.path.basename(p)]: what follows the last ["/"]. *)
Fixpoint basename_from (cur p : string) : string :=
  match p with
  | EmptyString => cur
  | String c p' =>
      if Ascii.eqb c "/" then basename_from "" p'
      else basename_from (cur +:+ String c "") p'
  end.

Definition basename (p : string) : string := basename_from "" p.

(** [os.path.splitext(p)[1]] for a [p] without ["/"]: the text from the last
    dot on, unless only dots come before it. *)
Fixpoint ext_from (seen_name : bool) (p : string) : string :=
  match p with
  | EmptyString => ""
  | String c p' =>
      if Ascii.eqb c "." then
        match ext_from seen_name p' with
        | EmptyString => if seen_name then p else ""
        | e => e
        end
      else ext_from true p'
  end.

Definition splitext_ext (p : string) : string := ext_from false p.

(** [os.path.join(a, b)] *)
Definition join (a b : string) : string :=
  if String.prefix "/" b then b
  else if String.eqb a "" || String.eqb (String.substring (String.length a - 1) 1 a) "/"
       then a +:+ b
       else a +:+ "/" +:+ b.

(** [f"{i:05d}"] *)
Definition pad5 (i : nat) : string :=
  let digits := pretty i in
  String.concat "" (replicate (5 - String.length digits) "0") +:+ digits.

End PyStr.

(** ** Orchestrator: [process] and [sort_process] *)

Module Orchestrator.
Local Open Scope string_scope.

(** The defaults [process] gives the threshold when the command line left
    it negative. *)
Definition default_min_threshold (final_process group_method : string)
    (min_threshold : Q) : Q :=
  if (String.eqb final_process "folders" && Qltb min_threshold 0)%bool then
    let method := PyStr.lower group_method in
    if String.eqb method "face-cnn" then (72 # 10)%Q
    else if String.eqb method "hist" then (3 # 10)%Q
    else min_threshold
  else min_threshold.

(** The method names [process] builds from the command line. *)
Definition sort_method_name (sort_method : string) : string :=
  let _sort := "sort_" +:+ PyStr.lower sort_method in
  let _sort := if PyStr.startswith "sort_color-" _sort
               then PyStr.take 10 _sort else _sort in
  PyStr.replace "-" "_" _sort.

Definition group_method_name (group_method : string) : string :=
  PyStr.replace "-" "_" ("group_" +:+ PyStr.lower group_method).

Definition final_process_name (final_process : string) : string :=
  PyStr.replace "-" "_" ("final_process_" +:+ PyStr.lower final_process).

(** The test of [sort_process] that sends the sorted list through
    [reload_images], on the names [process] built. *)
Definition reloads (sort_method group_method final_method : string) : bool :=
  let sort_method := PyStr.lower sort_method in
  let group_method := PyStr.lower group_method in
  let final_method := PyStr.lower final_method in
  PyStr.contains "folders" final_method
  && negb (PyStr.contains (PyStr.replace "group_" "" group_method) sort_method).

(** The same test, from the command-line values. *)
Definition reloads_cli (sort_method group_method final_process : string)
    : bool :=
  reloads (sort_method_name sort_method) (group_method_name group_method)
          (final_process_name final_process).

(** The metrics: what the second field of an item of the list holds. *)
Inductive metric : Type :=
| Distance | Blur | BlurFft | Color | Identity | Landmarks | Yaw | Hist
| Size | BlackPixels.

Global Instance metric_eq_dec : EqDecision metric.
Proof. solve_decision. Defined.

(** The metric each [sort_*] method of the class scores with. *)
Definition sort_metric (sort_method : string) : option metric :=
  if String.eqb sort_method "sort_distance" then Some Distance
  else if String.eqb sort_method "sort_blur" then Some Blur
  else if String.eqb sort_method "sort_blur_fft" then Some BlurFft
  else if String.eqb sort_method "sort_color" then Some Color
  else if String.eqb sort_method "sort_face" then Some Identity
  else if String.eqb sort_method "sort_face_cnn" then Some Landmarks
  else if String.eqb sort_method "sort_face_cnn_dissim" then Some Landmarks
  else if String.eqb sort_method "sort_face_yaw" then Some Yaw
  else if String.eqb sort_method "sort_hist" then Some Hist
  else if String.eqb sort_method "sort_hist_dissim" then Some Hist
  else if String.eqb sort_method "sort_size" then Some Size
  else if String.eqb sort_method "sort_black_pixels" then Some BlackPixels
  else None.

(** The metric [reload_images] computes for each [group_*] method; any
    other name is its [ValueError]. *)
Definition group_metric (group_method : string) : option metric :=
  if String.eqb group_method "group_blur" then Some Blur
  else if String.eqb group_method "group_blur_fft" then Some BlurFft
  else if String.eqb group_method "group_face_cnn" then Some Landmarks
  else if String.eqb group_method "group_face_yaw" then Some Yaw
  else if String.eqb group_method "group_hist" then Some Hist
  else if String.eqb group_method "group_black_pixels" then Some BlackPixels
  else None.

(** The command-line values that name a method of the class. *)
Definition sort_choices : list string :=
  ["distance"; "blur"; "blur-fft"; "color-gray"; "color-luma"; "color-green";
   "color-orange"; "face"; "face-cnn"; "face-cnn-dissim"; "face-yaw"; "hist";
   "hist-dissim"; "size"; "black-pixels"].

Definition group_choices : list string :=
  ["blur"; "blur-fft"; "face-cnn"; "face-yaw"; "hist"; "black-pixels"].

End Orchestrator.

(** [splice_lists]: the sorted order with the values of [new_vals_list]. *)
Section Splice.
Context {Name Old New : Type} `{EqDecision Name}.

Definition splice_one (new_vals_list : list (Name * New))
    (item : Name * Old) : option (Name * New) :=
  let val_index_list := new_vals_list.*1 in
  let current_img := item.1 in
  new_val_index ← Py.list_index current_img val_index_list;
  entry ← new_vals_list !! new_val_index;
  Some (current_img, entry.2).

Definition splice_lists (sorted_list : list (Name * Old))
    (new_vals_list : list (Name * New)) : option (list (Name * New)) :=
  mapM (splice_one new_vals_list) sorted_list.

End Splice.

(** ** Materializer: [final_process_rename] and [final_process_folders]

    The file system is the set of the paths that exist.  In this module
    [None] is [FileNotFoundError], the one exception the callers catch. *)

Module Materializer.
Local Open Scope string_scope.

Record args : Type := Args {
  output_dir : string;
  log_changes : bool;
  keep_original : bool
}.

Record world : Type := World {
  files : gset string;
  changes : gmap string string
}.

Definition os_rename (src dst : string) (fs : gset string)
    : option (gset string) :=
  if decide (src ∈ fs) then Some ({[dst]} ∪ fs ∖ {[src]}) else None.

Definition copyfile (src dst : string) (fs : gset string)
    : option (gset string) :=
  if decide (src ∈ fs) then Some ({[dst]} ∪ fs) else None.

Definition set_process_file_method (log_changes keep_original : bool)
    : string → string → world → option world :=
  if log_changes then
    if keep_original then
      λ src dst w,
        fs ← copyfile src dst (files w);
        Some (World fs (<[src := dst]> (changes w)))
    else
      λ src dst w,
        fs ← os_rename src dst (files w);
        Some (World fs (<[src := dst]> (changes w)))
  else
    if keep_original then
      λ src dst w, fs ← copyfile src dst (files w); Some (World fs (changes w))
    else
      λ src dst w, fs ← os_rename src dst (files w); Some (World fs (changes w)).

(** The scratch name [{i:05d}_{basename}] and the final name [{i:05d}{ext}],
    both in the output directory. *)
Definition scratch_name (output_dir : string) (i : nat) (src : string)
    : string :=
  PyStr.join output_dir (PyStr.pad5 i +:+ "_" +:+ PyStr.basename src).

Definition final_name (output_dir : string) (i : nat) (src : string)
    : string :=
  PyStr.join output_dir
    (PyStr.pad5 i +:+ PyStr.splitext_ext (PyStr.basename src)).

(** [renaming(src, output_dir, i, changes)] gives [(src, dst)] and the
    change log it leaves. *)
Definition set_renaming_method (log_changes : bool)
    : string → string → nat → gmap string string
      → (string * string) * gmap string string :=
  if log_changes then
    λ src output_dir i changes,
      let src_basename := PyStr.basename src in
      let __src :=
        PyStr.join output_dir (PyStr.pad5 i +:+ "_" +:+ src_basename) in
      let dst :=
        PyStr.join output_dir
          (PyStr.pad5 i +:+ PyStr.splitext_ext src_basename) in
      ((__src, dst), <[src := dst]> changes)
  else
    λ src output_dir i changes,
      let src_basename := PyStr.basename src in
      let src := PyStr.join output_dir (PyStr.pad5 i +:+ "_" +:+ src_basename) in
      let dst :=
        PyStr.join output_dir
          (PyStr.pad5 i +:+ PyStr.splitext_ext src_basename) in
      ((src, dst), changes).

(** First loop of [final_process_rename]: a missing source is logged and
    the loop goes on. *)
Definition scratch_one (a : args) (w : world) (entry : nat * string) : world :=
  let process_file :=
    set_process_file_method (log_changes a) (keep_original a) in
  let src := entry.2 in
  let src_basename := PyStr.basename src in
  let dst :=
    PyStr.join (output_dir a) (PyStr.pad5 entry.1 +:+ "_" +:+ src_basename) in
  match process_file src dst w with
  | Some w' => w'
  | None => w
  end.

(** Second loop: [renaming] runs first, then [os.rename] inside the [try]. *)
Definition strip_one (a : args) (w : world) (entry : nat * string) : world :=
  let renaming := set_renaming_method (log_changes a) in
  let fname := entry.2 in
  let '((src, dst), changes') :=
    renaming fname (output_dir a) entry.1 (changes w) in
  match os_rename src dst (files w) with
  | Some fs => World fs changes'
  | None => World (files w) changes'
  end.

(** [img_list] is given by its file names,
    [img_list[i] if isinstance(img_list[i], str) else img_list[i][0]]. *)
Definition final_process_rename (a : args) (img_list : list string)
    (w : world) : world :=
  let w1 := foldl (scratch_one a) w (imap pair img_list) in
  foldl (strip_one a) w1 (imap pair img_list).

Definition folders_one (a : args) (i : nat) (w : world) (src : string)
    : world :=
  let process_file :=
    set_process_file_method (log_changes a) (keep_original a) in
  let src_basename := PyStr.basename src in
  let dst := PyStr.join (PyStr.join (output_dir a) (pretty i)) src_basename in
  match process_file src dst w with
  | Some w' => w'
  | None => w
  end.

Definition final_process_folders (a : args) (bins : list (list string))
    (w : world) : world :=
  foldl (λ w entry, foldl (folders_one a entry.1) w entry.2) w
        (imap pair bins).

(** What [write_to_log] hands to the serializer at the end of either final
    process. *)
Definition written_log (a : args) (w : world) : option (gmap string string) :=
  if log_changes a then Some (changes w) else None.

End Materializer.

(** ** Closed forms used in the statements *)

(** The edges [_near_split] appends: the running totals of the widths. *)
Fixpoint running (uplimit : Z) (seps : list Z) : list Z :=
  match seps with
  | [] => []
  | sep :: seps' => (uplimit + sep)%Z :: running (uplimit + sep) seps'
  end.

(** The score the inner loop of the chain sort computes for the pair
    [(i, j)] of positions. *)
Definition pair_score {Name Fp : Type} (dist : Fp → Fp → score)
    (img_list : list (Name * Fp)) (i j : nat) : score :=
  match img_list !! i, img_list !! j with
  | Some a, Some b => dist a.2 b.2
  | _, _ => Inf
  end.

(** The list after the first [k] turns of the outer loop of the chain
    sort. *)
Definition chain_prefix {Name Fp : Type} (dist : Fp → Fp → score) (k : nat)
    (img_list : list (Name * Fp)) : option (list (Name * Fp)) :=
  Py.for_each (seq 0 k) (chain_step dist) img_list.

(** The state of the clustering loops is well formed when the keys of
    [reference_groups] are the indices of [bins], in order. *)
Definition clusters_wf {Name Fp : Type} (reference_groups : list (Z * list Fp))
    (bins : list (list Name)) : Prop :=
  reference_groups.*1 = Z.of_nat <$> seq 0 (length bins).

(** [(reference_groups, bins)] after the first [k] turns of the loop of
    [group_face_cnn], and of [group_hist]. *)
Definition face_cnn_prefix {Name Fp : Type} (dist : Fp → Fp → score)
    (row0 : Fp → Fp) (min_threshold : Q) (img_list : list (Name * Fp))
    (k : nat) : option (list (Z * list Fp) * list (list Name)) :=
  Py.for_each (seq 0 k) (group_face_cnn_step dist row0 min_threshold img_list)
    ([], []).

Definition hist_prefix {Name Fp : Type} (dist : Fp → Fp → score)
    (min_threshold : Q) (img_list : list (Name * Fp))
    (k : nat) : option (list (Z * list Fp) * list (list Name)) :=
  first ← img_list !! 0;
  Py.for_each (seq 1 k) (group_hist_step dist min_threshold img_list)
    (Py.dict_set 0%Z [first.2] [], [[first.1]]).

(** The two clustering loops have one body, up to the scorer and to what
    is stored as the reference of an accepted item. *)
Definition cluster_step {Name Fp : Type}
    (score_of : Fp → list Fp → option score) (stored : Fp → Fp)
    (min_threshold : Q) (img_list : list (Name * Fp)) (i : nat)
    (st : list (Z * list Fp) * list (list Name))
    : option (list (Z * list Fp) * list (list Name)) :=
  item ← img_list !! i;
  current_best ← best_group (score_of item.2) st.1;
  if score_ltb current_best.2 (Fin min_threshold) then
    reference_groups ←
      Py.dict_alter (λ refs, refs ++ [stored item.2]) current_best.1 st.1;
    bins ← Py.append_at st.2 current_best.1 item.1;
    Some (reference_groups, bins)
  else
    Some (Py.dict_set (Z.of_nat (length st.1)) [item.2] st.1,
          st.2 ++ [[item.1]]).

(** The two loops of [final_process_rename], one after the other. *)
Definition scratch_phase (a : Materializer.args) (img_list : list string)
    (w : Materializer.world) : Materializer.world :=
  foldl (Materializer.scratch_one a) w (imap pair img_list).

Definition strip_phase (a : Materializer.args) (img_list : list string)
    (w : Materializer.world) : Materializer.world :=
  foldl (Materializer.strip_one a) w (imap pair img_list).

(** Decimal digits: the characters of [f"{i:05d}"], their leading run in a
    file name, and the number they spell. *)
Definition is_digit (c : ascii) : bool :=
  let n := nat_of_ascii c in (48 <=? n) && (n <=? 57).

Fixpoint all_digits (s : string) : bool :=
  match s with
  | EmptyString => true
  | String c s' => is_digit c && all_digits s'
  end.


Fixpoint digits_value (acc : N) (s : string) : N :=
  match s with
  | EmptyString => acc
  | String c s' =>
      digits_value (acc * 10 + (N.of_nat (nat_of_ascii c) - 48))%N s'
  end.

(** The positions of [img_list] whose file exists at the start, and the
    scratch and final names of a list of positions. *)
Definition present (files0 : gset string) (entries : list (nat * string))
    : list (nat * string) :=
  filter (λ e, e.2 ∈ files0) entries.


Definition final_names (output_dir : string) (entries : list (nat * string))
    : list string :=
  (λ e, Materializer.final_name output_dir e.1 e.2) <$> entries.

(** The bins are in order when each is a non-empty subsequence of the names
    seen so far, and the first bin, if any, starts with the first name. *)
Definition bins_in_order {Name : Type} (first : Name) (seen : list Name)
    (bins : list (list Name)) : Prop :=
  Forall (λ b, b ≠ [] ∧ b `sublist_of` seen) bins
  ∧ (∀ b, bins !! 0 = Some b → head b = Some first).

(** One pass of the exchange sort, as a function on the list: [m]
    comparisons of neighbours, from the front. *)
Fixpoint bubble_upto {A : Type} (gt : A → A → bool) (m : nat) (l : list A)
    : list A :=
  match m, l with
  | S m', x :: y :: l' =>
      if gt x y then y :: bubble_upto gt m' (x :: l')
      else x :: bubble_upto gt m' (y :: l')
  | _, _ => l
  end.

(** The total of the distances from the item [x] to the items [others],
    summed from 0 in the order of the list. *)
Definition total_score {Name Fp : Type} (dist : Fp → Fp → score)
    (x : Name * Fp) (others : list (Name * Fp)) : score :=
  foldl score_add (Fin 0) ((λ b, dist x.2 b.2) <$> others).

(** The [(i, src)] the loops of [final_process_folders] go through, in
    order, and the destination [output_dir/i/basename(src)] of each. *)
Definition bin_entries (bins : list (list string)) : list (nat * string) :=
  concat (imap (λ i _bin, pair i <$> _bin) bins).

Definition folder_name (output_dir : string) (i : nat) (src : string)
    : string :=
  PyStr.join (PyStr.join output_dir (pretty i)) (PyStr.basename src).

Definition folder_names (output_dir : string) (entries : list (nat * string))
    : list string :=
  (λ e, folder_name output_dir e.1 e.2) <$> entries.

(** [find_images(input_dir)], on what [os.walk(input_dir)] yields, a list
    of [(root, dirs, files)]: the [break] ends the walk after the first
    directory. *)
Definition extensions : list string := [".jpg"; ".png"; ".jpeg"]%string.

Definition find_images (walk : list (string * list string * list string))
    : list string :=
  match walk with
  | [] => []
  | (root, _, files) :: _ =>
      PyStr.join root
        <$> filter (λ file, PyStr.lower (PyStr.splitext_ext file) ∈ extensions)
                   files
  end.

(** ["/" not in s]: what the name of a directory entry satisfies. *)
Fixpoint no_slash (s : string) : bool :=
  match s with
  | EmptyString => true
  | String c s' => negb (Ascii.eqb c "/") && no_slash s'
  end.

(** Equality of two scores as numbers. *)
Global Instance Qeq_decision (x y : Q) : Decision (Qeq x y) := Qeq_dec x y.

(** ** The final processes on files that hold something *)

(** The final processes again, on a disk that records what every file
    holds, so that a file which [os.rename] or [copyfile] replaces shows, and
    with the exception that no [except FileNotFoundError] catches.  A path
    names a file; the directories are there, [os.makedirs] has made them
    before the loops start. *)
Module Disk.

Inductive outcome (A : Type) : Type :=
| Done (a : A)
| FileNotFoundError
| SameFileError.
Global Arguments Done {A} a.
Global Arguments FileNotFoundError {A}.
Global Arguments SameFileError {A}.

Section Contents.
Context {Content : Type}.

Record world : Type := World {
  files : gmap string Content;
  changes : gmap string string
}.

(** [os.rename(src, dst)] (POSIX): a file at [dst] is replaced. *)
Definition os_rename (src dst : string) (fs : gmap string Content)
    : outcome (gmap string Content) :=
  match fs !! src with
  | Some content => Done (<[dst := content]> (delete src fs))
  | None => FileNotFoundError
  end.

(** [shutil.copyfile(src, dst)]: a file at [dst] is overwritten, and copying
    a file onto itself raises [SameFileError]. *)
Definition copyfile (src dst : string) (fs : gmap string Content)
    : outcome (gmap string Content) :=
  match fs !! src with
  | Some content =>
      if decide (src = dst) then SameFileError
      else Done (<[dst := content]> fs)
  | None => FileNotFoundError
  end.

Definition set_process_file_method (log_changes keep_original : bool)
    : string → string → world → outcome world :=
  if log_changes then
    if keep_original then
      λ src dst w,
        match copyfile src dst (files w) with
        | Done fs => Done (World fs (<[src := dst]> (changes w)))
        | FileNotFoundError => FileNotFoundError
        | SameFileError => SameFileError
        end
    else
      λ src dst w,
        match os_rename src dst (files w) with
        | Done fs => Done (World fs (<[src := dst]> (changes w)))
        | FileNotFoundError => FileNotFoundError
        | SameFileError => SameFileError
        end
  else
    if keep_original then
      λ src dst w,
        match copyfile src dst (files w) with
        | Done fs => Done (World fs (changes w))
        | FileNotFoundError => FileNotFoundError
        | SameFileError => SameFileError
        end
    else
      λ src dst w,
        match os_rename src dst (files w) with
        | Done fs => Done (World fs (changes w))
        | FileNotFoundError => FileNotFoundError
        | SameFileError => SameFileError
        end.

(** [try: ... except FileNotFoundError as err: logger.error(err)]: the loop
    goes on from the state [w] the failed call left; any other exception
    ends the run. *)
Definition caught (result : outcome world) (w : world) : option world :=
  match result with
  | Done w' => Some w'
  | FileNotFoundError => Some w
  | SameFileError => None
  end.

(** The first loop of [final_process_rename]. *)
Definition scratch_one (a : Materializer.args) (entry : nat * string)
    (w : world) : option world :=
  let process_file :=
    set_process_file_method (Materializer.log_changes a)
                            (Materializer.keep_original a) in
  let src := entry.2 in
  let src_basename := PyStr.basename src in
  let dst :=
    PyStr.join (Materializer.output_dir a)
      (PyStr.pad5 entry.1 +:+ "_" +:+ src_basename) in
  caught (process_file src dst w) w.

(** The second loop: [renaming] runs first, then [os.rename] inside the
    [try]. *)
Definition strip_one (a : Materializer.args) (entry : nat * string)
    (w : world) : option world :=
  let renaming :=
    Materializer.set_renaming_method (Materializer.log_changes a) in
  let fname := entry.2 in
  let '((src, dst), changes') :=
    renaming fname (Materializer.output_dir a) entry.1 (changes w) in
  caught
    match os_rename src dst (files w) with
    | Done fs => Done (World fs changes')
    | FileNotFoundError => FileNotFoundError
    | SameFileError => SameFileError
    end
    (World (files w) changes').

Definition final_process_rename (a : Materializer.args)
    (img_list : list string) (w : world) : option world :=
  w1 ← Py.for_each (imap pair img_list) (scratch_one a) w;
  Py.for_each (imap pair img_list) (strip_one a) w1.

(** The body of the inner loop of [final_process_folders]. *)
Definition folders_one (a : Materializer.args) (i : nat) (src : string)
    (w : world) : option world :=
  let process_file :=
    set_process_file_method (Materializer.log_changes a)
                            (Materializer.keep_original a) in
  let src_basename := PyStr.basename src in
  let dst :=
    PyStr.join (PyStr.join (Materializer.output_dir a) (pretty i))
               src_basename in
  caught (process_file src dst w) w.

Definition final_process_folders (a : Materializer.args)
    (bins : list (list string)) (w : world) : option world :=
  Py.for_each (imap pair bins)
    (λ entry w, Py.for_each entry.2 (folders_one a entry.1) w) w.

End Contents.

Global Arguments world : clear implicits.

End Disk.


(** * Properties *)

(** ** Loops, indices and appends *)

Section PyFacts.
Context {A : Type}.

Lemma for_each_app {S B : Type} (xs ys : list B) (body : B → S → option S)
    (s : S) :
  Py.for_each (xs ++ ys) body s = Py.for_each xs body s ≫= Py.for_each ys body.
Proof.
  revert s. induction xs as [|x xs IH]; intros s; simpl; [done|].
  destruct (body x s); simpl; [apply IH | done].
Qed.

Lemma for_each_fmap {S B C : Type} (f : B → C) (xs : list B)
    (body : C → S → option S) (s : S) :
  Py.for_each (f <$> xs) body s = Py.for_each xs (λ x, body (f x)) s.
Proof.
  revert s. induction xs as [|x xs IH]; intros s; simpl; [done|].
  destruct (body (f x) s); [apply IH | done].
Qed.

Lemma for_each_ext {S B : Type} (xs : list B) (f g : B → S → option S) (s : S) :
  (∀ x t, x ∈ xs → f x t = g x t) →
  Py.for_each xs f s = Py.for_each xs g s.
Proof.
  revert s. induction xs as [|x xs IH]; intros s Hfg; simpl; [done|].
  rewrite <- (Hfg x s) by left.
  destruct (f x s); [|done]. apply IH. intros. apply Hfg. by right.
Qed.

Lemma range_nat (a m : nat) :
  Py.range (Z.of_nat a) (Z.of_nat (a + m)) = Z.of_nat <$> seq a m.
Proof.
  unfold Py.range. apply list_eq. intros i.
  rewrite list_lookup_fmap.
  destruct (decide (i < m)) as [Hi|Hi].
  - rewrite lookup_seqZ_lt by lia. rewrite lookup_seq_lt by done.
    simpl. f_equal. lia.
  - rewrite lookup_seqZ_ge by lia. by rewrite lookup_seq_ge by lia.
Qed.

Lemma range_0 (m : nat) : Py.range 0 (Z.of_nat m) = Z.of_nat <$> seq 0 m.
Proof. apply (range_nat 0 m). Qed.

Lemma range_1 (m : nat) : Py.range 1 (Z.of_nat m + 1) = Z.of_nat <$> seq 1 m.
Proof.
  replace (Z.of_nat m + 1)%Z with (Z.of_nat (1 + m)) by lia.
  apply (range_nat 1 m).
Qed.

Lemma index_nat (l : list A) (k : nat) : Py.index l (Z.of_nat k) = l !! k.
Proof.
  unfold Py.index. destruct (Z.leb_spec 0 (Z.of_nat k)); [|lia].
  by rewrite Nat2Z.id.
Qed.

Lemma index_from_end (l : list A) (k : nat) :
  0 < k ≤ length l → Py.index l (- Z.of_nat k) = l !! (length l - k).
Proof.
  intros Hk. unfold Py.index.
  destruct (Z.leb_spec 0 (- Z.of_nat k)); [lia|].
  destruct (Z.leb_spec (- Z.of_nat (length l)) (- Z.of_nat k)); [|lia].
  f_equal. lia.
Qed.

Lemma append_at_nat (l : list (list A)) (k : nat) (x : A) :
  k < length l →
  Py.append_at l (Z.of_nat k) x = Some (alter (λ b, b ++ [x]) k l).
Proof.
  intros Hk. unfold Py.append_at.
  assert ((0 <=? Z.of_nat k)%Z = true) as E1 by (apply Z.leb_le; lia).
  assert ((Z.of_nat k <? Z.of_nat (length l))%Z = true) as E2
    by (apply Z.ltb_lt; lia).
  rewrite !E1, E2. simpl. by rewrite Nat2Z.id.
Qed.

Lemma append_at_is_Some (l : list (list A)) (k : Z) (x : A) (l' : list (list A)) :
  Py.append_at l k x = Some l' →
  ∃ j, j < length l ∧ l' = alter (λ b, b ++ [x]) j l.
Proof.
  unfold Py.append_at. intros H.
  destruct (_ && _) eqn:Hb; [|done].
  apply andb_prop in Hb as [H0 H1].
  apply Z.leb_le in H0. apply Z.ltb_lt in H1.
  injection H as <-. eexists. split; [|done]. lia.
Qed.

Lemma append_at_last (l : list (list A)) (b : list A) (x : A) :
  Py.append_at (l ++ [b]) (-1) x = Some (l ++ [b ++ [x]]).
Proof.
  unfold Py.append_at. rewrite length_app. simpl.
  assert ((0 <=? Z.of_nat (length l + 1) + -1)%Z = true) as E1
    by (apply Z.leb_le; lia).
  assert ((Z.of_nat (length l + 1) + -1 <? Z.of_nat (length l + 1))%Z = true)
    as E2 by (apply Z.ltb_lt; lia).
  rewrite E1, E2. simpl. f_equal.
  replace (Z.to_nat _) with (length l + 0) by lia.
  by rewrite alter_app_r.
Qed.

End PyFacts.

(** ** Equal split *)

Section EqualSplitFacts.
Context {Name Val : Type}.
Implicit Types (img_list : list (Name * Val)) (bins : list (list Name)).

(** The inner loop moves [length xs] names, from position [idx] on, to the
    end of bin [i]. *)
Lemma fill_many img_list (i : nat) (xs : list Z) bins (idx : nat) :
  i < length bins →
  idx + length xs ≤ length img_list →
  Py.for_each xs (λ _, fill_one img_list (Z.of_nat i)) (bins, Z.of_nat idx)
  = Some (alter (λ b, b ++ take (length xs) (drop idx img_list.*1)) i bins,
          Z.of_nat (idx + length xs)).
Proof.
  revert bins idx. induction xs as [|x xs IH]; intros bins idx Hi Hidx.
  - simpl. rewrite Nat.add_0_r. f_equal. f_equal.
    symmetry. apply list_alter_id. intros b. by rewrite app_nil_r.
  - simpl in *. unfold fill_one at 1. simpl.
    rewrite index_nat.
    destruct (lookup_lt_is_Some_2 img_list idx) as [item Hitem]; [lia|].
    rewrite Hitem. simpl.
    rewrite append_at_nat by done. simpl.
    replace (Z.of_nat idx + 1)%Z with (Z.of_nat (S idx)) by lia.
    rewrite IH by (rewrite ?length_alter; lia).
    f_equal. f_equal; [|lia].
    rewrite list_alter_alter_eq. apply list_alter_ext; [|done].
    intros b _. simpl. rewrite <- app_assoc. f_equal. simpl.
    erewrite (drop_S _ _ idx); [done|].
    by rewrite list_lookup_fmap, Hitem.
Qed.

(** The outer loop fills the empty bins one after the other. *)
Lemma fill_bins_from img_list (q m a : nat) (pre : list (list Name)) :
  length pre = a →
  (a + m) * q ≤ length img_list →
  Py.for_each (seq a m)
    (λ i, fill_bin img_list (Z.of_nat q) (Z.of_nat i))
    (pre ++ replicate m [], Z.of_nat (a * q))
  = Some (pre ++ ((λ k, take q (drop (k * q) img_list.*1)) <$> seq a m),
          Z.of_nat ((a + m) * q)).
Proof.
  revert a pre. induction m as [|m IH]; intros a pre Hpre Hle.
  - simpl. by rewrite Nat.add_0_r.
  - simpl. unfold fill_bin at 1.
    rewrite range_0.
    rewrite fill_many; cycle 1.
    { rewrite length_app. simpl. lia. }
    { rewrite length_fmap, length_seq. lia. }
    rewrite length_fmap, length_seq.
    rewrite alter_app_r_alt by lia.
    replace (a - length pre) with 0 by lia. simpl.
    replace (a * q + q) with (S a * q) by lia.
    rewrite (cons_middle _ pre), app_assoc.
    rewrite IH; cycle 1.
    { rewrite length_app. simpl. lia. }
    { lia. }
    rewrite <- app_assoc. simpl.
    f_equal. f_equal. lia.
Qed.

(** The last loop appends the trailing names to the last bin, the last name
    first. *)
Lemma add_extras img_list (front : list (list Name)) (m a : nat)
    (b : list Name) :
  a + m ≤ length img_list →
  Py.for_each (seq (S a) m) (λ i, add_extra img_list (Z.of_nat i))
    (front ++ [b])
  = Some (front ++ [b ++ reverse (take m (drop (length img_list - a - m)
                                              img_list.*1))]).
Proof.
  revert a b. induction m as [|m IH]; intros a b Hle.
  - simpl. by rewrite app_nil_r.
  - simpl. unfold add_extra at 1.
    rewrite index_from_end by lia.
    destruct (lookup_lt_is_Some_2 img_list (length img_list - S a))
      as [item Hitem]; [lia|].
    rewrite Hitem. simpl. rewrite append_at_last.
    rewrite IH by lia.
    f_equal. f_equal. rewrite <- app_assoc. f_equal. f_equal.
    replace (length img_list - S a - m) with (length img_list - a - S m) by lia.
    erewrite (take_S_r _ m); [by rewrite reverse_snoc|].
    rewrite lookup_drop, list_lookup_fmap.
    replace (length img_list - a - S m + m) with (length img_list - S a) by lia.
    by rewrite Hitem.
Qed.

(** The bins of the equal split, in closed form. *)
Lemma group_blur_closed_form (num_bins : nat) img_list :
  0 < num_bins →
  let n := length img_list in
  let q := n / num_bins in
  let r := n mod num_bins in
  group_blur (Z.of_nat num_bins) img_list
  = Some (((λ k, take q (drop (k * q) img_list.*1)) <$> seq 0 (num_bins - 1))
          ++ [take q (drop ((num_bins - 1) * q) img_list.*1)
              ++ reverse (drop (n - r) img_list.*1)]).
Proof.
  intros Hnb n q r. unfold group_blur.
  destruct (Z.eqb_spec (Z.of_nat num_bins) 0) as [?|_]; [lia|].
  rewrite <- Nat2Z.inj_div, <- Nat2Z.inj_mod. fold n q r.
  rewrite Nat2Z.id.
  pose proof (Nat.div_mod_eq n num_bins) as Hdm. fold q r in Hdm.
  assert (r < num_bins) as Hr by (apply Nat.mod_upper_bound; lia).
  rewrite range_0, for_each_fmap.
  assert (Py.for_each (seq 0 num_bins)
            (λ i, fill_bin img_list (Z.of_nat q) (Z.of_nat i))
            (replicate num_bins [], 0%Z)
          = Some ((λ k, take q (drop (k * q) img_list.*1)) <$> seq 0 num_bins,
                  Z.of_nat (num_bins * q))) as Hfill.
  { apply (fill_bins_from img_list q num_bins 0 [] eq_refl). fold n. lia. }
  rewrite Hfill. simpl.
  rewrite range_1, for_each_fmap.
  destruct num_bins as [|k]; [lia|].
  replace (S k - 1) with k by lia.
  rewrite seq_S, fmap_app. simpl.
  pose proof (add_extras img_list
                ((λ k0, take q (drop (k0 * q) img_list.*1)) <$> seq 0 k)
                r 0 (take q (drop (k * q) img_list.*1))) as Hex.
  rewrite Hex by (fold n; nia).
  rewrite Nat.sub_0_r. fold n.
  f_equal. f_equal. f_equal. f_equal. f_equal.
  apply take_ge. rewrite length_drop, length_fmap. fold n. lia.
Qed.

End EqualSplitFacts.

Section EqualSplitClaims.
Context {Name Val : Type}.
Implicit Types (img_list : list (Name * Val)) (bins : list (list Name)).

Lemma concat_chunks (l : list Name) (q m a : nat) :
  concat ((λ k, take q (drop (k * q) l)) <$> seq a m)
  = take (m * q) (drop (a * q) l).
Proof.
  revert a. induction m as [|m IH]; intros a; simpl; [done|].
  rewrite IH. replace (S a * q) with (a * q + q) by lia.
  rewrite <- drop_drop. apply take_take_drop.
Qed.

Lemma group_blur_lookup (num_bins : nat) img_list (k : nat) :
  0 < num_bins → k < num_bins →
  let n := length img_list in
  let q := n / num_bins in
  let r := n mod num_bins in
  ∃ bins, group_blur (Z.of_nat num_bins) img_list = Some bins
    ∧ length bins = num_bins
    ∧ bins !! k
      = Some (take q (drop (k * q) img_list.*1)
              ++ if decide (k = num_bins - 1)
                 then reverse (drop (n - r) img_list.*1) else []).
Proof.
  intros Hnb Hk n q r. eexists. split; [by apply group_blur_closed_form|].
  split.
  { rewrite length_app, length_fmap, length_seq. simpl. lia. }
  fold n q r. case_decide as Hlast.
  - subst k. rewrite lookup_app_r; rewrite length_fmap, length_seq; [|done].
    by rewrite Nat.sub_diag.
  - rewrite lookup_app_l by (rewrite length_fmap, length_seq; lia).
    rewrite list_lookup_fmap, lookup_seq_lt by lia. simpl.
    by rewrite app_nil_r.
Qed.

(** C5: with [q, r = divmod(n, num_bins)], the equal split puts the first
    [n - r] names [q] to a bin, in order and over all bins, and appends the
    last [r] names to the last bin only, the last name first; for [n = 10]
    and [num_bins = 3] the bins have 3, 3 and 4 names. *)
Theorem group_blur_equal_split (num_bins : nat) img_list :
  0 < num_bins →
  let n := length img_list in
  let q := n / num_bins in
  let r := n mod num_bins in
  ∃ bins, group_blur (Z.of_nat num_bins) img_list = Some bins
    ∧ length bins = num_bins
    ∧ (∀ k t, k < num_bins → t < q →
         bins !! k ≫= (.!! t) = img_list.*1 !! (k * q + t))
    ∧ (∀ k, k < num_bins - 1 → length <$> bins !! k = Some q)
    ∧ length <$> bins !! (num_bins - 1) = Some (q + r)
    ∧ (∀ t, t < r →
         bins !! (num_bins - 1) ≫= (.!! (q + t)) = img_list.*1 !! (n - 1 - t))
    ∧ concat bins
      = take (n - r) img_list.*1 ++ reverse (drop (n - r) img_list.*1)
    ∧ (n = 10 → num_bins = 3 → length <$> bins = [3; 3; 4]).
Proof.
  intros Hnb n q r.
  pose proof (Nat.div_mod_eq n num_bins) as Hdm. fold q r in Hdm.
  assert (r < num_bins) as Hr by (apply Nat.mod_upper_bound; lia).
  assert (length img_list.*1 = n) as Hlen by apply length_fmap.
  assert (∀ k, k < num_bins →
            length (take q (drop (k * q) img_list.*1)) = q) as Hchunk.
  { intros k Hk. rewrite length_take, length_drop, Hlen. nia. }
  destruct (group_blur_lookup num_bins img_list 0 Hnb Hnb)
    as (bins & Hrun & Hbins & _).
  assert (∀ k, k < num_bins →
            bins !! k
            = Some (take q (drop (k * q) img_list.*1)
                    ++ if decide (k = num_bins - 1)
                       then reverse (drop (n - r) img_list.*1) else []))
    as Hlook.
  { intros k Hk.
    destruct (group_blur_lookup num_bins img_list k Hnb Hk)
      as (bins' & Hrun' & _ & Hk').
    rewrite Hrun in Hrun'. by injection Hrun' as ->. }
  assert (∀ k, k < num_bins - 1 → length <$> bins !! k = Some q) as Hfront.
  { intros k Hk. rewrite Hlook by lia. simpl.
    rewrite decide_False by lia. by rewrite app_nil_r, Hchunk by lia. }
  assert (length <$> bins !! (num_bins - 1) = Some (q + r)) as Hlast.
  { rewrite Hlook by lia. simpl. rewrite decide_True by done.
    rewrite length_app, Hchunk by lia.
    rewrite length_reverse, length_drop, Hlen. f_equal. lia. }
  exists bins. split; [done|]. split; [done|].
  split; [|split; [done|split; [done|split; [|split]]]].
  - intros k t Hk Ht. rewrite Hlook by done. simpl.
    rewrite lookup_app_l by (rewrite Hchunk; lia).
    rewrite lookup_take_lt by done. by rewrite lookup_drop.
  - intros t Ht. rewrite Hlook by lia. simpl. rewrite decide_True by done.
    rewrite lookup_app_r; rewrite Hchunk by lia; [|lia].
    replace (q + t - q) with t by lia.
    rewrite reverse_lookup by (rewrite length_drop, Hlen; lia).
    rewrite lookup_drop, length_drop, Hlen. f_equal. lia.
  - pose proof (group_blur_closed_form num_bins img_list Hnb) as Hcf.
    simpl in Hcf. fold n q r in Hcf. rewrite Hrun in Hcf.
    injection Hcf as ->.
    rewrite concat_app, concat_chunks. simpl. rewrite app_nil_r, app_assoc.
    f_equal. simpl.
    rewrite (take_take_drop _ ((num_bins - 1) * q) q).
    f_equal. nia.
  - intros Hn ->.
    assert (q = 3 ∧ r = 1) as [Hq Hr1] by (subst q r; by rewrite Hn).
    apply list_eq. intros [|[|[|k]]]; rewrite list_lookup_fmap.
    + rewrite (Hfront 0) by lia. by rewrite Hq.
    + rewrite (Hfront 1) by lia. by rewrite Hq.
    + change 2 with (3 - 1). rewrite Hlast. by rewrite Hq, Hr1.
    + by rewrite lookup_ge_None_2 by lia.
Qed.

End EqualSplitClaims.

(** At three names over two bins: one name each, then the extra one. *)
Lemma group_blur_equal_split_witness :
  0 < 2
  ∧ ∃ bins, group_blur 2 [(1, tt); (2, tt); (3, tt)] = Some bins
      ∧ concat bins = [1; 2; 3].
Proof.
  split; [lia|].
  destruct (group_blur_equal_split 2 [(1, tt); (2, tt); (3, tt)])
    as (bins & Hrun & _ & _ & _ & _ & _ & Hcat & _); [lia|].
  exists bins. split; [exact Hrun | exact Hcat].
Defined.



(** ** Threshold edges *)

Lemma Qltb_lt (x y : Q) : Qltb x y = true ↔ (x < y)%Q.
Proof.
  unfold Qltb. rewrite negb_true_iff, <- not_true_iff_false, Qle_bool_iff.
  split; [apply Qnot_le_lt | apply Qlt_not_le].
Qed.

Lemma Qltb_ge (x y : Q) : Qltb x y = false ↔ (y <= x)%Q.
Proof. unfold Qltb. by rewrite negb_false_iff, Qle_bool_iff. Qed.

Lemma score_ltb_asym (a b : score) :
  score_ltb a b = true → score_ltb b a = false.
Proof.
  destruct a, b; simpl; try done. rewrite Qltb_lt, Qltb_ge. lra.
Qed.

Lemma score_ltb_ntrans (a b c : score) :
  score_ltb a b = false → score_ltb b c = false → score_ltb a c = false.
Proof.
  destruct a, b, c; simpl; try done. rewrite !Qltb_ge. lra.
Qed.

Lemma digitize_le_length (x : Q) (edges : list Z) :
  digitize x edges ≤ length edges.
Proof. induction edges; simpl; [done|]. case_match; lia. Qed.

(** Every edge before the index of [x] lies below [x] ... *)
Lemma digitize_below (x : Q) (edges : list Z) (i : nat) (e : Z) :
  i < digitize x edges → edges !! i = Some e → (inject_Z e < x)%Q.
Proof.
  revert i. induction edges as [|b edges IH]; intros i; simpl; [lia|].
  destruct (Qltb (inject_Z b) x) eqn:Hb; [|lia].
  destruct i as [|i]; simpl.
  - intros _ [= <-]. by apply Qltb_lt.
  - intros Hi. apply IH. lia.
Qed.

(** ... and the edge at the index, when there is one, does not. *)
Lemma digitize_at (x : Q) (edges : list Z) (e : Z) :
  edges !! digitize x edges = Some e → (x <= inject_Z e)%Q.
Proof.
  induction edges as [|b edges IH]; simpl; [done|].
  destruct (Qltb (inject_Z b) x) eqn:Hb; simpl; [done|].
  intros [= <-]. by apply Qltb_ge.
Qed.

Lemma digitize_least (x : Q) (edges : list Z) (k : nat) (e : Z) :
  edges !! k = Some e → (x <= inject_Z e)%Q → digitize x edges ≤ k.
Proof.
  intros Hk Hle. destruct (decide (digitize x edges ≤ k)) as [|Hgt]; [done|].
  exfalso. apply (Qlt_not_le _ _ (digitize_below x edges k e ltac:(lia) Hk)).
  done.
Qed.

Lemma digitize_ge (x : Q) (edges : list Z) (k : nat) :
  k ≤ length edges →
  (∀ i e, i < k → edges !! i = Some e → (inject_Z e < x)%Q) →
  k ≤ digitize x edges.
Proof.
  intros Hk Hbelow.
  destruct (decide (k ≤ digitize x edges)) as [|Hlt]; [done|]. exfalso.
  destruct (lookup_lt_is_Some_2 edges (digitize x edges)) as [e He]; [lia|].
  apply (Qlt_not_le _ _ (Hbelow (digitize x edges) e ltac:(lia) He)).
  by apply (digitize_at x edges).
Qed.

Lemma near_split_loop (seps bins : list Z) (uplimit : Z) :
  (foldl (λ st sep, (st.1 ++ [(st.2 + sep)%Z], (st.2 + sep)%Z))
         (bins, uplimit) seps).1
  = bins ++ running uplimit seps.
Proof.
  revert bins uplimit. induction seps as [|sep seps IH]; intros bins u; simpl.
  - by rewrite app_nil_r.
  - rewrite IH. by rewrite <- app_assoc.
Qed.

Lemma length_running (u : Z) (seps : list Z) :
  length (running u seps) = length seps.
Proof. revert u. induction seps; intros; simpl; [done|]. by f_equal. Qed.

Lemma running_bounds (u : Z) (seps : list Z) :
  Forall (λ sep, 0 ≤ sep)%Z seps →
  Forall (λ e, u ≤ e ≤ u + foldr Z.add 0 seps)%Z (running u seps).
Proof.
  revert u. induction seps as [|sep seps IH]; intros u Hpos; simpl; [done|].
  apply Forall_cons in Hpos as [Hsep Hpos].
  assert (0 ≤ foldr Z.add 0 seps)%Z.
  { clear -Hpos. induction Hpos; simpl; lia. }
  constructor; [lia|].
  eapply Forall_impl; [by apply IH|]. simpl. intros e. lia.
Qed.

Lemma running_sorted (u : Z) (seps : list Z) :
  Forall (λ sep, 0 ≤ sep)%Z seps → StronglySorted Z.le (u :: running u seps).
Proof.
  revert u. induction seps as [|sep seps IH]; intros u Hpos; simpl.
  - repeat constructor.
  - pose proof (running_bounds u (sep :: seps) Hpos) as Hb.
    apply Forall_cons in Hpos as [Hsep Hpos].
    constructor; [by apply IH|].
    eapply Forall_impl; [exact Hb|]. simpl. intros e. lia.
Qed.

Lemma running_last (u : Z) (seps : list Z) :
  last (u :: running u seps) = Some (u + foldr Z.add 0 seps)%Z.
Proof.
  revert u. induction seps as [|sep seps IH]; intros u.
  - simpl. f_equal. lia.
  - change (running u (sep :: seps))
      with ((u + sep)%Z :: running (u + sep) seps).
    rewrite last_cons_cons, IH. simpl. f_equal. lia.
Qed.

Lemma sorted_lookup_le (l : list Z) (i j : nat) (a b : Z) :
  StronglySorted Z.le l → i ≤ j → l !! i = Some a → l !! j = Some b →
  (a ≤ b)%Z.
Proof.
  intros Hs. revert i j. induction Hs as [|x l Hs IH Hall]; intros i j Hij.
  - by rewrite lookup_nil.
  - destruct i as [|i], j as [|j]; simpl; try lia.
    + by intros [= ->] [= ->].
    + intros [= ->] Hb. by apply (Forall_lookup_1 _ _ _ _ Hall Hb).
    + apply IH. lia.
Qed.

Lemma sum_replicate (n : nat) (x : Z) :
  foldr Z.add 0%Z (replicate n x) = (Z.of_nat n * x)%Z.
Proof. induction n as [|n IH]; simpl; [lia|]. rewrite IH. lia. Qed.

Lemma sum_app (l k : list Z) :
  foldr Z.add 0%Z (l ++ k) = (foldr Z.add 0 l + foldr Z.add 0 k)%Z.
Proof. induction l as [|x l IH]; simpl; [lia|]. rewrite IH. lia. Qed.

(** The edges of a positive number of bins over [bin_range >= 0]: one more
    than the bins, increasing from 0 to [bin_range]. *)
Lemma near_split_edges (bin_range : Z) (num_bins : nat) :
  (0 ≤ bin_range)%Z → 0 < num_bins →
  ∃ edges, _near_split bin_range (Z.of_nat num_bins) = Some edges
    ∧ length edges = num_bins + 1
    ∧ StronglySorted Z.le edges
    ∧ edges !! 0 = Some 0%Z
    ∧ edges !! num_bins = Some bin_range.
Proof.
  intros Hrange Hnb. unfold _near_split.
  destruct (Z.eqb_spec (Z.of_nat num_bins) 0) as [?|_]; [lia|].
  set (q := (bin_range `div` Z.of_nat num_bins)%Z).
  set (r := (bin_range `mod` Z.of_nat num_bins)%Z).
  set (seps := replicate (Z.to_nat r) (q + 1)%Z
               ++ replicate (Z.to_nat (Z.of_nat num_bins - r)) q).
  assert (0 ≤ q)%Z as Hq by (apply Z.div_pos; lia).
  assert (0 ≤ r < Z.of_nat num_bins)%Z as Hr by (apply Z.mod_pos_bound; lia).
  assert (bin_range = Z.of_nat num_bins * q + r)%Z as Hdm
    by (apply Z.div_mod; lia).
  assert (length seps = num_bins) as Hlen.
  { unfold seps. rewrite length_app, !length_replicate. lia. }
  assert (Forall (λ sep, 0 ≤ sep)%Z seps) as Hpos.
  { apply Forall_app_2; apply Forall_replicate; lia. }
  assert (foldr Z.add 0%Z seps = bin_range) as Hsum.
  { unfold seps. rewrite sum_app, !sum_replicate. nia. }
  eexists. split; [done|]. rewrite near_split_loop. simpl.
  split; [by rewrite length_running, Hlen, Nat.add_1_r|].
  split; [by apply running_sorted|]. split; [done|].
  pose proof (running_last 0 seps) as Hlast.
  rewrite last_lookup in Hlast. simpl in Hlast.
  by rewrite length_running, Hlen, Hsum in Hlast.
Qed.

Section ThresholdEdgeFacts.
Context {Name : Type}.
Implicit Types (img_list : list (Name * Q)) (bins : list (list Name)).

Lemma append_at_beyond bins (k : nat) (x : Name) :
  length bins ≤ k → Py.append_at bins (Z.of_nat k) x = None.
Proof.
  intros Hk. unfold Py.append_at.
  assert ((0 <=? Z.of_nat k)%Z = true) as E1 by (apply Z.leb_le; lia).
  assert ((Z.of_nat k <? Z.of_nat (length bins))%Z = false) as E2
    by (apply Z.ltb_ge; lia).
  by rewrite !E1, E2.
Qed.

(** The placing loop: it ends iff every index is one of a bin, and then
    bin [k] has gained, in order, the names whose index is [k]. *)
Lemma place_loop (classify : Name * Q → nat) (full l rest : list (Name * Q))
    bins :
  full = l ++ rest →
  Py.for_each (imap (λ idx _bin, (idx, _bin)) (classify <$> l))
    (place full) bins
  = if decide (Forall (λ x, classify x < length bins) l)
    then Some (imap (λ k b, b ++ (filter (λ x, classify x = k) l).*1) bins)
    else None.
Proof.
  revert rest. induction l as [|x xs IH] using rev_ind; intros rest Hfull.
  - rewrite decide_True by done. simpl. f_equal.
    apply list_eq. intros i. rewrite list_lookup_imap.
    destruct (bins !! i); simpl; [|done]. by rewrite app_nil_r.
  - rewrite fmap_app, imap_app, for_each_app. simpl.
    rewrite (IH ([x] ++ rest)) by (by rewrite app_assoc).
    rewrite length_fmap, Nat.add_0_r.
    destruct (decide (Forall _ xs)) as [Hxs|Hxs]; simpl; cycle 1.
    { rewrite decide_False; [done|]. rewrite Forall_app. tauto. }
    unfold place. simpl.
    assert (full !! length xs = Some x) as ->.
    { subst full. rewrite <- app_assoc. by apply list_lookup_middle. }
    simpl.
    destruct (decide (classify x < length bins)) as [Hx|Hx]; cycle 1.
    { rewrite append_at_beyond by (rewrite length_imap; lia).
      rewrite decide_False; [done|].
      rewrite Forall_app, Forall_singleton. tauto. }
    rewrite append_at_nat by (by rewrite length_imap).
    rewrite decide_True by (by rewrite Forall_app, Forall_singleton).
    f_equal. apply list_eq. intros i.
    rewrite list_lookup_alter, !list_lookup_imap.
    rewrite filter_app, fmap_app, filter_singleton; [|done].
    destruct (decide (classify x = i)) as [Hi|Hi].
    + subst i. destruct (bins !! classify x) as [b|]; simpl; [|done].
      by rewrite <- app_assoc.
    + destruct (bins !! i) as [b|]; simpl; [|done].
      by rewrite !app_nil_r.
Qed.

(** [group_black_pixels] in closed form. *)
Lemma group_black_pixels_run (num_bins : nat) img_list (edges : list Z) :
  _near_split 100 (Z.of_nat num_bins) = Some edges →
  group_black_pixels (Z.of_nat num_bins) img_list
  = if decide (Forall (λ x, digitize x.2 edges < num_bins) img_list)
    then Some ((λ k, (filter (λ x, digitize x.2 edges = k) img_list).*1)
               <$> seq 0 num_bins)
    else None.
Proof.
  intros Hedges. unfold group_black_pixels. rewrite Hedges. simpl.
  rewrite Nat2Z.id.
  rewrite (place_loop (λ x, digitize x.2 edges) img_list img_list [])
    by (by rewrite app_nil_r).
  rewrite length_replicate.
  case_decide; [|done]. f_equal.
  apply list_eq. intros i. rewrite list_lookup_imap, list_lookup_fmap.
  destruct (decide (i < num_bins)).
  - by rewrite lookup_replicate_2, lookup_seq_lt by done.
  - by rewrite (proj1 (lookup_replicate_None _ _ _)), lookup_seq_ge by lia.
Qed.

End ThresholdEdgeFacts.

Section ThresholdEdgeClaims.
Context {Name : Type}.
Implicit Types (img_list : list (Name * Q)) (bins : list (list Name)).

(** An index below [num_bins] is exactly a value up to the second-to-last
    edge. *)
Lemma digitize_in_range (num_bins : nat) (edges : list Z) (second_last : Z)
    (v : Q) :
  0 < num_bins →
  length edges = num_bins + 1 →
  StronglySorted Z.le edges →
  edges !! (num_bins - 1) = Some second_last →
  digitize v edges < num_bins ↔ (v <= inject_Z second_last)%Q.
Proof.
  intros Hnb Hlen Hsorted Hsl. split.
  - intros Hk.
    destruct (lookup_lt_is_Some_2 edges (digitize v edges)) as [e He]; [lia|].
    pose proof (digitize_at v edges e He) as Hv.
    assert (digitize v edges ≤ num_bins - 1) as Hidx by lia.
    pose proof (sorted_lookup_le edges _ _ _ _ Hsorted Hidx He Hsl) as Hle.
    rewrite Zle_Qle in Hle. lra.
  - intros Hv. pose proof (digitize_least v edges _ _ Hsl Hv). lia.
Qed.

(** C10: with [num_bins] bins the edges of [_near_split(100, num_bins)] are
    [num_bins + 1]; a value above the second-to-last edge and up to 100 gets
    the index [num_bins], which no bin has, so that [bins[_bin]] fails; the
    placement ends iff every value is at most the second-to-last edge (75
    for four bins). *)
Theorem black_pixels_top_index_out_of_range (num_bins : nat) img_list :
  0 < num_bins →
  ∃ edges second_last,
    _near_split 100 (Z.of_nat num_bins) = Some edges
    ∧ edges !! (num_bins - 1) = Some second_last
    ∧ (∀ v : Q, (inject_Z second_last < v)%Q → (v <= 100)%Q →
         digitize v edges = num_bins
         ∧ (∀ bins name, length bins = num_bins →
              Py.append_at bins (Z.of_nat (digitize v edges)) name = None)
         ∧ (∀ name, (name, v) ∈ img_list →
              group_black_pixels (Z.of_nat num_bins) img_list = None))
    ∧ (is_Some (group_black_pixels (Z.of_nat num_bins) img_list)
       ↔ Forall (λ x, (x.2 <= inject_Z second_last)%Q) img_list)
    ∧ (num_bins = 4 → second_last = 75%Z).
Proof.
  intros Hnb.
  destruct (near_split_edges 100 num_bins ltac:(lia) Hnb)
    as (edges & Hedges & Hlen & Hsorted & _ & Hlast).
  destruct (lookup_lt_is_Some_2 edges (num_bins - 1)) as [sl Hsl]; [lia|].
  exists edges, sl. split; [done|]. split; [done|].
  assert (∀ v : Q, (inject_Z sl < v)%Q → (v <= 100)%Q →
            digitize v edges = num_bins) as Htop.
  { intros v Hlo Hhi.
    pose proof (digitize_in_range num_bins edges sl v Hnb Hlen Hsorted Hsl)
      as Hiff.
    pose proof (digitize_least v edges num_bins 100 Hlast Hhi).
    destruct (decide (digitize v edges < num_bins)) as [Hlt|]; [|lia].
    apply Hiff in Hlt. lra. }
  assert (is_Some (group_black_pixels (Z.of_nat num_bins) img_list)
          ↔ Forall (λ x, (x.2 <= inject_Z sl)%Q) img_list) as Hends.
  { rewrite (group_black_pixels_run num_bins img_list edges Hedges).
    split.
    - intros Hsome. case_decide as Hall; [|by destruct Hsome].
      eapply Forall_impl; [exact Hall|]. intros x Hx. simpl in Hx.
      by apply (digitize_in_range num_bins edges sl).
    - intros Hall. rewrite decide_True; [done|].
      eapply Forall_impl; [exact Hall|]. intros x Hx. simpl in Hx.
      by apply (digitize_in_range num_bins edges sl). }
  split; [|split; [done|]].
  - intros v Hlo Hhi. split; [by apply Htop|]. split.
    + intros bins name Hbins. rewrite Htop by done.
      apply append_at_beyond. lia.
    + intros name Hin.
      destruct (group_black_pixels (Z.of_nat num_bins) img_list) eqn:Hrun;
        [|done].
      exfalso. destruct Hends as [Hends _].
      rewrite Forall_forall in Hends.
      specialize (Hends ltac:(done) (name, v) Hin). simpl in Hends. lra.
  - intros ->. vm_compute in Hedges. injection Hedges as <-.
    by injection Hsl as <-.
Qed.

End ThresholdEdgeClaims.

(** Four bins: 75 is placed, 100 is not. *)
Lemma black_pixels_top_index_out_of_range_witness :
  0 < 4
  ∧ group_black_pixels 4 [("a.png"%string, 75%Q)]
    = Some [[]; []; []; ["a.png"%string]]
  ∧ group_black_pixels 4 [("a.png"%string, 100%Q)] = None.
Proof.
  split; [lia|].
  destruct (black_pixels_top_index_out_of_range 4
              [("a.png"%string, 100%Q)])
    as (edges & sl & Hedges & Hsl & Htop & _ & H75); [lia|].
  split; [reflexivity|].
  rewrite (H75 eq_refl) in Htop.
  destruct (Htop 100%Q) as (_ & _ & Hnone); [reflexivity|discriminate|].
  apply (Hnone "a.png"%string). by left.
Defined.

(** C4 as the code has it: for four bins the edges are 0, 25, 50, 75, 100;
    the index of a value is the least [k] with [edges[k] >= value]; 25.0
    gets index 1, and so does 24.999: index 0 is for values up to 0. *)
Theorem threshold_edges_four_bins :
  let edges := [0; 25; 50; 75; 100]%Z in
  _near_split 100 4 = Some edges
  ∧ (∀ v : Q,
       (∀ e, edges !! digitize v edges = Some e → (v <= inject_Z e)%Q)
       ∧ (∀ i e, i < digitize v edges → edges !! i = Some e →
            (inject_Z e < v)%Q))
  ∧ digitize 25 edges = 1
  ∧ digitize (24999 # 1000) edges = 1
  ∧ digitize 0 edges = 0
  ∧ group_black_pixels 4
      [("a.png", 25%Q); ("b.png", (24999 # 1000)%Q); ("c.png", 0%Q)]%string
    = Some [["c.png"]; ["a.png"; "b.png"]; []; []]%string.
Proof.
  intros edges. split; [reflexivity|]. split.
  - intros v. split.
    + apply digitize_at.
    + intros i e. apply digitize_below.
  - repeat split; reflexivity.
Qed.

(** C4 as stated fails: 24.999 is not given index 0. *)
Lemma threshold_24999_not_index_0 :
  ¬ (∃ edges, _near_split 100 4 = Some edges
              ∧ digitize (24999 # 1000) edges = 0).
Proof. intros (edges & [= <-] & Hd). vm_compute in Hd. discriminate. Qed.

(** ** Scores *)

Lemma score_ltb_irrefl (a : score) : score_ltb a a = false.
Proof. destruct a; simpl; [|done]. apply Qltb_ge. lra. Qed.

Lemma score_ltb_trans (a b c : score) :
  score_ltb a b = true → score_ltb b c = true → score_ltb a c = true.
Proof.
  destruct a, b, c; simpl; try done.
  rewrite !Qltb_lt. lra.
Qed.

Lemma score_ltb_le_trans (a b c : score) :
  score_ltb a b = true → score_ltb c b = false → score_ltb a c = true.
Proof.
  destruct a, b, c; simpl; try done.
  rewrite !Qltb_lt, Qltb_ge. lra.
Qed.

Lemma score_not_below_Inf (a : score) : score_ltb a Inf = false → a = Inf.
Proof. by destruct a. Qed.

(** ** Loops that keep an invariant *)

Lemma for_each_inv {S B : Type} (P : S → Prop) (xs : list B)
    (body : B → S → option S) (s : S) :
  P s →
  (∀ x t, x ∈ xs → P t → ∃ t', body x t = Some t' ∧ P t') →
  ∃ s', Py.for_each xs body s = Some s' ∧ P s'.
Proof.
  revert s. induction xs as [|x xs IH]; intros s Hs Hbody; simpl; [eauto|].
  destruct (Hbody x s) as (t & -> & Ht); [by left|done|].
  apply IH; [done|]. intros y u Hy. apply Hbody. by right.
Qed.

(** ** Chain sort *)

Section ChainSort.
Context {Name Fp : Type} (dist : Fp → Fp → score).
Implicit Types (img_list : list (Name * Fp)).

Lemma scan_one_score img_list (i j : nat) (st : score * nat) :
  i < length img_list → j < length img_list →
  scan_one dist img_list i j st
  = Some (if score_ltb (pair_score dist img_list i j) st.1
          then (pair_score dist img_list i j, j) else st).
Proof.
  intros Hi Hj. unfold scan_one, pair_score.
  destruct (lookup_lt_is_Some_2 img_list i Hi) as [a ->].
  by destruct (lookup_lt_is_Some_2 img_list j Hj) as [b ->].
Qed.

(** The scan of the positions [a .. a+m-1]: the position it keeps has the
    least score, and the first such. *)
Lemma scan_least img_list (i a m : nat) :
  i < length img_list → a + m ≤ length img_list → 0 < m →
  ∃ j, Py.for_each (seq a m) (scan_one dist img_list i) (Inf, a)
       = Some (pair_score dist img_list i j, j)
    ∧ a ≤ j < a + m
    ∧ (∀ j', a ≤ j' < a + m →
         score_ltb (pair_score dist img_list i j')
                   (pair_score dist img_list i j) = false)
    ∧ (∀ j', a ≤ j' < j →
         score_ltb (pair_score dist img_list i j)
                   (pair_score dist img_list i j') = true).
Proof.
  intros Hi Ham Hm. destruct m as [|m]; [lia|]. clear Hm.
  induction m as [|m IH].
  - simpl. rewrite scan_one_score by lia. simpl.
    exists a. split.
    + destruct (score_ltb _ Inf) eqn:Hs; [done|].
      by rewrite (score_not_below_Inf _ Hs).
    + split; [lia|]. split; [|lia].
      intros j' Hj'. replace j' with a by lia. apply score_ltb_irrefl.
  - destruct IH as (j & Hrun & Hj & Hmin & Hfirst); [lia|].
    rewrite seq_S, for_each_app, Hrun. simpl.
    rewrite scan_one_score by lia. simpl.
    destruct (score_ltb (pair_score dist img_list i (a + S m))
                        (pair_score dist img_list i j)) eqn:Hlt.
    + exists (a + S m). split; [done|]. split; [lia|]. split.
      * intros j' Hj'. destruct (decide (j' = a + S m)) as [->|Hne].
        { apply score_ltb_irrefl. }
        destruct (score_ltb (pair_score dist img_list i j') _) eqn:Hlt';
          [|done].
        rewrite <- (Hmin j') by lia. symmetry.
        by eapply score_ltb_trans.
      * intros j' Hj'. eapply score_ltb_le_trans; [exact Hlt|].
        apply Hmin. lia.
    + exists j. split; [done|]. split; [lia|]. split; [|done].
      intros j' Hj'. destruct (decide (j' = a + S m)) as [->|Hne]; [done|].
      apply Hmin. lia.
Qed.

Lemma nearest_least img_list (i : nat) :
  i + 1 < length img_list →
  ∃ j, nearest dist img_list i = Some j
    ∧ i + 1 ≤ j < length img_list
    ∧ (∀ j', i + 1 ≤ j' < length img_list →
         score_ltb (pair_score dist img_list i j')
                   (pair_score dist img_list i j) = false)
    ∧ (∀ j', i + 1 ≤ j' < j →
         score_ltb (pair_score dist img_list i j)
                   (pair_score dist img_list i j') = true).
Proof.
  intros Hi. unfold nearest.
  destruct (scan_least img_list i (i + 1) (length img_list - (i + 1)))
    as (j & -> & Hj & Hmin & Hfirst); [lia..|].
  exists j. split; [done|]. split; [lia|]. split; [|done].
  intros j' Hj'. apply Hmin. lia.
Qed.

Lemma swap_items_perm {A : Type} (l l' : list A) (a b : nat) :
  swap_items l a b = Some l' → l' ≡ₚ l.
Proof.
  unfold swap_items. intros H.
  destruct (l !! b) as [y|] eqn:Hb; [|done].
  destruct (l !! a) as [x|] eqn:Ha; [|done].
  injection H as <-. by apply Permutation_insert_swap.
Qed.

Lemma swap_items_head {A : Type} (l l' : list A) (a b : nat) :
  0 < a → 0 < b → swap_items l a b = Some l' → head l' = head l.
Proof.
  unfold swap_items. intros Ha Hb H.
  destruct (l !! b) as [y|]; [|done]. destruct (l !! a) as [x|]; [|done].
  injection H as <-. rewrite !head_lookup.
  by rewrite !list_lookup_insert_ne by lia.
Qed.

End ChainSort.

(** The order the chain sort produces depends on the fingerprints alone:
    renaming the items does not change it. *)
Section ChainSortRelabel.
Context {Name1 Name2 Fp : Type} (dist : Fp → Fp → score) (f : Name1 → Name2).

Lemma for_each_sim {S T B : Type} (g : S → T) (xs : list B)
    (body1 : B → S → option S) (body2 : B → T → option T) (s : S) :
  (∀ x t, body2 x (g t) = g <$> body1 x t) →
  Py.for_each xs body2 (g s) = g <$> Py.for_each xs body1 s.
Proof.
  intros Hsim. revert s. induction xs as [|x xs IH]; intros s; simpl; [done|].
  rewrite Hsim. destruct (body1 x s); simpl; [apply IH | done].
Qed.

Lemma scan_one_relabel (l : list (Name1 * Fp)) (i j : nat) (st : score * nat) :
  scan_one dist (prod_map f id <$> l) i j st = scan_one dist l i j st.
Proof.
  unfold scan_one. rewrite !list_lookup_fmap.
  by destruct (l !! i) as [[]|], (l !! j) as [[]|].
Qed.

Lemma nearest_relabel (l : list (Name1 * Fp)) (i : nat) :
  nearest dist (prod_map f id <$> l) i = nearest dist l i.
Proof.
  unfold nearest. rewrite length_fmap. f_equal.
  apply for_each_ext. intros j st _. apply scan_one_relabel.
Qed.

Lemma swap_items_fmap {A B : Type} (h : A → B) (l : list A) (a b : nat) :
  swap_items (h <$> l) a b = fmap (M:=list) h <$> swap_items l a b.
Proof.
  unfold swap_items. rewrite !list_lookup_fmap.
  destruct (l !! b), (l !! a); simpl; [|done..].
  by rewrite !list_fmap_insert.
Qed.

Lemma chain_step_relabel (i : nat) (l : list (Name1 * Fp)) :
  chain_step dist i (prod_map f id <$> l)
  = fmap (M:=list) (prod_map f id) <$> chain_step dist i l.
Proof.
  unfold chain_step. rewrite nearest_relabel.
  destruct (nearest dist l i); simpl; [|done]. apply swap_items_fmap.
Qed.

Lemma chain_sort_relabel (l : list (Name1 * Fp)) :
  chain_sort dist (prod_map f id <$> l)
  = fmap (M:=list) (prod_map f id) <$> chain_sort dist l.
Proof.
  unfold chain_sort. rewrite length_fmap.
  apply (for_each_sim (fmap (M:=list) (prod_map f id))). intros i t.
  apply chain_step_relabel.
Qed.

End ChainSortRelabel.

Lemma chain_sort_fingerprints_only {Name1 Name2 Fp : Type}
    (dist : Fp → Fp → score) (l1 : list (Name1 * Fp)) (l2 : list (Name2 * Fp)) :
  l1.*2 = l2.*2 →
  fmap (M:=list) snd <$> chain_sort dist l1 = fmap (M:=list) snd <$> chain_sort dist l2.
Proof.
  intros Hfps.
  assert (∃ both : list (Name1 * Name2 * Fp),
            l1 = prod_map fst id <$> both ∧ l2 = prod_map snd id <$> both)
    as (both & -> & ->).
  { revert l2 Hfps.
    induction l1 as [|[n1 fp1] l1 IH]; intros [|[n2 fp2] l2] Hfps;
      simplify_eq/=; [by exists []|].
    destruct (IH l2) as (both & -> & ->); [done|].
    by exists ((n1, n2, fp2) :: both). }
  rewrite !chain_sort_relabel.
  destruct (chain_sort dist both) as [out|]; simpl; [|done].
  f_equal. rewrite <- !list_fmap_compose. by apply list_fmap_ext.
Qed.

Section ChainSortClaims.
Context {Name Fp : Type} (dist : Fp → Fp → score).
Implicit Types (img_list : list (Name * Fp)).

(** One turn of the outer loop: the nearest later item moves to position
    [i + 1]. *)
Lemma chain_step_least img_list (i : nat) :
  i + 1 < length img_list →
  ∃ j x y,
    i + 1 ≤ j < length img_list
    ∧ (∀ j', i + 1 ≤ j' < length img_list →
         score_ltb (pair_score dist img_list i j')
                   (pair_score dist img_list i j) = false)
    ∧ (∀ j', i + 1 ≤ j' < j →
         score_ltb (pair_score dist img_list i j)
                   (pair_score dist img_list i j') = true)
    ∧ img_list !! (i + 1) = Some x
    ∧ img_list !! j = Some y
    ∧ chain_step dist i img_list = Some (<[j := x]> (<[i + 1 := y]> img_list)).
Proof.
  intros Hi.
  destruct (nearest_least dist img_list i Hi)
    as (j & Hnear & Hj & Hmin & Hfirst).
  destruct (lookup_lt_is_Some_2 img_list (i + 1)) as [x Hx]; [lia|].
  destruct (lookup_lt_is_Some_2 img_list j) as [y Hy]; [lia|].
  exists j, x, y. repeat (split; [done|]).
  unfold chain_step. rewrite Hnear. simpl.
  unfold swap_items. by rewrite Hy, Hx.
Qed.

Lemma chain_step_keeps img_list (i : nat) :
  i + 1 < length img_list →
  ∃ l', chain_step dist i img_list = Some l'
    ∧ l' ≡ₚ img_list ∧ head l' = head img_list.
Proof.
  intros Hi.
  destruct (chain_step_least img_list i Hi)
    as (j & x & y & Hj & _ & _ & Hx & Hy & Hstep).
  eexists. split; [exact Hstep|]. split.
  - by apply Permutation_insert_swap.
  - rewrite !head_lookup. by rewrite !list_lookup_insert_ne by lia.
Qed.

(** The first [k] turns end, and keep the items and the first item. *)
Lemma chain_prefix_keeps img_list (k : nat) :
  k ≤ length img_list - 1 →
  ∃ l', chain_prefix dist k img_list = Some l'
    ∧ l' ≡ₚ img_list ∧ head l' = head img_list.
Proof.
  intros Hk. unfold chain_prefix.
  apply (for_each_inv (λ l', l' ≡ₚ img_list ∧ head l' = head img_list));
    [done|].
  intros i l Hi [Hperm Hhead].
  apply elem_of_seq in Hi.
  destruct (chain_step_keeps l i) as (l' & Hstep & Hperm' & Hhead').
  { rewrite (Permutation_length Hperm). lia. }
  exists l'. split; [done|]. split; [by rewrite Hperm'|congruence].
Qed.

Lemma chain_prefix_S img_list (k : nat) :
  chain_prefix dist (S k) img_list
  = chain_prefix dist k img_list ≫= chain_step dist k.
Proof.
  unfold chain_prefix. rewrite seq_S, for_each_app. simpl.
  destruct (Py.for_each (seq 0 k) _ _); simpl; [|done].
  by destruct (chain_step dist k l).
Qed.

(** C6: the chain sort always ends, with the first item of its input in
    front; turn [i] (for [i] from 0 to [n - 2]) finds among the positions
    [i+1 .. n-1] of the current list the one whose item is nearest to the
    item at [i] -- no position has a smaller score, and every earlier one
    has a strictly larger score -- and exchanges it with position [i + 1];
    the result is a function of the input, and its order a function of the
    fingerprints in their input order. *)
Theorem chain_sort_greedy img_list :
  let n := length img_list in
  (∃ out, chain_sort dist img_list = Some out
     ∧ chain_prefix dist (n - 1) img_list = Some out
     ∧ head out = head img_list)
  ∧ chain_prefix dist 0 img_list = Some img_list
  ∧ (∀ i, i < n - 1 →
       ∃ seq_i j x y,
         chain_prefix dist i img_list = Some seq_i
         ∧ i + 1 ≤ j < n
         ∧ (∀ j', i + 1 ≤ j' < n →
              score_ltb (pair_score dist seq_i i j')
                        (pair_score dist seq_i i j) = false)
         ∧ (∀ j', i + 1 ≤ j' < j →
              score_ltb (pair_score dist seq_i i j)
                        (pair_score dist seq_i i j') = true)
         ∧ seq_i !! (i + 1) = Some x
         ∧ seq_i !! j = Some y
         ∧ chain_prefix dist (S i) img_list
           = Some (<[j := x]> (<[i + 1 := y]> seq_i)))
  ∧ (∀ other out1 out2,
       other = img_list →
       chain_sort dist img_list = Some out1 →
       chain_sort dist other = Some out2 → out1 = out2)
  ∧ (∀ (Name' : Type) (other : list (Name' * Fp)),
       other.*2 = img_list.*2 →
       fmap (M:=list) snd <$> chain_sort dist other
       = fmap (M:=list) snd <$> chain_sort dist img_list).
Proof.
  intros n. split; [|split; [done|split; [|split]]].
  - destruct (chain_prefix_keeps img_list (n - 1)) as (out & Hrun & _ & Hhead);
      [done|].
    by exists out.
  - intros i Hi.
    destruct (chain_prefix_keeps img_list i) as (seq_i & Hrun & Hperm & _);
      [fold n; lia|].
    assert (length seq_i = n) as Hlen by apply (Permutation_length Hperm).
    destruct (chain_step_least seq_i i) as
      (j & x & y & Hj & Hmin & Hfirst & Hx & Hy & Hstep); [lia|].
    rewrite Hlen in Hj, Hmin.
    exists seq_i, j, x, y. repeat (split; [done|]).
    by rewrite chain_prefix_S, Hrun.
  - intros other out1 out2 -> H1 H2. congruence.
  - intros Name' other Hfps. by apply chain_sort_fingerprints_only.
Qed.

(** The chain sort rearranges its input. *)
Lemma chain_sort_perm img_list :
  ∃ out, chain_sort dist img_list = Some out ∧ out ≡ₚ img_list.
Proof.
  destruct (chain_prefix_keeps img_list (length img_list - 1))
    as (out & Hrun & Hperm & _); [done|].
  by exists out.
Qed.

End ChainSortClaims.

(** ** The sorts rearrange their input *)

Lemma insert_by_perm {A : Type} (stop : A → A → bool) (x : A) (l : list A) :
  Py.insert_by stop x l ≡ₚ x :: l.
Proof.
  induction l as [|y l IH]; simpl; [done|].
  destruct (stop x y); [done|]. by rewrite IH, Permutation_swap.
Qed.

Lemma sorted_perm {A K : Type} (lt : K → K → bool) (key : A → K)
    (reverse : bool) (l : list A) :
  Py.sorted lt key reverse l ≡ₚ l.
Proof.
  unfold Py.sorted. induction l as [|x l IH]; simpl; [done|].
  by rewrite insert_by_perm, IH.
Qed.

Section SortPermutations.
Context {Name Fp : Type}.

Lemma compare_swap_perm (j : nat) (img_list : list (Name * Q)) :
  j + 1 < length img_list →
  ∃ l', compare_swap j img_list = Some l' ∧ l' ≡ₚ img_list.
Proof.
  intros Hj. unfold compare_swap.
  destruct (lookup_lt_is_Some_2 img_list j) as [a Ha]; [lia|].
  destruct (lookup_lt_is_Some_2 img_list (j + 1)) as [b Hb]; [lia|].
  rewrite Ha, Hb. simpl. eexists. split; [done|].
  destruct (Qltb b.2 a.2); [|done].
  by apply Permutation_insert_swap.
Qed.

Lemma sort_black_pixels_perm (img_list : list (Name * Q)) :
  ∃ out, sort_black_pixels img_list = Some out ∧ out ≡ₚ img_list.
Proof.
  unfold sort_black_pixels.
  apply (for_each_inv (λ l, l ≡ₚ img_list)); [done|].
  intros i l Hi Hl. apply elem_of_seq in Hi.
  destruct (for_each_inv (λ l', l' ≡ₚ img_list)
              (seq 0 (length img_list - i - 1)) compare_swap l Hl)
    as (l' & Hrun & Hl'); [|by exists l'].
  intros j t Hj Ht. apply elem_of_seq in Hj.
  destruct (compare_swap_perm j t) as (t' & Hstep & Ht').
  { rewrite (Permutation_length Ht). lia. }
  exists t'. split; [done|]. by rewrite Ht'.
Qed.

Context (dist : Fp → Fp → score).

(** Summing the scores of one item against the positions [js] ends when the
    positions are those of items. *)
Lemma total_ends (img_list : list (Name * Fp * score)) (i : nat)
    (js : list nat) (total : score) :
  i < length img_list →
  Forall (λ j, j < length img_list) js →
  is_Some (Py.for_each js (add_score dist img_list i) total).
Proof.
  intros Hi Hjs. revert total.
  induction Hjs as [|j js Hj _ IH]; intros total; simpl; [done|].
  unfold add_score at 1.
  destruct (lookup_lt_is_Some_2 img_list i Hi) as [a ->].
  destruct (lookup_lt_is_Some_2 img_list j Hj) as [b ->].
  simpl. case_decide; apply IH.
Qed.

(** Storing a total leaves the names and fingerprints as they are. *)
Lemma set_total_keeps (js : nat → list nat) (i : nat)
    (img_list : list (Name * Fp * score)) :
  i < length img_list →
  Forall (λ j, j < length img_list) (js i) →
  ∃ l', set_total dist js i img_list = Some l' ∧ l'.*1 = img_list.*1.
Proof.
  intros Hi Hjs. unfold set_total.
  destruct (total_ends img_list i (js i) (Fin 0) Hi Hjs) as [t ->].
  destruct (lookup_lt_is_Some_2 img_list i Hi) as [a Ha].
  rewrite Ha. simpl. eexists. split; [done|].
  rewrite list_fmap_insert. simpl. apply list_insert_id.
  by rewrite list_lookup_fmap, Ha.
Qed.

Lemma dissim_scores_keep (js : nat → list nat) (k : nat)
    (img_list : list (Name * Fp * score)) :
  k ≤ length img_list →
  (∀ i, Forall (λ j, j < length img_list) (js i)) →
  ∃ l', Py.for_each (seq 0 k) (set_total dist js) img_list = Some l'
    ∧ l'.*1 = img_list.*1.
Proof.
  intros Hk Hjs.
  apply (for_each_inv (λ l', l'.*1 = img_list.*1)); [done|].
  intros i l Hi Hl. apply elem_of_seq in Hi.
  assert (length l = length img_list) as Hlen.
  { by rewrite <- (length_fmap fst l), Hl, length_fmap. }
  destruct (set_total_keeps js i l) as (l' & Hstep & Hl').
  { lia. }
  { rewrite Hlen. apply Hjs. }
  exists l'. split; [done|]. congruence.
Qed.

Lemma sort_face_cnn_dissim_perm (loaded : list (Name * Fp)) :
  ∃ out, sort_face_cnn_dissim dist loaded = Some out ∧ out.*1 ≡ₚ loaded.
Proof.
  unfold sort_face_cnn_dissim.
  set (img_list := (λ x, (x, Fin 0)) <$> loaded).
  destruct (dissim_scores_keep
              (λ i, seq (i + 1) (length img_list - (i + 1)))
              (length img_list - 1) img_list) as (l' & -> & Hl'); [lia| |].
  { intros i. apply Forall_forall. intros j Hj.
    apply elem_of_seq in Hj. lia. }
  simpl. eexists. split; [done|].
  rewrite (sorted_perm score_ltb snd true l'), Hl'. unfold img_list.
  rewrite <- list_fmap_compose. by rewrite list_fmap_id.
Qed.

Lemma sort_hist_dissim_perm (loaded : list (Name * Fp)) :
  ∃ out, sort_hist_dissim dist loaded = Some out ∧ out.*1 ≡ₚ loaded.
Proof.
  unfold sort_hist_dissim.
  set (img_list := (λ x, (x, Fin 0)) <$> loaded).
  destruct (dissim_scores_keep (λ _, seq 0 (length img_list))
              (length img_list) img_list) as (l' & -> & Hl'); [lia| |].
  { intros i. apply Forall_forall. intros j Hj.
    apply elem_of_seq in Hj. lia. }
  simpl. eexists. split; [done|].
  rewrite (sorted_perm score_ltb snd true l'), Hl'. unfold img_list.
  rewrite <- list_fmap_compose. by rewrite list_fmap_id.
Qed.

End SortPermutations.

(** C8: every ordering policy returns the items it was given, each once:
    the sorts by a scalar key (the built-in sort and the exchange sort of
    [sort_black_pixels]), the chain sorts and the dissimilarity sorts (whose
    items gain a third field, the total). *)
Theorem sequencer_output_is_permutation {Name Fp : Type} :
  (∀ scored : list (Name * Q),
     sort_distance scored ≡ₚ scored
     ∧ sort_blur scored ≡ₚ scored
     ∧ sort_blur_fft scored ≡ₚ scored
     ∧ sort_color scored ≡ₚ scored
     ∧ sort_face_yaw scored ≡ₚ scored
     ∧ sort_size scored ≡ₚ scored
     ∧ ∃ out, sort_black_pixels scored = Some out ∧ out ≡ₚ scored)
  ∧ (∀ (dist : Fp → Fp → score) (img_list : list (Name * Fp)),
       (∃ out, sort_face_cnn dist img_list = Some out ∧ out ≡ₚ img_list)
       ∧ (∃ out, sort_hist dist img_list = Some out ∧ out ≡ₚ img_list))
  ∧ (∀ (dist : Fp → Fp → score) (loaded : list (Name * Fp)),
       (∃ out, sort_face_cnn_dissim dist loaded = Some out
               ∧ out.*1 ≡ₚ loaded)
       ∧ (∃ out, sort_hist_dissim dist loaded = Some out
                 ∧ out.*1 ≡ₚ loaded)).
Proof.
  split; [|split].
  - intros scored. repeat (split; [apply sorted_perm|]).
    apply sort_black_pixels_perm.
  - intros dist img_list. split; apply chain_sort_perm.
  - intros dist loaded.
    split; [apply sort_face_cnn_dissim_perm | apply sort_hist_dissim_perm].
Qed.


(** ** Dictionaries with the keys [0 .. n-1] *)

Section DictFacts.
Context {V : Type}.
Implicit Types (d : list (Z * V)).

Lemma dict_alter_absent (f : V → V) (key : Z) d :
  key ∉ d.*1 → Py.dict_alter f key d = None.
Proof.
  induction d as [|[k v] d IH]; simpl; [done|].
  rewrite not_elem_of_cons. intros [Hne Hnot].
  rewrite decide_False by done. by rewrite IH.
Qed.

Lemma dict_alter_at (f : V → V) d (a k : nat) :
  d.*1 = Z.of_nat <$> seq a (length d) → k < length d →
  ∃ v, d !! k = Some (Z.of_nat (a + k), v)
    ∧ Py.dict_alter f (Z.of_nat (a + k)) d
      = Some (<[k := (Z.of_nat (a + k), f v)]> d).
Proof.
  revert a k. induction d as [|[key v] d IH]; intros a k Hkeys Hk; simpl in *.
  { lia. }
  injection Hkeys as -> Hkeys.
  destruct k as [|k].
  - exists v. rewrite Nat.add_0_r. split; [done|].
    by rewrite decide_True.
  - destruct (IH (S a) k Hkeys) as (w & Hw & Halter); [lia|].
    replace (a + S k) with (S a + k) by lia.
    exists w. split; [done|].
    rewrite decide_False by lia. by rewrite Halter.
Qed.

Lemma dict_set_new (v : V) d :
  d.*1 = Z.of_nat <$> seq 0 (length d) →
  Py.dict_set (Z.of_nat (length d)) v d = d ++ [(Z.of_nat (length d), v)].
Proof.
  intros Hkeys. unfold Py.dict_set. rewrite dict_alter_absent; [done|].
  rewrite Hkeys. intros Hin. apply list_elem_of_fmap in Hin as (k & Hk & Hin).
  apply elem_of_seq in Hin. lia.
Qed.

End DictFacts.

(** ** Online clustering *)

Section ClusteringFacts.
Context {Name Fp : Type}.
Implicit Types (rg : list (Z * list Fp)) (bins : list (list Name)).

Lemma group_face_cnn_step_generic (dist : Fp → Fp → score) (row0 : Fp → Fp) :
  @group_face_cnn_step Name Fp dist row0
  = cluster_step (score_faces_cnn dist) row0.
Proof. reflexivity. Qed.

Lemma group_hist_step_generic (dist : Fp → Fp → score) :
  @group_hist_step Name Fp dist = cluster_step (get_avg_score_hist dist) id.
Proof. reflexivity. Qed.

(** The scan of the groups keeps the first group of least score, unless no
    group scores below infinity. *)
Lemma best_group_least (score_of : list Fp → option score)
    (f : list Fp → score) rg :
  (∀ e, e ∈ rg → score_of e.2 = Some (f e.2)) →
  ∃ key best,
    best_group score_of rg = Some (key, best)
    ∧ (∀ e, e ∈ rg → score_ltb (f e.2) best = false)
    ∧ ((key = (-1)%Z ∧ best = Inf)
       ∨ ∃ k e, rg !! k = Some e ∧ e.1 = key ∧ f e.2 = best
           ∧ score_ltb best Inf = true
           ∧ ∀ k' e', k' < k → rg !! k' = Some e' →
               score_ltb best (f e'.2) = true).
Proof.
  unfold best_group.
  induction rg as [|e rg IH] using rev_ind; intros Hscore.
  - exists (-1)%Z, Inf. split; [done|]. split; [|by left].
    intros e He. by apply elem_of_nil in He.
  - destruct IH as (key & best & Hrun & Hmin & Hwhich).
    { intros e' He'. apply Hscore. apply elem_of_app. by left. }
    rewrite for_each_app, Hrun. simpl. unfold consider at 1.
    rewrite (Hscore e) by (apply elem_of_app; right; by left). simpl.
    destruct (score_ltb (f e.2) best) eqn:Hlt.
    + exists e.1, (f e.2). split; [done|]. split.
      * intros e' He'. apply elem_of_app in He' as [He'|He'].
        -- destruct (score_ltb (f e'.2) (f e.2)) eqn:Hlt'; [|done].
           rewrite <- (Hmin e' He'). symmetry. by eapply score_ltb_trans.
        -- apply list_elem_of_singleton in He' as ->. apply score_ltb_irrefl.
      * right. exists (length rg), e. split; [by apply list_lookup_middle|].
        split; [done|]. split; [done|]. split.
        { destruct (f e.2), best; done. }
        intros k' e' Hk' He'. rewrite lookup_app_l in He' by done.
        eapply score_ltb_le_trans; [exact Hlt|].
        apply Hmin. by eapply list_elem_of_lookup_2.
    + exists key, best. split; [done|]. split.
      * intros e' He'. apply elem_of_app in He' as [He'|He']; [by apply Hmin|].
        by apply list_elem_of_singleton in He' as ->.
      * destruct Hwhich as [?|(k & e0 & Hk & Hkey & Hbest & Hfin & Hfirst)];
          [by left|right].
        exists k, e0. pose proof (lookup_lt_Some _ _ _ Hk).
        split; [by rewrite lookup_app_l|]. repeat (split; [done|]).
        intros k' e' Hk' He'. rewrite lookup_app_l in He' by lia. eauto.
Qed.

Lemma concat_alter_append bins (k : nat) (x : Name) :
  k < length bins → concat (alter (λ b, b ++ [x]) k bins) ≡ₚ concat bins ++ [x].
Proof.
  revert k. induction bins as [|b bins IH]; intros k Hk; simpl in *; [lia|].
  destruct k as [|k].
  - simpl. rewrite <- !app_assoc. f_equiv. apply Permutation_app_comm.
  - change (concat (b :: alter (λ b, b ++ [x]) k bins)
            ≡ₚ (b ++ concat bins) ++ [x]).
    simpl. rewrite IH by lia. by rewrite app_assoc.
Qed.

End ClusteringFacts.

Section ClusterStep.
Context {Name Fp : Type}.
Context (score_of : Fp → list Fp → option score) (stored : Fp → Fp).
Hypothesis score_total : ∀ fp refs, refs ≠ [] → is_Some (score_of fp refs).
Implicit Types (rg : list (Z * list Fp)) (bins : list (list Name)).

Lemma clusters_wf_length rg bins : clusters_wf rg bins → length rg = length bins.
Proof.
  unfold clusters_wf. intros Hwf.
  by rewrite <- (length_fmap fst rg), Hwf, length_fmap, length_seq.
Qed.

(** One turn of a clustering loop: the item joins the first group of least
    score if that score is below the threshold, and opens a group of its own
    otherwise. *)
Lemma cluster_step_spec (min_threshold : Q) (img_list : list (Name * Fp))
    (i : nat) (item : Name * Fp) rg bins :
  clusters_wf rg bins → Forall (λ e, e.2 ≠ []) rg →
  img_list !! i = Some item →
  ∃ key best,
    best_group (score_of item.2) rg = Some (key, best)
    ∧ (∀ e, e ∈ rg →
         score_ltb (default Inf (score_of item.2 e.2)) best = false)
    ∧ (score_ltb best (Fin min_threshold) = true →
         ∃ k refs,
           key = Z.of_nat k ∧ k < length bins
           ∧ rg !! k = Some (key, refs)
           ∧ default Inf (score_of item.2 refs) = best
           ∧ (∀ k' e', k' < k → rg !! k' = Some e' →
                score_ltb best (default Inf (score_of item.2 e'.2)) = true)
           ∧ cluster_step score_of stored min_threshold img_list i (rg, bins)
             = Some (<[k := (key, refs ++ [stored item.2])]> rg,
                     alter (λ b, b ++ [item.1]) k bins))
    ∧ (score_ltb best (Fin min_threshold) = false →
         cluster_step score_of stored min_threshold img_list i (rg, bins)
         = Some (rg ++ [(Z.of_nat (length rg), [item.2])],
                 bins ++ [[item.1]])).
Proof.
  intros Hwf Hrefs Hitem.
  pose proof (clusters_wf_length rg bins Hwf) as Hlen.
  assert (rg.*1 = Z.of_nat <$> seq 0 (length rg)) as Hkeys
    by (by rewrite Hlen).
  destruct (best_group_least (score_of item.2)
              (λ refs, default Inf (score_of item.2 refs)) rg)
    as (key & best & Hrun & Hmin & Hwhich).
  { intros e He. rewrite Forall_forall in Hrefs.
    by destruct (score_total item.2 e.2 (Hrefs e He)) as [s ->]. }
  exists key, best. split; [done|]. split; [done|].
  unfold cluster_step. rewrite Hitem. simpl. rewrite Hrun. simpl. split.
  - intros Hlt. rewrite Hlt.
    destruct Hwhich as [[_ ->]|(k & e & Hk & Hkey & Hbest & _ & Hfirst)];
      [done|].
    pose proof (lookup_lt_Some _ _ _ Hk) as Hklt.
    destruct (dict_alter_at (λ refs, refs ++ [stored item.2]) rg 0 k Hkeys Hklt)
      as (refs & Hk' & Halter).
    simpl in Hk', Halter. rewrite Hk in Hk'. injection Hk' as ->.
    simpl in Hkey. subst key.
    exists k, refs. split; [done|]. split; [lia|].
    repeat (split; [done|]).
    rewrite Halter. simpl. by rewrite append_at_nat by lia.
  - intros Hge. rewrite Hge. by rewrite dict_set_new.
Qed.

(** A turn keeps the state well formed and adds the name of the item to the
    bins, once. *)
Lemma cluster_step_keeps (min_threshold : Q) (img_list : list (Name * Fp))
    (i : nat) (item : Name * Fp) rg bins :
  clusters_wf rg bins → Forall (λ e, e.2 ≠ []) rg →
  img_list !! i = Some item →
  ∃ rg' bins',
    cluster_step score_of stored min_threshold img_list i (rg, bins)
    = Some (rg', bins')
    ∧ clusters_wf rg' bins' ∧ Forall (λ e, e.2 ≠ []) rg'
    ∧ concat bins' ≡ₚ concat bins ++ [item.1].
Proof.
  intros Hwf Hrefs Hitem.
  pose proof (clusters_wf_length rg bins Hwf) as Hlen.
  destruct (cluster_step_spec min_threshold img_list i item rg bins
              Hwf Hrefs Hitem) as (key & best & _ & _ & Hyes & Hno).
  destruct (score_ltb best (Fin min_threshold)) eqn:Hlt.
  - destruct (Hyes eq_refl) as (k & refs & -> & Hk & Hkk & _ & _ & Hstep).
    eexists _, _. split; [exact Hstep|]. split; [|split].
    + unfold clusters_wf in *. rewrite length_alter, list_fmap_insert. simpl.
      rewrite list_insert_id; [done|]. by rewrite list_lookup_fmap, Hkk.
    + apply Forall_insert; [done|]. simpl. by destruct refs.
    + by apply concat_alter_append.
  - eexists _, _. split; [exact (Hno eq_refl)|]. split; [|split].
    + unfold clusters_wf in *. rewrite fmap_app, length_app, Hwf. simpl.
      rewrite Nat.add_1_r, seq_S, fmap_app. simpl. by rewrite Hlen.
    + apply Forall_app_2; [done|]. by apply Forall_singleton.
    + rewrite concat_app. by simpl.
Qed.

End ClusterStep.

Section ClusteringClaims.
Context {Name Fp : Type} (dist : Fp → Fp → score) (row0 : Fp → Fp).
Implicit Types (img_list : list (Name * Fp)).

Lemma score_faces_cnn_total (fp : Fp) (refs : list Fp) :
  refs ≠ [] → is_Some (score_faces_cnn dist fp refs).
Proof. done. Qed.

Lemma get_avg_score_hist_total (fp : Fp) (refs : list Fp) :
  refs ≠ [] → is_Some (get_avg_score_hist dist fp refs).
Proof. unfold get_avg_score_hist, mean. by destruct refs. Qed.

Lemma face_cnn_prefix_S (min_threshold : Q) img_list (k : nat) :
  face_cnn_prefix dist row0 min_threshold img_list (S k)
  = face_cnn_prefix dist row0 min_threshold img_list k
    ≫= group_face_cnn_step dist row0 min_threshold img_list k.
Proof.
  unfold face_cnn_prefix. rewrite seq_S, for_each_app. simpl.
  destruct (Py.for_each (seq 0 k) _ _) as [st|]; simpl; [|done].
  by destruct (group_face_cnn_step _ _ _ _ k st).
Qed.

(** After [k] turns the bins of [group_face_cnn] hold the first [k] names. *)
Lemma face_cnn_prefix_keeps (min_threshold : Q) img_list (k : nat) :
  k ≤ length img_list →
  ∃ rg bins,
    face_cnn_prefix dist row0 min_threshold img_list k = Some (rg, bins)
    ∧ clusters_wf rg bins ∧ Forall (λ e, e.2 ≠ []) rg
    ∧ concat bins ≡ₚ (take k img_list).*1.
Proof.
  induction k as [|k IH]; intros Hk.
  - exists [], []. by rewrite take_0.
  - destruct IH as (rg & bins & Hrun & Hwf & Hrefs & Hperm); [lia|].
    destruct (lookup_lt_is_Some_2 img_list k) as [item Hitem]; [lia|].
    destruct (cluster_step_keeps (score_faces_cnn dist) row0
                score_faces_cnn_total min_threshold img_list k item rg bins
                Hwf Hrefs Hitem)
      as (rg' & bins' & Hstep & Hwf' & Hrefs' & Hperm').
    exists rg', bins'. rewrite face_cnn_prefix_S, Hrun. simpl.
    split; [exact Hstep|]. split; [done|]. split; [done|].
    rewrite (take_S_r _ _ _ Hitem), fmap_app, Hperm', Hperm. done.
Qed.

Lemma hist_prefix_S (min_threshold : Q) img_list (k : nat) :
  hist_prefix dist min_threshold img_list (S k)
  = hist_prefix dist min_threshold img_list k
    ≫= group_hist_step dist min_threshold img_list (S k).
Proof.
  unfold hist_prefix. rewrite seq_S.
  destruct (img_list !! 0) as [first|]; simpl; [|done].
  rewrite for_each_app.
  destruct (Py.for_each (seq 1 k) _ _) as [st|]; simpl; [|done].
  by destruct (group_hist_step _ _ _ (S k) st).
Qed.

(** After [k] turns the bins of [group_hist] hold the first [k + 1] names. *)
Lemma hist_prefix_keeps (min_threshold : Q) img_list (k : nat) :
  S k ≤ length img_list →
  ∃ rg bins,
    hist_prefix dist min_threshold img_list k = Some (rg, bins)
    ∧ clusters_wf rg bins ∧ Forall (λ e, e.2 ≠ []) rg
    ∧ concat bins ≡ₚ (take (S k) img_list).*1.
Proof.
  induction k as [|k IH]; intros Hk.
  - destruct img_list as [|first rest]; simpl in Hk; [lia|].
    exists [(0%Z, [first.2])], [[first.1]]. unfold hist_prefix. simpl.
    split; [done|]. split; [done|]. split; [|done].
    by repeat constructor.
  - destruct IH as (rg & bins & Hrun & Hwf & Hrefs & Hperm); [lia|].
    destruct (lookup_lt_is_Some_2 img_list (S k)) as [item Hitem]; [lia|].
    destruct (cluster_step_keeps (get_avg_score_hist dist) id
                get_avg_score_hist_total min_threshold img_list (S k) item
                rg bins Hwf Hrefs Hitem)
      as (rg' & bins' & Hstep & Hwf' & Hrefs' & Hperm').
    exists rg', bins'. rewrite hist_prefix_S, Hrun. simpl.
    split; [exact Hstep|]. split; [done|]. split; [done|].
    rewrite (take_S_r _ _ _ Hitem), fmap_app, Hperm', Hperm. done.
Qed.

(** [group_hist] puts every name of a non-empty list in one bin. *)
Lemma group_hist_partition (min_threshold : Q) img_list :
  img_list ≠ [] →
  ∃ bins, group_hist dist min_threshold img_list = Some bins
    ∧ concat bins ≡ₚ img_list.*1.
Proof.
  intros Hne.
  assert (0 < length img_list) as Hlen by (destruct img_list; simpl; [done|lia]).
  destruct (hist_prefix_keeps min_threshold img_list (length img_list - 1))
    as (rg & bins & Hrun & _ & _ & Hperm); [lia|].
  exists bins. split.
  - unfold hist_prefix in Hrun. unfold group_hist.
    destruct (img_list !! 0); simpl in *; [|done]. by rewrite Hrun.
  - rewrite Hperm. by rewrite take_ge by lia.
Qed.

End ClusteringClaims.

Section FaceCnnClaims.
Context {Name Fp : Type} (dist : Fp → Fp → score) (row0 : Fp → Fp).
Implicit Types (img_list : list (Name * Fp)).

(** [group_face_cnn] stops one item short: what it returns are bins of all
    the names but the last. *)
Lemma group_face_cnn_all_but_last (args_min_threshold : Q) img_list :
  ∃ bins, group_face_cnn dist row0 args_min_threshold img_list = Some bins
    ∧ concat bins ≡ₚ (take (length img_list - 1) img_list).*1.
Proof.
  destruct (face_cnn_prefix_keeps dist row0 (args_min_threshold * 1000)%Q
              img_list (length img_list - 1))
    as (rg & bins & Hrun & _ & _ & Hperm); [lia|].
  exists bins. split; [|done].
  unfold group_face_cnn. unfold face_cnn_prefix in Hrun. by rewrite Hrun.
Qed.

End FaceCnnClaims.

(** The score [group_face_cnn] gives a group: the mean of the distances to
    its references, infinity where the scorer raises. *)
Lemma score_faces_cnn_mean {Fp : Type} (dist : Fp → Fp → score) (fl1 : Fp)
    (refs : list Fp) :
  default Inf (score_faces_cnn dist fl1 refs)
  = match refs with
    | [] => Inf
    | _ => score_div (foldl score_add (Fin 0) (dist fl1 <$> refs))
                     (length refs)
    end.
Proof.
  unfold score_faces_cnn, get_avg_score_faces_cnn, mean.
  destruct refs as [|r refs]; [done|].
  change (default Inf (Some ?x)) with x.
  by rewrite <- (length_fmap (dist fl1) (r :: refs)).
Qed.

(** The loop of [group_face_cnn] never reads the last item. *)
Lemma group_face_cnn_ignores_last {Name Fp : Type} (dist : Fp → Fp → score)
    (row0 : Fp → Fp) (args_min_threshold : Q) (img_list : list (Name * Fp))
    (last_item other : Name * Fp) :
  group_face_cnn dist row0 args_min_threshold (img_list ++ [last_item])
  = group_face_cnn dist row0 args_min_threshold (img_list ++ [other]).
Proof.
  unfold group_face_cnn. rewrite !length_app. simpl. f_equal.
  apply for_each_ext. intros i st Hi. apply elem_of_seq in Hi.
  unfold group_face_cnn_step. by rewrite !lookup_app_l by lia.
Qed.

(** C9, where the code departs from it.  The threshold is the configured
    one times 1000 (7200 for the default 7.2), and at every turn of the loop
    the rule of the claim holds, with the mean [sum(scores) / len(scores)]
    of the distances to the references of a group: if some group has a mean
    strictly below the scaled threshold, the item joins the first group of
    least mean, and if none has, the item opens a group of its own.  But the
    loop stops one item short: the last item is never scored, so it is
    neither accepted nor does it open a group, however near it is; the bins
    are the same whatever the last item is.  With the threshold 1000, the
    items [a] and [b] at distance 1 give the one bin [[a]]. *)
Theorem face_cnn_threshold_rule_misses_last_item {Name Fp : Type}
    (dist : Fp → Fp → score) (row0 : Fp → Fp) (args_min_threshold : Q) :
  let min_threshold := (args_min_threshold * 1000)%Q in
  let avg (fl1 : Fp) (refs : list Fp) : score :=
    match refs with
    | [] => Inf
    | _ => score_div (foldl score_add (Fin 0) (dist fl1 <$> refs))
                     (length refs)
    end in
  (∀ img_list : list (Name * Fp),
     let n := length img_list in
     let prefix := face_cnn_prefix dist row0 min_threshold img_list in
     group_face_cnn dist row0 args_min_threshold img_list
     = snd <$> prefix (n - 1)
     ∧ prefix 0 = Some ([], [])
     ∧ ∀ i, i < n - 1 →
         ∃ item rg bins,
           img_list !! i = Some item
           ∧ prefix i = Some (rg, bins)
           ∧ length rg = length bins
           ∧ Forall (λ e, e.2 ≠ []) rg
           ∧ ((∃ e, e ∈ rg
                 ∧ score_ltb (avg item.2 e.2) (Fin min_threshold) = true) →
                ∃ (k : nat) refs,
                  rg !! k = Some (Z.of_nat k, refs) ∧ k < length bins
                  ∧ score_ltb (avg item.2 refs) (Fin min_threshold) = true
                  ∧ (∀ e, e ∈ rg →
                       score_ltb (avg item.2 e.2) (avg item.2 refs) = false)
                  ∧ (∀ k' e', k' < k → rg !! k' = Some e' →
                       score_ltb (avg item.2 refs) (avg item.2 e'.2) = true)
                  ∧ prefix (S i)
                    = Some (<[k := (Z.of_nat k, refs ++ [row0 item.2])]> rg,
                            alter (λ b, b ++ [item.1]) k bins))
           ∧ ((∀ e, e ∈ rg →
                 score_ltb (avg item.2 e.2) (Fin min_threshold) = false) →
                prefix (S i)
                = Some (rg ++ [(Z.of_nat (length rg), [item.2])],
                        bins ++ [[item.1]])))
  ∧ (∀ (img_list : list (Name * Fp)) (last_item other : Name * Fp),
       group_face_cnn dist row0 args_min_threshold (img_list ++ [last_item])
       = group_face_cnn dist row0 args_min_threshold (img_list ++ [other])
       ∧ ∃ bins,
           group_face_cnn dist row0 args_min_threshold
             (img_list ++ [last_item]) = Some bins
           ∧ concat bins ≡ₚ img_list.*1)
  ∧ group_face_cnn (λ x y : Z, Fin (inject_Z (Z.abs (x - y)))) id 1
      [("a.png"%string, 0%Z); ("b.png"%string, 1%Z)]
    = Some [["a.png"%string]]
  ∧ (∀ unset : Q, (unset < 0)%Q →
       Orchestrator.default_min_threshold "folders" "face-cnn" unset
       = (72 # 10)%Q)
  ∧ ((72 # 10) * 1000 == 7200)%Q.
Proof.
  intros min_threshold avg.
  assert (∀ fl1 refs,
            default Inf (score_faces_cnn dist fl1 refs) = avg fl1 refs)
    as Havg by apply score_faces_cnn_mean.
  split; [|split; [|split; [done|split; [|done]]]].
  - intros img_list n prefix. split; [done|]. split; [done|].
    intros i Hi.
    destruct (lookup_lt_is_Some_2 img_list i) as [item Hitem]; [fold n; lia|].
    destruct (face_cnn_prefix_keeps dist row0 min_threshold img_list i)
      as (rg & bins & Hrun & Hwf & Hrefs & _); [fold n; lia|].
    destruct (cluster_step_spec (score_faces_cnn dist) row0
                (score_faces_cnn_total dist) min_threshold img_list i item
                rg bins Hwf Hrefs Hitem)
      as (key & best & _ & Hmin & Hyes & Hno).
    assert (prefix (S i)
            = cluster_step (score_faces_cnn dist) row0 min_threshold
                img_list i (rg, bins)) as Hstep.
    { unfold prefix. by rewrite face_cnn_prefix_S, Hrun. }
    exists item, rg, bins.
    split; [done|]. split; [done|].
    split; [by eapply clusters_wf_length|]. split; [done|]. split.
    + intros (e & He & Hlt).
      assert (score_ltb best (Fin min_threshold) = true) as Hb.
      { destruct (score_ltb best (Fin min_threshold)) eqn:Hb; [done|].
        specialize (Hmin e He). rewrite Havg in Hmin.
        by rewrite (score_ltb_ntrans _ _ _ Hmin Hb) in Hlt. }
      destruct (Hyes Hb)
        as (k & refs & -> & Hk & Hkk & Hscore & Hfirst & Hnext).
      rewrite Havg in Hscore. subst best.
      exists k, refs.
      split; [done|]. split; [done|]. split; [done|]. split; [|split].
      * intros e' He'. rewrite <- (Havg item.2 e'.2). by apply Hmin.
      * intros k' e' Hk' He'. rewrite <- (Havg item.2 e'.2).
        by eapply Hfirst.
      * by rewrite Hstep.
    + intros Hall.
      assert (score_ltb best (Fin min_threshold) = false) as Hb.
      { destruct (score_ltb best (Fin min_threshold)) eqn:Hb; [|done].
        destruct (Hyes eq_refl) as (k & refs & _ & _ & Hkk & Hscore & _).
        rewrite Havg in Hscore. rewrite <- Hscore in Hb.
        assert (score_ltb (avg item.2 refs) (Fin min_threshold) = false)
          as Hc by (apply (Hall (key, refs)); by eapply list_elem_of_lookup_2).
        by rewrite Hc in Hb. }
      rewrite Hstep. by apply Hno.
  - intros img_list last_item other.
    split; [apply group_face_cnn_ignores_last|].
    destruct (group_face_cnn_all_but_last dist row0 args_min_threshold
                (img_list ++ [last_item])) as (bins & Hrun & Hperm).
    rewrite length_app in Hperm. simpl in Hperm.
    rewrite Nat.add_sub, take_app_length in Hperm.
    by exists bins.
  - intros unset Hunset. unfold Orchestrator.default_min_threshold.
    apply Qltb_lt in Hunset. by rewrite Hunset.
Qed.

(** ** The bins are a partition of the names *)

Section Partitions.
Context {Name Val : Type}.

Lemma group_blur_partition (num_bins : nat) (img_list : list (Name * Val)) :
  0 < num_bins →
  ∃ bins, group_blur (Z.of_nat num_bins) img_list = Some bins
    ∧ concat bins ≡ₚ img_list.*1.
Proof.
  intros Hnb. eexists. split; [by apply group_blur_closed_form|].
  set (n := length img_list). set (q := n / num_bins).
  set (r := n mod num_bins).
  pose proof (Nat.div_mod_eq n num_bins) as Hdm. fold q r in Hdm.
  rewrite concat_app, concat_chunks. simpl.
  rewrite app_nil_r, app_assoc, reverse_Permutation.
  rewrite (take_take_drop _ ((num_bins - 1) * q) q).
  replace ((num_bins - 1) * q + q) with (n - r) by nia.
  by rewrite take_drop.
Qed.

Lemma place_loop_partition (classify : Name * Q → nat)
    (full l rest : list (Name * Q)) (bins bins' : list (list Name)) :
  full = l ++ rest →
  Py.for_each (imap (λ idx _bin, (idx, _bin)) (classify <$> l))
    (place full) bins = Some bins' →
  concat bins' ≡ₚ concat bins ++ l.*1.
Proof.
  revert rest bins'.
  induction l as [|x xs IH] using rev_ind; intros rest bins' Hfull.
  - simpl. intros [= <-]. by rewrite app_nil_r.
  - rewrite fmap_app, imap_app, for_each_app. simpl.
    destruct (Py.for_each _ _ bins) as [st|] eqn:Hrun; simpl; [|done].
    rewrite length_fmap, Nat.add_0_r. unfold place. simpl.
    assert (full !! length xs = Some x) as ->.
    { subst full. rewrite <- app_assoc. by apply list_lookup_middle. }
    simpl. destruct (Py.append_at st _ _) as [st'|] eqn:Happ; [|done].
    intros [= <-].
    apply append_at_is_Some in Happ as (j & Hj & ->).
    rewrite concat_alter_append by done.
    rewrite (IH ([x] ++ rest) st) by (by rewrite ?app_assoc).
    by rewrite fmap_app, app_assoc.
Qed.

(** When [group_black_pixels] returns, every name is in exactly one bin. *)
Lemma group_black_pixels_partition (num_bins : Z)
    (img_list : list (Name * Q)) (bins : list (list Name)) :
  group_black_pixels num_bins img_list = Some bins →
  concat bins ≡ₚ img_list.*1.
Proof.
  unfold group_black_pixels. intros Hrun.
  destruct (_near_split 100 num_bins) as [edges|]; [|done]. simpl in Hrun.
  rewrite (place_loop_partition (λ x, digitize x.2 edges) img_list img_list []
             _ bins (eq_sym (app_nil_r _)) Hrun).
  replace (concat (replicate (Z.to_nat num_bins) ([] : list Name)))
    with ([] : list Name); [done|].
  clear. induction (Z.to_nat num_bins) as [|m IH]; simpl; done.
Qed.

End Partitions.

(** C1, where the code departs from it: [group_face_cnn] leaves the last item
    of its input out of every bin, so that a list of one item gives no bin
    at all.  (The other groupers do return partitions:
    [group_blur_partition], [group_black_pixels_partition],
    [group_hist_partition].) *)
Theorem group_face_cnn_loses_last_item {Name Fp : Type}
    (dist : Fp → Fp → score) (row0 : Fp → Fp) (args_min_threshold : Q) :
  (∀ item : Name * Fp,
     group_face_cnn dist row0 args_min_threshold [item] = Some [])
  ∧ (∀ (img_list : list (Name * Fp)) (last_item : Name * Fp),
       ∃ bins,
         group_face_cnn dist row0 args_min_threshold (img_list ++ [last_item])
         = Some bins
         ∧ concat bins ≡ₚ img_list.*1
         ∧ (last_item.1 ∉ img_list.*1 → last_item.1 ∉ concat bins)).
Proof.
  split; [done|]. intros img_list last_item.
  destruct (group_face_cnn_all_but_last dist row0 args_min_threshold
              (img_list ++ [last_item])) as (bins & Hrun & Hperm).
  rewrite length_app in Hperm. simpl in Hperm.
  rewrite Nat.add_sub, take_app_length in Hperm.
  exists bins. split; [done|]. split; [done|]. by rewrite Hperm.
Qed.


(** ** File names *)

Section NameFacts.
Local Open Scope string_scope.

Lemma length_append (s t : string) :
  String.length (s +:+ t) = String.length s + String.length t.
Proof. induction s as [|c s IH]; simpl; [done|]. by rewrite IH. Qed.

Lemma ext_from_length (seen_name : bool) (p : string) :
  (String.length (PyStr.ext_from seen_name p) ≤ String.length p)%nat.
Proof.
  revert seen_name. induction p as [|c p IH]; intros seen_name; simpl; [done|].
  destruct (Ascii.eqb c "."); [|by etrans; [apply IH|lia]].
  pose proof (IH seen_name) as Hle.
  destruct (PyStr.ext_from seen_name p) as [|e es] eqn:He.
  - destruct seen_name; simpl; lia.
  - simpl in *. lia.
Qed.

Lemma pad5_not_empty (i : nat) : PyStr.pad5 i ≠ "".
Proof.
  unfold PyStr.pad5. destruct (pretty i) as [|c digits]; [done|].
  by destruct (String.concat _ _).
Qed.

Lemma join_same_prefix (a p x y : string) :
  p ≠ "" → PyStr.join a (p +:+ x) = PyStr.join a (p +:+ y) → x = y.
Proof.
  intros Hp. destruct p as [|c p]; [done|]. unfold PyStr.join.
  assert (∀ z, String.prefix "/" (String c p +:+ z)
               = String.prefix "/" (String c "")) as E.
  { intros z. change (String c p +:+ z) with (String c (p +:+ z)).
    cbn [String.prefix]. by destruct (ascii_dec "/" c), (p +:+ z). }
  rewrite !E. destruct (String.prefix "/" (String c "")).
  - intros H. by apply (inj (String.append (String c p))) in H.
  - destruct (_ || _); intros H.
    + apply (inj (String.append a)) in H.
      by apply (inj (String.append (String c p))) in H.
    + apply (inj (String.append a)) in H. injection H as H.
      by apply (inj (String.append p)) in H.
Qed.

(** The final name of an item is never its scratch name. *)
Lemma final_name_not_scratch (output_dir : string) (i : nat) (src : string) :
  Materializer.final_name output_dir i src
  ≠ Materializer.scratch_name output_dir i src.
Proof.
  unfold Materializer.final_name, Materializer.scratch_name. intros H.
  apply join_same_prefix in H; [|apply pad5_not_empty].
  pose proof (ext_from_length false (PyStr.basename src)) as Hle.
  unfold PyStr.splitext_ext in H. rewrite H, length_append in Hle.
  simpl in Hle. lia.
Qed.

End NameFacts.

(** ** The change log of [final_process_rename] *)

Section RenameFacts.
Import Materializer.
Local Open Scope string_scope.
Implicit Types (a : args) (w : world) (img_list : list string).
Implicit Types (entries : list (nat * string)).

Lemma final_process_rename_phases a img_list w :
  final_process_rename a img_list w
  = strip_phase a img_list (scratch_phase a img_list w).
Proof. reflexivity. Qed.

(** [process_file] writes the log after the file operation, so only when it
    succeeded. *)
Lemma process_file_logs_on_success (keep : bool) (src dst : string) w :
  match set_process_file_method true keep src dst w with
  | Some w' =>
      src ∈ files w ∧ dst ∈ files w'
      ∧ changes w' = <[src := dst]> (changes w)
  | None => src ∉ files w
  end.
Proof.
  destruct keep; simpl; unfold copyfile, os_rename;
    (case_decide; simpl; [|done]); (split; [done|]); (split; [|done]);
    set_solver.
Qed.

(** A turn of the scratch loop leaves the log alone or adds the entry
    [src -> scratch name]. *)
Lemma scratch_one_changes a w (e : nat * string) :
  changes (scratch_one a w e) = changes w
  ∨ changes (scratch_one a w e)
    = <[e.2 := scratch_name (output_dir a) e.1 e.2]> (changes w).
Proof.
  unfold scratch_one, set_process_file_method, scratch_name.
  destruct (log_changes a), (keep_original a); simpl;
    unfold copyfile, os_rename; case_decide; simpl; auto.
Qed.

(** A turn of the strip loop with logging adds [fname -> final name],
    whatever becomes of the renaming. *)
Lemma strip_one_changes a w (e : nat * string) :
  log_changes a = true →
  changes (strip_one a w e)
  = <[e.2 := final_name (output_dir a) e.1 e.2]> (changes w).
Proof.
  intros Hlog. unfold strip_one, set_renaming_method, final_name.
  rewrite Hlog. by destruct (os_rename _ _ _).
Qed.

Lemma scratch_log_entries a entries w (key v : string) :
  changes (foldl (scratch_one a) w entries) !! key = Some v →
  changes w !! key = Some v
  ∨ ∃ e, e ∈ entries ∧ e.2 = key
         ∧ v = scratch_name (output_dir a) e.1 e.2.
Proof.
  induction entries as [|e entries IH] using rev_ind; [by left|].
  rewrite foldl_snoc. intros Hv.
  destruct (scratch_one_changes a (foldl (scratch_one a) w entries) e)
    as [Heq|Heq]; rewrite Heq in Hv.
  - destruct (IH Hv) as [?|(e' & He' & ?)]; [by left|right].
    exists e'. split; [|done]. apply elem_of_app. by left.
  - apply lookup_insert_Some in Hv as [[<- <-]|[Hne Hv]].
    + right. exists e. split; [|done]. apply elem_of_app. right. by left.
    + destruct (IH Hv) as [?|(e' & He' & ?)]; [by left|right].
      exists e'. split; [|done]. apply elem_of_app. by left.
Qed.

Lemma strip_log_entries a entries w (key v : string) :
  log_changes a = true →
  changes (foldl (strip_one a) w entries) !! key = Some v →
  ((key ∉ entries.*2) ∧ changes w !! key = Some v)
  ∨ ∃ e, e ∈ entries ∧ e.2 = key ∧ v = final_name (output_dir a) e.1 e.2.
Proof.
  intros Hlog.
  induction entries as [|e entries IH] using rev_ind.
  { left. split; [|done]. apply not_elem_of_nil. }
  rewrite foldl_snoc, strip_one_changes by done. intros Hv.
  apply lookup_insert_Some in Hv as [[<- <-]|[Hne Hv]].
  - right. exists e. split; [|done]. apply elem_of_app. right. by left.
  - destruct (IH Hv) as [[Hnot ?]|(e' & He' & ?)]; [left|right].
    + split; [|done]. rewrite fmap_app, not_elem_of_app. split; [done|].
      simpl. rewrite not_elem_of_cons. split; [done|apply not_elem_of_nil].
    + exists e'. split; [|done]. apply elem_of_app. by left.
Qed.

(** With logging, every name the strip loop goes through ends up a key of
    the log. *)
Lemma strip_logs_every_name a entries w (key : string) :
  log_changes a = true → key ∈ entries.*2 →
  is_Some (changes (foldl (strip_one a) w entries) !! key).
Proof.
  intros Hlog.
  induction entries as [|e entries IH] using rev_ind.
  { intros Hin. by apply elem_of_nil in Hin. }
  rewrite foldl_snoc, strip_one_changes, fmap_app by done. simpl.
  intros Hin. destruct (decide (e.2 = key)) as [<-|Hne].
  - by rewrite lookup_insert_eq.
  - rewrite lookup_insert_ne by done. apply IH.
    apply elem_of_app in Hin as [?|Hin]; [done|].
    by apply list_elem_of_singleton in Hin.
Qed.

Lemma entry_of_img_list img_list (e : nat * string) :
  e ∈ imap pair img_list ↔ img_list !! e.1 = Some e.2.
Proof.
  rewrite elem_of_lookup_imap. split.
  - by intros (i & y & -> & ?).
  - intros He. exists e.1, e.2. by destruct e.
Qed.

End RenameFacts.

Section RenameClaims.
Import Materializer.
Local Open Scope string_scope.
Implicit Types (a : args) (img_list : list string).

(** C7 as the code has it: with logging on and the log empty at the start,
    every entry of the log that [final_process_rename] leaves maps the
    original path of an item to its final name [{i:05d}{ext}] in the output
    directory, and never to its scratch name; the strip loop records these
    entries, over the entries [original -> scratch name] of the scratch
    loop. *)
Theorem rename_log_maps_original_to_final a img_list (files0 : gset string) :
  log_changes a = true →
  let w1 := scratch_phase a img_list (World files0 ∅) in
  let w := final_process_rename a img_list (World files0 ∅) in
  written_log a w = Some (changes w)
  ∧ (∀ key v, changes w1 !! key = Some v →
       ∃ i, img_list !! i = Some key
            ∧ v = scratch_name (output_dir a) i key)
  ∧ (∀ key v, changes w !! key = Some v →
       ∃ i, img_list !! i = Some key
            ∧ v = final_name (output_dir a) i key
            ∧ v ≠ scratch_name (output_dir a) i key).
Proof.
  intros Hlog w1 w.
  assert (∀ key v, changes w1 !! key = Some v →
            ∃ i, img_list !! i = Some key
                 ∧ v = scratch_name (output_dir a) i key) as Hscratch.
  { intros key v Hv.
    apply scratch_log_entries in Hv as [Hv|(e & He & <- & ->)]; [done|].
    exists e.1. split; [|done]. by apply entry_of_img_list. }
  split; [|split; [done|]].
  - unfold written_log. by rewrite Hlog.
  - intros key v Hv. unfold w in Hv.
    rewrite final_process_rename_phases in Hv. fold w1 in Hv.
    apply strip_log_entries in Hv as [[Hnot Hv]|(e & He & <- & ->)];
      [| |done].
    + exfalso. apply Hnot.
      destruct (Hscratch key v Hv) as (i & Hi & _).
      apply list_elem_of_fmap. exists (i, key). split; [done|].
      by apply entry_of_img_list.
    + exists e.1. split; [by apply entry_of_img_list|]. split; [done|].
      apply final_name_not_scratch.
Qed.

End RenameClaims.

(** One file, moved and logged: the entry goes from the original path to the
    final name. *)
Lemma rename_log_maps_original_to_final_witness :
  let a := Materializer.Args "out" true false in
  let w := Materializer.final_process_rename a ["in/a.png"%string]
             (Materializer.World {["in/a.png"%string]} ∅) in
  Materializer.log_changes a = true
  ∧ Materializer.changes w !! "in/a.png"%string = Some "out/00000.png"%string
  ∧ ∀ key v, Materializer.changes w !! key = Some v →
      ∃ i, ["in/a.png"%string] !! i = Some key
           ∧ v = Materializer.final_name "out" i key
           ∧ v ≠ Materializer.scratch_name "out" i key.
Proof.
  intros a w. split; [reflexivity|]. split; [vm_compute; reflexivity|].
  pose proof (rename_log_maps_original_to_final a ["in/a.png"%string]
                {["in/a.png"%string]} eq_refl) as (_ & _ & Hfinal).
  exact Hfinal.
Defined.

(** C7 as stated fails: after a successful run the log has no entry under
    the scratch name; its one entry is under the original path. *)
Lemma rename_log_not_keyed_by_scratch_name :
  let a := Materializer.Args "out" true false in
  let w := Materializer.final_process_rename a ["in/a.png"%string]
             (Materializer.World {["in/a.png"%string]} ∅) in
  Materializer.scratch_name "out" 0 "in/a.png" = "out/00000_a.png"%string
  ∧ Materializer.files w = {["out/00000.png"%string]}
  ∧ Materializer.changes w = {["in/a.png"%string := "out/00000.png"%string]}
  ∧ Materializer.changes w !! "out/00000_a.png"%string = None.
Proof.
  intros a w.
  split; [|split; [|split]]; vm_compute; reflexivity.
Qed.

(** C2, where the code departs from it: the strip loop writes the entry of
    an item before it tries the renaming, and outside the [try].  With
    [in/a.png] missing, the scratch loop skips it and logs nothing for it,
    but the log written at the end has [in/a.png -> out/00000.png], a file
    that does not exist; the other item is moved and logged.  In general,
    with logging on, every item of the list has an entry, whatever happened
    to its file. *)
Theorem rename_logs_item_whose_copy_failed :
  (let a := Materializer.Args "out" true false in
   let img_list := ["in/a.png"; "in/b.png"]%string in
   let w0 := Materializer.World {["in/b.png"%string]} ∅ in
   let w1 := scratch_phase a img_list w0 in
   let w := Materializer.final_process_rename a img_list w0 in
   Materializer.changes w1
   = {["in/b.png"%string := "out/00001_b.png"%string]}
   ∧ Materializer.files w = {["out/00001.png"%string]}
   ∧ Materializer.written_log a w
     = Some {["in/a.png"%string := "out/00000.png"%string;
              "in/b.png"%string := "out/00001.png"%string]})
  ∧ (∀ (a : Materializer.args) (img_list : list string)
       (w0 : Materializer.world) (i : nat) (name : string),
       Materializer.log_changes a = true →
       img_list !! i = Some name →
       is_Some (Materializer.changes
                  (Materializer.final_process_rename a img_list w0)
                !! name)).
Proof.
  split.
  - intros a img_list w0 w1 w.
    split; [|split]; vm_compute; reflexivity.
  - intros a img_list w0 i name Hlog Hname.
    rewrite final_process_rename_phases. unfold strip_phase.
    apply strip_logs_every_name; [done|].
    apply list_elem_of_fmap. exists (i, name). split; [done|].
    by apply entry_of_img_list.
Qed.

(** ** Orchestrator *)

Section SpliceFacts.
Context {Name Old New : Type} `{EqDecision Name}.

(** [splice_lists] keeps the order of the sorted list. *)
Lemma splice_lists_order (sorted_list : list (Name * Old))
    (new_vals_list : list (Name * New)) (out : list (Name * New)) :
  splice_lists sorted_list new_vals_list = Some out →
  out.*1 = sorted_list.*1.
Proof.
  unfold splice_lists. rewrite mapM_Some. intros Hall.
  induction Hall as [|item y l k Hy _ IH]; [done|].
  rewrite !fmap_cons, IH. f_equal. unfold splice_one in Hy.
  destruct (Py.list_index _ _); simpl in Hy; [|done].
  destruct (new_vals_list !! _); simpl in Hy; [|done].
  by injection Hy as <-.
Qed.

End SpliceFacts.

Section OrchestratorClaims.
Import Orchestrator.
Local Open Scope string_scope.

(** C3, where the code departs from it: [sort_process] asks whether the
    name of the group method, without [group_], occurs inside the name of
    the sort method.  Sorting by [blur-fft] and grouping by [blur] are two
    metrics, but ["blur"] occurs in ["sort_blur_fft"], and the values are
    not reloaded.  For every other pair of a sort and a group method of the
    class the test agrees with the identity of the metrics (a dissimilarity
    sort has the metric of its plain sort), and nothing is reloaded when the
    final process is not [folders]. *)
Theorem blur_fft_then_blur_is_not_reloaded :
  reloads_cli "blur-fft" "blur" "folders" = false
  ∧ sort_metric (sort_method_name "blur-fft") = Some BlurFft
  ∧ group_metric (group_method_name "blur") = Some Blur
  ∧ reloads_cli "blur" "blur-fft" "folders" = true
  ∧ (∀ s g, s ∈ sort_choices → g ∈ group_choices →
       (s, g) ≠ ("blur-fft", "blur") →
       reloads_cli s g "folders"
       = negb (bool_decide (sort_metric (sort_method_name s)
                            = group_metric (group_method_name g))))
  ∧ (∀ s g, s ∈ sort_choices → g ∈ group_choices →
       reloads_cli s g "rename" = false).
Proof.
  split; [reflexivity|]. split; [reflexivity|]. split; [reflexivity|].
  split; [reflexivity|]. split.
  - intros s g Hs Hg Hne. unfold sort_choices in Hs. unfold group_choices in Hg.
    repeat (apply elem_of_cons in Hs as [->|Hs]);
      try (by apply elem_of_nil in Hs);
      repeat (apply elem_of_cons in Hg as [->|Hg]);
      try (by apply elem_of_nil in Hg);
      try (vm_compute; reflexivity).
    by destruct Hne.
  - intros s g Hs Hg. unfold sort_choices in Hs. unfold group_choices in Hg.
    repeat (apply elem_of_cons in Hs as [->|Hs]);
      try (by apply elem_of_nil in Hs);
      repeat (apply elem_of_cons in Hg as [->|Hg]);
      try (by apply elem_of_nil in Hg);
      vm_compute; reflexivity.
Qed.

End OrchestratorClaims.

(** ** The functions on small inputs *)

Section Examples.
Local Open Scope string_scope.

(** Fingerprints that are numbers, compared by their distance. *)
Let gap (a b : Z) : score := Fin (inject_Z (Z.abs (a - b))).

Example chain_sort_walk :
  sort_hist gap [("a", 10); ("b", 50); ("c", 12); ("d", 49); ("e", 11)]%Z
  = Some [("a", 10); ("e", 11); ("c", 12); ("d", 49); ("b", 50)]%Z.
Proof. vm_compute. reflexivity. Qed.

(** On a tie the earlier candidate is taken: [b] and [c] are both at 5 from
    [a]. *)
Example chain_sort_tie :
  sort_face_cnn gap [("a", 10); ("b", 15); ("c", 5)]%Z
  = Some [("a", 10); ("b", 15); ("c", 5)]%Z.
Proof. vm_compute. reflexivity. Qed.

Example dissim_sort_totals :
  fmap (M:=list) (λ x, x.1.1) <$>
    sort_hist_dissim gap [("a", 10); ("b", 50); ("c", 12)]%Z
  = Some ["b"; "a"; "c"].
Proof. vm_compute. reflexivity. Qed.

(** The built-in sort is stable, also when reversed. *)
Example sort_blur_stable :
  sort_blur [("a", 1%Q); ("b", 3%Q); ("c", 1%Q); ("d", 3%Q)]
  = [("b", 3%Q); ("d", 3%Q); ("a", 1%Q); ("c", 1%Q)].
Proof. vm_compute. reflexivity. Qed.

Example sort_black_pixels_ascending :
  sort_black_pixels [("a", 30%Q); ("b", 0%Q); ("c", 75%Q); ("d", 12%Q)]
  = Some [("b", 0%Q); ("d", 12%Q); ("a", 30%Q); ("c", 75%Q)].
Proof. vm_compute. reflexivity. Qed.

Example group_blur_ten_in_three :
  group_blur 3 ((λ k, (k, tt)) <$> seq 0 10)
  = Some [[0; 1; 2]; [3; 4; 5]; [6; 7; 8; 9]].
Proof. vm_compute. reflexivity. Qed.

Example group_blur_eleven_in_three :
  group_blur 3 ((λ k, (k, tt)) <$> seq 0 11)
  = Some [[0; 1; 2]; [3; 4; 5]; [6; 7; 8; 10; 9]].
Proof. vm_compute. reflexivity. Qed.

(** Three items with d(A,B) = 1 and d(A,C) = d(B,C) = 10, threshold 2. *)
Let abc (x y : string) : score :=
  if String.eqb x y then Fin 0
  else if (String.eqb x "C" || String.eqb y "C")%bool then Fin 10
  else Fin 1.

Example group_hist_abc :
  group_hist abc 2 [("a.png", "A"); ("b.png", "B"); ("c.png", "C")]
  = Some [["a.png"; "b.png"]; ["c.png"]].
Proof. vm_compute. reflexivity. Qed.

(** The same items through [group_face_cnn], whose threshold is in
    thousandths: the last item is in no bin. *)
Example group_face_cnn_abc :
  group_face_cnn abc id (2 # 1000)
    [("a.png", "A"); ("b.png", "B"); ("c.png", "C")]
  = Some [["a.png"; "b.png"]].
Proof. vm_compute. reflexivity. Qed.

Example near_split_seven :
  _near_split 100 7 = Some [0; 15; 30; 44; 58; 72; 86; 100]%Z.
Proof. reflexivity. Qed.

Example splice_keeps_order :
  splice_lists [("b", 2%Z); ("a", 1%Z)] [("a", 10%Z); ("b", 20%Z)]
  = Some [("b", 20%Z); ("a", 10%Z)].
Proof. vm_compute. reflexivity. Qed.

End Examples.

(** * Further properties *)

(** ** Numbered file names do not collide *)

Section NumberedNames.
Local Open Scope string_scope.

Lemma pretty_N_char_digit (x : N) :
  (x < 10)%N →
  is_digit (pretty_N_char x) = true
  ∧ (N.of_nat (nat_of_ascii (pretty_N_char x)) - 48)%N = x.
Proof.
  intros Hx.
  assert (x = 0 ∨ x = 1 ∨ x = 2 ∨ x = 3 ∨ x = 4 ∨ x = 5 ∨ x = 6 ∨ x = 7
          ∨ x = 8 ∨ x = 9)%N as Hcases by lia.
  repeat (destruct Hcases as [->|Hcases]; [by vm_compute|]).
  subst x. by vm_compute.
Qed.

Lemma pretty_N_go_digits (x : N) (s : string) :
  all_digits s = true → all_digits (pretty_N_go x s) = true.
Proof.
  revert s. induction (N.lt_wf_0 x) as [x _ IH]; intros s Hs.
  assert (x = 0 ∨ 0 < x)%N as [->|Hpos] by lia; [done|].
  rewrite pretty_N_go_step by done. apply IH; [by apply N.div_lt|].
  simpl. rewrite Hs, andb_true_r.
  apply pretty_N_char_digit. by apply N.mod_lt.
Qed.

Lemma pretty_N_go_value (x : N) (s : string) :
  digits_value 0 (pretty_N_go x s) = digits_value x s.
Proof.
  revert s. induction (N.lt_wf_0 x) as [x _ IH]; intros s.
  assert (x = 0 ∨ 0 < x)%N as [->|Hpos] by lia; [done|].
  rewrite pretty_N_go_step by done. rewrite IH by (by apply N.div_lt).
  simpl. f_equal.
  destruct (pretty_N_char_digit (x `mod` 10)) as [_ ->];
    [by apply N.mod_lt|].
  pose proof (N.div_mod x 10). lia.
Qed.

Lemma pretty_nat_digits (i : nat) :
  all_digits (pretty i) = true ∧ digits_value 0 (pretty i) = N.of_nat i.
Proof.
  unfold pretty, pretty_nat, pretty, pretty_N. case_decide as Hi.
  - by rewrite Hi.
  - split; [by apply pretty_N_go_digits | apply pretty_N_go_value].
Qed.

Lemma zeros_S (k : nat) :
  String.concat "" (replicate (S k) "0")
  = String "0" (String.concat "" (replicate k "0")).
Proof. by destruct k. Qed.

Lemma pad5_digits (i : nat) :
  all_digits (PyStr.pad5 i) = true
  ∧ digits_value 0 (PyStr.pad5 i) = N.of_nat i.
Proof.
  unfold PyStr.pad5. destruct (pretty_nat_digits i) as [Hd Hv].
  induction (5 - String.length (pretty i))%nat as [|k IH]; [done|].
  rewrite zeros_S. simpl. apply IH.
Qed.











End NumberedNames.


(** ** What [final_process_rename] leaves on disk *)

Section RenameFiles.
Import Materializer.
Implicit Types (a : args) (w : world) (initial base : gset string).
Implicit Types (entries es : list (nat * string)).

Lemma present_snoc initial es (x : nat * string) :
  present initial (es ++ [x])
  = present initial es ++ (if decide (x.2 ∈ initial) then [x] else []).
Proof. unfold present. by rewrite filter_app, filter_singleton. Qed.

Lemma present_cons initial es (x : nat * string) :
  present initial (x :: es)
  = (if decide (x.2 ∈ initial) then [x] else []) ++ present initial es.
Proof. unfold present. rewrite filter_cons. by case_decide. Qed.

End RenameFiles.

Section RenameRenumbers.
Import Materializer.
Implicit Types (a : args) (initial : gset string) (img_list : list string).



End RenameRenumbers.

(** Two items, the first one missing: the second keeps the number 1. *)

(** ** Equal split: few items, and numbers of bins that are not positive *)

Section EqualSplitEdges.
Context {Name Val : Type}.
Implicit Types (img_list : list (Name * Val)).

(** With fewer items than bins every bin but the last stays empty, and the
    last bin holds all the names, the last one first. *)
Theorem group_blur_fewer_items_than_bins (num_bins : nat) img_list :
  length img_list < num_bins →
  group_blur (Z.of_nat num_bins) img_list
  = Some (replicate (num_bins - 1) [] ++ [reverse img_list.*1]).
Proof.
  intros Hlt.
  rewrite group_blur_closed_form by lia.
  rewrite Nat.div_small, Nat.mod_small by done.
  rewrite Nat.sub_diag. simpl. f_equal. f_equal.
  apply list_eq. intros i. rewrite list_lookup_fmap.
  destruct (decide (i < num_bins - 1)) as [Hi|Hi].
  - by rewrite lookup_seq_lt, lookup_replicate_2 by done.
  - rewrite lookup_seq_ge by lia. symmetry. apply lookup_replicate_None. lia.
Qed.

(** Zero bins is [ZeroDivisionError]; a negative number of bins gives no
    bin at all, for any list. *)
Theorem group_blur_no_positive_bins (num_bins : Z) img_list :
  (num_bins ≤ 0)%Z →
  group_blur num_bins img_list
  = if decide (num_bins = 0%Z) then None else Some [].
Proof.
  intros Hle. unfold group_blur. case_decide as H0.
  - subst. done.
  - destruct (Z.eqb_spec num_bins 0) as [?|_]; [done|].
    assert (num_bins < 0)%Z as Hneg by lia.
    pose proof (Z.mod_neg_bound (Z.of_nat (length img_list)) num_bins Hneg).
    unfold Py.range. rewrite !seqZ_nil by lia. simpl.
    by replace (Z.to_nat num_bins) with 0 by lia.
Qed.

End EqualSplitEdges.

Lemma group_blur_fewer_items_than_bins_witness :
  length [("a", tt); ("b", tt)] < 4
  ∧ group_blur 4 [("a", tt); ("b", tt)] = Some [[]; []; []; ["b"; "a"]].
Proof.
  split; [simpl; lia|].
  apply (group_blur_fewer_items_than_bins 4 [("a", tt); ("b", tt)]).
  simpl. lia.
Defined.

Lemma group_blur_no_positive_bins_witness :
  (-3 ≤ 0)%Z ∧ group_blur (-3) [("a", tt); ("b", tt)] = Some [].
Proof.
  split; [lia|].
  apply (group_blur_no_positive_bins (-3) [("a", tt); ("b", tt)]). lia.
Defined.

(** ** The widths of the bins of [_near_split] *)

Lemma running_next (u : Z) (seps : list Z) (k : nat) (e sep : Z) :
  (u :: running u seps) !! k = Some e → seps !! k = Some sep →
  running u seps !! k = Some (e + sep)%Z.
Proof.
  revert u k. induction seps as [|s seps IH]; intros u k; [done|].
  destruct k as [|k]; simpl.
  - by intros [= <-] [= <-].
  - apply IH.
Qed.

(** For a positive number of bins over a range that is not negative, the
    edges start at 0, end at the range, and the width of bin [k] is the
    quotient, plus one for the first [remainder] bins. *)
Theorem near_split_widths (bin_range : Z) (num_bins : nat) :
  (0 ≤ bin_range)%Z → 0 < num_bins →
  let quotient := (bin_range `div` Z.of_nat num_bins)%Z in
  let remainder := (bin_range `mod` Z.of_nat num_bins)%Z in
  ∃ edges,
    _near_split bin_range (Z.of_nat num_bins) = Some edges
    ∧ length edges = num_bins + 1
    ∧ edges !! 0 = Some 0%Z
    ∧ edges !! num_bins = Some bin_range
    ∧ ∀ k, k < num_bins →
        ∃ lo hi, edges !! k = Some lo ∧ edges !! (k + 1) = Some hi
          ∧ (hi - lo)%Z
            = (if decide (Z.of_nat k < remainder)%Z
               then quotient + 1 else quotient)%Z.
Proof.
  intros Hrange Hnb q r.
  destruct (near_split_edges bin_range num_bins Hrange Hnb)
    as (edges & Hedges & Hlen & _ & Hfirst & Hlast).
  exists edges. repeat (split; [done|]).
  intros k Hk.
  assert (0 ≤ r < Z.of_nat num_bins)%Z as Hr by (apply Z.mod_pos_bound; lia).
  unfold _near_split in Hedges.
  destruct (Z.eqb_spec (Z.of_nat num_bins) 0) as [?|_]; [lia|].
  fold q r in Hedges. rewrite near_split_loop in Hedges.
  injection Hedges as <-. simpl in *.
  set (seps := replicate (Z.to_nat r) (q + 1)%Z
               ++ replicate (Z.to_nat (Z.of_nat num_bins - r)) q) in *.
  destruct (lookup_lt_is_Some_2 (0%Z :: running 0 seps) k) as [lo Hlo].
  { simpl. lia. }
  assert (seps !! k
          = Some (if decide (Z.of_nat k < r)%Z then q + 1 else q)%Z) as Hsep.
  { unfold seps. case_decide.
    - rewrite lookup_app_l by (rewrite length_replicate; lia).
      apply lookup_replicate_2. lia.
    - rewrite lookup_app_r by (rewrite length_replicate; lia).
      rewrite length_replicate. apply lookup_replicate_2. lia. }
  exists lo, (lo + (if decide (Z.of_nat k < r)%Z then q + 1 else q))%Z.
  split; [done|]. split; [|lia].
  rewrite Nat.add_1_r. simpl. by apply running_next.
Qed.

Lemma near_split_widths_witness :
  (0 ≤ 100)%Z ∧ 0 < 7
  ∧ _near_split 100 7 = Some [0; 15; 30; 44; 58; 72; 86; 100]%Z.
Proof.
  split; [lia|]. split; [lia|].
  destruct (near_split_widths 100 7) as (edges & Hedges & _); [lia..|].
  reflexivity.
Defined.

(** ** The bins of the clustering loops *)

Section ClusterBins.
Context {Name Fp : Type}.
Context (score_of : Fp → list Fp → option score) (stored : Fp → Fp).
Hypothesis score_total : ∀ fp refs, refs ≠ [] → is_Some (score_of fp refs).
Implicit Types (rg : list (Z * list Fp)) (bins : list (list Name)).
Implicit Types (img_list : list (Name * Fp)).

Lemma bins_in_order_append (first x : Name) (seen : list Name) bins (k : nat) :
  k < length bins → bins_in_order first seen bins →
  bins_in_order first (seen ++ [x]) (alter (λ b, b ++ [x]) k bins).
Proof.
  intros Hk [Hall Hfirst]. split.
  - rewrite Forall_lookup in Hall. apply Forall_lookup. intros i b'.
    rewrite list_lookup_alter. case_decide as Hik.
    + subst i. destruct (bins !! k) as [b|] eqn:Hb; [|done].
      intros [= <-]. destruct (Hall k b Hb) as [Hne Hsub].
      split; [by destruct b|]. by apply sublist_app.
    + intros Hb. destruct (Hall i b' Hb) as [Hne Hsub].
      split; [done|]. by apply sublist_inserts_r.
  - intros b. rewrite list_lookup_alter. case_decide as Hk0.
    + subst k. destruct (bins !! 0) as [b0|] eqn:Hb0; [|done].
      intros [= <-]. rewrite Forall_lookup in Hall.
      destruct (Hall 0 b0 Hb0) as [Hne _].
      destruct b0; [done|]. apply (Hfirst _ eq_refl).
    + apply Hfirst.
Qed.

Lemma bins_in_order_new (first x : Name) (seen : list Name) bins :
  (bins = [] → x = first) → bins_in_order first seen bins →
  bins_in_order first (seen ++ [x]) (bins ++ [[x]]).
Proof.
  intros Hx [Hall Hfirst]. split.
  - apply Forall_app_2.
    + eapply Forall_impl; [exact Hall|]. intros b [Hne Hsub].
      split; [done|]. by apply sublist_inserts_r.
    + apply Forall_singleton. split; [done|].
      apply sublist_inserts_l. done.
  - destruct bins as [|b0 bins]; simpl.
    + intros b [= <-]. simpl. f_equal. by apply Hx.
    + apply Hfirst.
Qed.

(** The turns [s .. s+m-1] of a clustering loop keep the state well formed
    and the bins in order, and add each name once. *)
Lemma cluster_loop_bins (min_threshold : Q) img_list (first : Name * Fp)
    (m s : nat) rg bins :
  img_list !! 0 = Some first →
  s + m ≤ length img_list →
  clusters_wf rg bins → Forall (λ e, e.2 ≠ []) rg →
  (bins = [] → s = 0) →
  bins_in_order first.1 (take s img_list.*1) bins →
  ∃ rg' bins',
    Py.for_each (seq s m)
      (cluster_step score_of stored min_threshold img_list) (rg, bins)
    = Some (rg', bins')
    ∧ bins_in_order first.1 (take (s + m) img_list.*1) bins'
    ∧ (0 < m → bins' ≠ [])
    ∧ concat bins' ≡ₚ concat bins ++ take m (drop s img_list.*1).
Proof.
  intros Hfirst. revert s rg bins.
  induction m as [|m IH]; intros s rg bins Hlen Hwf Hrefs Hempty Hord.
  { exists rg, bins. rewrite Nat.add_0_r, take_0, app_nil_r.
    split; [done|]. split; [done|]. split; [lia|done]. }
  destruct (lookup_lt_is_Some_2 img_list s) as [item Hitem]; [lia|].
  assert (take (S s) img_list.*1 = take s img_list.*1 ++ [item.1]) as Htake.
  { apply take_S_r. by rewrite list_lookup_fmap, Hitem. }
  destruct (cluster_step_keeps score_of stored score_total min_threshold
              img_list s item rg bins Hwf Hrefs Hitem)
    as (rg1 & bins1 & Hstep & Hwf1 & Hrefs1 & Hperm1).
  assert (bins_in_order first.1 (take (S s) img_list.*1) bins1
          ∧ bins1 ≠ []) as [Hord1 Hne1].
  { destruct (cluster_step_spec score_of stored score_total min_threshold
                img_list s item rg bins Hwf Hrefs Hitem)
      as (key & best & _ & _ & Hyes & Hno).
    rewrite Htake.
    destruct (score_ltb best (Fin min_threshold)) eqn:Hlt.
    - destruct (Hyes eq_refl) as (k & refs & _ & Hk & _ & _ & _ & Hstep').
      rewrite Hstep in Hstep'. injection Hstep' as -> ->.
      split; [by apply bins_in_order_append|].
      intros Hnil. apply (f_equal length) in Hnil.
      rewrite length_alter in Hnil. simpl in Hnil. lia.
    - rewrite (Hno eq_refl) in Hstep. injection Hstep as <- <-.
      split; [|by destruct bins].
      apply bins_in_order_new; [|done].
      intros Hnil. rewrite (Hempty Hnil), Hfirst in Hitem.
      by injection Hitem as <-. }
  destruct (IH (S s) rg1 bins1) as (rg' & bins' & Hrun & Hord' & _ & Hperm');
    [lia|done|done|done|done|].
  exists rg', bins'. simpl. rewrite Hstep.
  split; [done|]. replace (s + S m) with (S s + m) by lia.
  split; [done|]. split.
  - intros _ Hnil. subst bins'. apply Permutation_nil_l in Hperm'.
    symmetry in Hperm'. apply app_eq_nil in Hperm' as [Hc _].
    rewrite Hc in Hperm1. apply Permutation_nil_l in Hperm1.
    symmetry in Hperm1. by apply app_eq_nil in Hperm1 as [_ ?].
  - rewrite Hperm', Hperm1, <- app_assoc.
    rewrite (drop_S _ item.1 s) by (by rewrite list_lookup_fmap, Hitem).
    done.
Qed.

End ClusterBins.

Lemma nonempty_bins_length {Name : Type} (bins : list (list Name)) :
  Forall (λ b, b ≠ []) bins → length bins ≤ length (concat bins).
Proof.
  induction 1 as [|b bins Hb _ IH]; simpl; [done|].
  rewrite length_app. destruct b; [done|]. simpl. lia.
Qed.

Section ClusterBinsClaims.
Context {Name Fp : Type} (dist : Fp → Fp → score) (row0 : Fp → Fp).
Implicit Types (img_list : list (Name * Fp)).

(** The bins of [group_hist]: none is empty, so there are at most as many
    as items; each bin lists its names in the order of the input, and the
    first item of the input opens the first bin. *)
Theorem group_hist_bins_in_order (min_threshold : Q) img_list :
  img_list ≠ [] →
  ∃ bins, group_hist dist min_threshold img_list = Some bins
    ∧ Forall (λ b, b ≠ [] ∧ b `sublist_of` img_list.*1) bins
    ∧ head bins ≫= head = head img_list.*1
    ∧ 0 < length bins ≤ length img_list.
Proof.
  intros Hne. destruct img_list as [|first rest] eqn:Hl; [done|].
  rewrite <- Hl.
  assert (img_list !! 0 = Some first) as Hfirst by (by rewrite Hl).
  destruct (cluster_loop_bins (get_avg_score_hist dist) id
              (get_avg_score_hist_total dist) min_threshold img_list first
              (length img_list - 1) 1 [(0%Z, [first.2])] [[first.1]])
    as (rg & bins & Hrun & [Hall Hhead] & _ & Hperm).
  { done. } { rewrite Hl. simpl. lia. } { done. }
  { by repeat constructor. } { done. }
  { rewrite Hl. split.
    - apply Forall_singleton. split; [done|]. simpl. by rewrite take_0.
    - by intros b [= <-]. }
  assert (1 + (length img_list - 1) = length img_list) as Hn
    by (rewrite Hl; simpl; lia).
  rewrite Hn, take_ge in Hall by (by rewrite length_fmap).
  exists bins. split.
  { change (cluster_step (get_avg_score_hist dist) id)
      with (@group_hist_step Name Fp dist) in Hrun.
    transitivity
      (snd <$> Py.for_each (seq 1 (length img_list - 1))
                 (group_hist_step dist min_threshold img_list)
                 ([(0%Z, [first.2])], [[first.1]])); [|by rewrite Hrun].
    unfold group_hist. by rewrite Hfirst. }
  split; [done|].
  assert (length (concat bins) = length img_list) as Hcount.
  { rewrite Hperm. simpl. rewrite length_take, length_drop, length_fmap. lia. }
  assert (length bins ≤ length (concat bins)) as Hle.
  { apply nonempty_bins_length. eapply Forall_impl; [exact Hall|].
    by intros b [? _]. }
  destruct bins as [|b0 bins].
  { simpl in Hcount. rewrite Hl in Hcount. done. }
  split; [|simpl in *; lia].
  simpl. rewrite (Hhead b0 eq_refl). by rewrite Hl.
Qed.

(** The bins of [group_face_cnn], over all items but the last: none is
    empty, each lists its names in the order of the input, and with two
    items or more the first item opens the first bin. *)
Theorem group_face_cnn_bins_in_order (args_min_threshold : Q) img_list :
  ∃ bins, group_face_cnn dist row0 args_min_threshold img_list = Some bins
    ∧ Forall (λ b, b ≠ []
                   ∧ b `sublist_of` take (length img_list - 1) img_list.*1)
             bins
    ∧ (2 ≤ length img_list → head bins ≫= head = head img_list.*1)
    ∧ length bins ≤ length img_list - 1.
Proof.
  destruct img_list as [|first rest] eqn:Hl; [by exists []|].
  rewrite <- Hl.
  assert (img_list !! 0 = Some first) as Hfirst by (by rewrite Hl).
  destruct (cluster_loop_bins (score_faces_cnn dist) row0
              (score_faces_cnn_total dist) (args_min_threshold * 1000)%Q
              img_list first (length img_list - 1) 0 [] [])
    as (rg & bins & Hrun & [Hall Hhead] & Hne & Hperm).
  { done. } { lia. } { done. } { done. } { done. }
  { split; [done|]. by intros b. }
  simpl in Hall, Hperm.
  exists bins. split.
  { unfold group_face_cnn.
    change (cluster_step (score_faces_cnn dist) row0)
      with (@group_face_cnn_step Name Fp dist row0) in Hrun.
    by rewrite Hrun. }
  split; [done|]. split.
  - intros Hlen. destruct bins as [|b0 bins]; [by destruct Hne; [lia|]|].
    simpl. rewrite (Hhead b0 eq_refl). by rewrite Hl.
  - assert (length (concat bins) = length img_list - 1) as Hcount.
    { rewrite Hperm, drop_0, length_take, length_fmap. lia. }
    rewrite <- Hcount. apply nonempty_bins_length.
    eapply Forall_impl; [exact Hall|]. by intros b [? _].
Qed.

End ClusterBinsClaims.

Lemma group_hist_bins_in_order_witness :
  [("a.png", 1%Z); ("b.png", 1%Z)] ≠ []
  ∧ ∃ bins,
      group_hist (λ x y, Fin (inject_Z (Z.abs (x - y)))) 1
        [("a.png", 1%Z); ("b.png", 1%Z)] = Some bins
      ∧ head bins ≫= head = Some "a.png".
Proof.
  split; [done|].
  destruct (group_hist_bins_in_order
              (λ x y, Fin (inject_Z (Z.abs (x - y)))) 1
              [("a.png", 1%Z); ("b.png", 1%Z)])
    as (bins & Hrun & _ & Hhead & _); [done|].
  exists bins. split; [exact Hrun | exact Hhead].
Defined.

(** ** [splice_lists] joins on the file name *)

Section SpliceJoin.
Context {Name Old New : Type} `{EqDecision Name}.

Lemma list_index_Some (x : Name) (l : list Name) (j : nat) :
  Py.list_index x l = Some j
  ↔ l !! j = Some x ∧ ∀ j' y, j' < j → l !! j' = Some y → y ≠ x.
Proof.
  revert j. induction l as [|y l IH]; intros j; simpl.
  { split; [done|]. by intros [? _]. }
  case_decide as Hy.
  - subst y. split.
    + intros [= <-]. split; [done|]. intros; lia.
    + intros [Hj Hfirst]. destruct j as [|j]; [done|].
      by destruct (Hfirst 0 x ltac:(lia) eq_refl).
  - split.
    + destruct (Py.list_index x l) as [k|]; [|done].
      simpl. intros [= <-]. destruct (proj1 (IH k) eq_refl) as [Hk Hfirst].
      split; [done|]. intros [|j'] z Hj' Hz.
      * by injection Hz as <-.
      * apply (Hfirst j' z); [lia|done].
    + intros [Hj Hfirst]. destruct j as [|j].
      { by injection Hj as ->. }
      assert (Py.list_index x l = Some j) as ->; [|done].
      apply IH. split; [done|]. intros j' z Hj' Hz.
      apply (Hfirst (S j') z); [lia|done].
Qed.

Lemma list_index_None (x : Name) (l : list Name) :
  Py.list_index x l = None ↔ x ∉ l.
Proof.
  induction l as [|y l IH]; simpl.
  { split; [intros _; apply not_elem_of_nil | done]. }
  rewrite not_elem_of_cons. case_decide as Hy.
  - subst y. split; [done|]. by intros [? _].
  - destruct (Py.list_index x l); simpl.
    + split; [done|]. intros [_ Hx]. by apply IH in Hx.
    + split; [|done]. intros _. split; [done|]. by apply IH.
Qed.

(** [splice_lists] returns iff every name of the sorted list occurs in the
    new list (else [list.index] raises [ValueError]); it then keeps the
    names in the sorted order, and gives each name the value of its first
    entry in the new list. *)
Theorem splice_lists_joins_on_name (sorted_list : list (Name * Old))
    (new_vals_list : list (Name * New)) :
  (is_Some (splice_lists sorted_list new_vals_list)
   ↔ ∀ item, item ∈ sorted_list → item.1 ∈ new_vals_list.*1)
  ∧ ∀ out, splice_lists sorted_list new_vals_list = Some out →
      out.*1 = sorted_list.*1
      ∧ ∀ i name v, out !! i = Some (name, v) →
          ∃ j, new_vals_list !! j = Some (name, v)
               ∧ ∀ j' e, j' < j → new_vals_list !! j' = Some e → e.1 ≠ name.
Proof.
  split.
  - unfold splice_lists. rewrite mapM_is_Some, Forall_forall.
    split; intros Hall item Hitem; specialize (Hall item Hitem).
    + unfold compose, splice_one in Hall.
      destruct (Py.list_index item.1 new_vals_list.*1) eqn:Hidx;
        [|by destruct Hall].
      apply list_index_Some in Hidx as [Hidx _].
      by eapply list_elem_of_lookup_2.
    + unfold compose, splice_one.
      destruct (Py.list_index item.1 new_vals_list.*1) as [j|] eqn:Hidx.
      * apply list_index_Some in Hidx as [Hidx _].
        rewrite list_lookup_fmap in Hidx. simpl.
        destruct (new_vals_list !! j); [by eexists|done].
      * by apply list_index_None in Hidx.
  - intros out Hout. split; [by eapply splice_lists_order|].
    intros i name v Hi. unfold splice_lists in Hout.
    apply mapM_Some in Hout.
    destruct (Forall2_lookup_r _ _ _ _ _ Hout Hi) as (item & _ & Hone).
    unfold splice_one in Hone.
    destruct (Py.list_index item.1 new_vals_list.*1) as [j|] eqn:Hidx;
      [|done].
    simpl in Hone.
    destruct (new_vals_list !! j) as [entry|] eqn:Hj; [|done].
    injection Hone as Hn Hv.
    apply list_index_Some in Hidx as [Hidx Hfirst].
    rewrite list_lookup_fmap, Hj in Hidx. injection Hidx as Hname.
    exists j. split.
    { destruct entry as [n' v']. simpl in *. congruence. }
    intros j' e Hj' He. rewrite <- Hn. apply (Hfirst j' e.1 Hj').
    by rewrite list_lookup_fmap, He.
Qed.

End SpliceJoin.

(** ** [sort_black_pixels] sorts *)

Section ExchangeSort.
Context {Name : Type}.
Implicit Types (l pre : list (Name * Q)).

Let gt (a b : Name * Q) : bool := Qltb b.2 a.2.
Let le (a b : Name * Q) : Prop := (a.2 <= b.2)%Q.

Lemma compare_swap_at pre (x y : Name * Q) l :
  compare_swap (length pre) (pre ++ x :: y :: l)
  = Some (pre ++ (if gt x y then y :: x :: l else x :: y :: l)).
Proof.
  unfold compare_swap.
  assert ((pre ++ x :: y :: l) !! length pre = Some x) as ->
    by (by apply list_lookup_middle).
  assert ((pre ++ x :: y :: l) !! (length pre + 1) = Some y) as ->.
  { rewrite (cons_middle x pre), app_assoc. apply list_lookup_middle.
    rewrite length_app. simpl. lia. }
  simpl. unfold gt. destruct (Qltb y.2 x.2); [|done]. f_equal.
  rewrite insert_app_r_alt by lia. rewrite Nat.sub_diag. simpl.
  rewrite insert_app_r_alt by lia.
  by replace (length pre + 1 - length pre) with 1 by lia.
Qed.

(** The inner loop is a pass of [bubble_upto]. *)
Lemma pass_bubble (m : nat) pre l :
  m + 1 ≤ length l →
  Py.for_each (seq (length pre) m) compare_swap (pre ++ l)
  = Some (pre ++ bubble_upto gt m l).
Proof.
  revert pre l. induction m as [|m IH]; intros pre l Hm; [done|].
  destruct l as [|x [|y l]]; simpl in Hm; [lia..|].
  cbn [seq Py.for_each]. rewrite compare_swap_at.
  cbn [bubble_upto]. destruct (gt x y).
  - rewrite (cons_middle y pre), app_assoc.
    replace (S (length pre)) with (length (pre ++ [y]))
      by (rewrite length_app; simpl; lia).
    rewrite IH by (simpl; lia). by rewrite <- app_assoc.
  - rewrite (cons_middle x pre), app_assoc.
    replace (S (length pre)) with (length (pre ++ [x]))
      by (rewrite length_app; simpl; lia).
    rewrite IH by (simpl; lia). by rewrite <- app_assoc.
Qed.

Lemma bubble_upto_app (m : nat) l (k : list (Name * Q)) :
  m + 1 ≤ length l → bubble_upto gt m (l ++ k) = bubble_upto gt m l ++ k.
Proof.
  revert l. induction m as [|m IH]; intros l Hm.
  { by destruct l as [|? [|? ?]]. }
  destruct l as [|x [|y l]]; simpl in Hm; [lia..|].
  change ((x :: y :: l) ++ k) with (x :: y :: (l ++ k)).
  cbn [bubble_upto]. destruct (gt x y).
  - change (x :: l ++ k) with ((x :: l) ++ k).
    rewrite (IH (x :: l)) by (simpl; lia). done.
  - change (y :: l ++ k) with ((y :: l) ++ k).
    rewrite (IH (y :: l)) by (simpl; lia). done.
Qed.

(** A full pass moves a greatest item to the end. *)
Lemma bubble_full (x : Name * Q) l :
  ∃ front top,
    bubble_upto gt (length l) (x :: l) = front ++ [top]
    ∧ front ++ [top] ≡ₚ x :: l
    ∧ Forall (λ y, le y top) front.
Proof.
  revert x. induction l as [|y l IH]; intros x.
  { exists [], x. by repeat split. }
  cbn [length bubble_upto]. destruct (gt x y) eqn:Hgt.
  - destruct (IH x) as (front & top & -> & Hperm & Hall).
    exists (y :: front), top. split; [done|]. split.
    { simpl. rewrite Hperm. apply Permutation_swap. }
    constructor; [|done].
    assert (le x top) as Hx.
    { assert (x ∈ front ++ [top]) as Hin by (rewrite Hperm; by left).
      apply elem_of_app in Hin as [Hin|Hin].
      - by apply (proj1 (Forall_forall _ _) Hall).
      - apply list_elem_of_singleton in Hin as ->. unfold le. lra. }
    apply Qltb_lt in Hgt. unfold le in *. lra.
  - destruct (IH y) as (front & top & -> & Hperm & Hall).
    exists (x :: front), top. split; [done|]. split.
    { simpl. by rewrite Hperm. }
    constructor; [|done].
    assert (le y top) as Hy.
    { assert (y ∈ front ++ [top]) as Hin by (rewrite Hperm; by left).
      apply elem_of_app in Hin as [Hin|Hin].
      - by apply (proj1 (Forall_forall _ _) Hall).
      - apply list_elem_of_singleton in Hin as ->. unfold le. lra. }
    apply Qltb_ge in Hgt. unfold le in *. lra.
Qed.

(** After [k] turns of the outer loop the last [k] items are in place. *)
Lemma passes_sorted l (k : nat) :
  k ≤ length l - 1 →
  ∃ front back,
    Py.for_each (seq 0 k)
      (λ i, Py.for_each (seq 0 (length l - i - 1)) compare_swap) l
    = Some (front ++ back)
    ∧ length back = k
    ∧ front ++ back ≡ₚ l
    ∧ StronglySorted le back
    ∧ Forall (λ a, Forall (le a) back) front.
Proof.
  induction k as [|k IH]; intros Hk.
  { exists l, []. rewrite app_nil_r. repeat split; try done.
    - constructor.
    - by apply Forall_forall. }
  destruct IH as (front & back & Hrun & Hlen & Hperm & Hsorted & Hdom); [lia|].
  rewrite seq_S, for_each_app, Hrun. simpl.
  assert (length front = length l - k) as Hfront.
  { apply Permutation_length in Hperm. rewrite length_app in Hperm. lia. }
  destruct front as [|x front]; [simpl in Hfront; lia|].
  simpl in Hfront.
  assert (Py.for_each (seq 0 (length l - k - 1)) compare_swap
            ((x :: front) ++ back)
          = Some (bubble_upto gt (length l - k - 1) ((x :: front) ++ back)))
    as Hpass.
  { apply (pass_bubble (length l - k - 1) [] ((x :: front) ++ back)).
    rewrite length_app. simpl. lia. }
  rewrite Hpass.
  rewrite bubble_upto_app by (simpl; lia).
  replace (length l - k - 1) with (length front) by lia.
  destruct (bubble_full x front) as (front' & top & -> & Hperm' & Hall).
  exists front', (top :: back). rewrite <- app_assoc. split; [done|].
  split; [simpl; lia|]. split.
  { rewrite <- Hperm. change (front' ++ top :: back)
      with (front' ++ [top] ++ back).
    rewrite app_assoc. by rewrite Hperm'. }
  assert (∀ a, a ∈ front' ++ [top] → Forall (le a) back) as Hdom'.
  { intros a Ha. rewrite Hperm' in Ha.
    by apply (proj1 (Forall_forall _ _) Hdom). }
  split.
  - constructor; [done|]. apply Hdom'. apply elem_of_app. right. by left.
  - apply Forall_forall. intros a Ha. constructor.
    + by apply (proj1 (Forall_forall _ _) Hall).
    + apply Hdom'. apply elem_of_app. by left.
Qed.

(** [sort_black_pixels] returns its items in order of value, lowest
    first. *)
Theorem sort_black_pixels_sorted l :
  ∃ out, sort_black_pixels l = Some out
    ∧ out ≡ₚ l
    ∧ StronglySorted (λ a b, (a.2 <= b.2)%Q) out.
Proof.
  destruct (passes_sorted l (length l - 1)) as
    (front & back & Hrun & Hlen & Hperm & Hsorted & Hdom); [done|].
  exists (front ++ back). split; [exact Hrun|]. split; [done|].
  assert (length front ≤ 1) as Hfront.
  { apply Permutation_length in Hperm. rewrite length_app in Hperm. lia. }
  destruct front as [|x [|y front]]; simpl in Hfront; [done| |lia].
  simpl. constructor; [done|]. by apply Forall_cons in Hdom as [? _].
Qed.

End ExchangeSort.

(** ** The built-in sort puts its keys in order *)

Lemma insert_by_sorted {A : Type} (R : A → A → Prop) `{!Transitive R}
    (stop : A → A → bool) (x : A) (l : list A) :
  (∀ y, stop x y = true → R x y) →
  (∀ y, stop x y = false → R y x) →
  StronglySorted R l → StronglySorted R (Py.insert_by stop x l).
Proof.
  intros Hstop Hgo. induction 1 as [|y l Hsorted IH Hall]; simpl.
  { by repeat constructor. }
  destruct (stop x y) eqn:Hxy.
  - constructor; [by constructor|]. constructor; [by apply Hstop|].
    eapply Forall_impl; [exact Hall|]. intros z Hz.
    by trans y; [apply Hstop|].
  - constructor; [done|].
    rewrite (insert_by_perm stop x l). constructor; [by apply Hgo|done].
Qed.

Lemma sorted_in_order {A K : Type} (lt : K → K → bool) (key : A → K)
    (reverse : bool) (l : list A) :
  (∀ a b, lt a b = true → lt b a = false) →
  (∀ a b c, lt a b = false → lt b c = false → lt a c = false) →
  StronglySorted
    (λ x y, (if reverse then lt (key x) (key y) else lt (key y) (key x))
            = false)
    (Py.sorted lt key reverse l).
Proof.
  intros Hasym Hntrans. unfold Py.sorted.
  induction l as [|x l IH]; simpl; [constructor|].
  apply insert_by_sorted; [|..|done].
  - intros a b c. destruct reverse; eauto.
  - intros y Hy. by apply negb_true_iff in Hy.
  - intros y Hy. apply negb_false_iff in Hy. destruct reverse; by apply Hasym.
Qed.

Lemma strongly_sorted_mono {A : Type} (R1 R2 : A → A → Prop) (l : list A) :
  (∀ x y, R1 x y → R2 x y) → StronglySorted R1 l → StronglySorted R2 l.
Proof.
  intros Himpl. induction 1 as [|x l _ IH Hall]; constructor; [done|].
  eapply Forall_impl; [exact Hall|]. apply Himpl.
Qed.

Lemma Qltb_asym (a b : Q) : Qltb a b = true → Qltb b a = false.
Proof. rewrite Qltb_lt, Qltb_ge. lra. Qed.

Lemma Qltb_ntrans (a b c : Q) :
  Qltb a b = false → Qltb b c = false → Qltb a c = false.
Proof. rewrite !Qltb_ge. lra. Qed.

(** The sorts by a scalar key: [sort_distance] gives the values lowest
    first, the others highest first. *)
Theorem scalar_sorts_in_order {Name : Type} (scored : list (Name * Q)) :
  StronglySorted (λ x y, (x.2 <= y.2)%Q) (sort_distance scored)
  ∧ StronglySorted (λ x y, (y.2 <= x.2)%Q) (sort_blur scored)
  ∧ StronglySorted (λ x y, (y.2 <= x.2)%Q) (sort_blur_fft scored)
  ∧ StronglySorted (λ x y, (y.2 <= x.2)%Q) (sort_color scored)
  ∧ StronglySorted (λ x y, (y.2 <= x.2)%Q) (sort_face_yaw scored)
  ∧ StronglySorted (λ x y, (y.2 <= x.2)%Q) (sort_size scored).
Proof.
  assert (∀ reverse : bool,
            StronglySorted
              (λ x y : Name * Q,
                 if reverse then (y.2 <= x.2)%Q else (x.2 <= y.2)%Q)
              (Py.sorted Qltb snd reverse scored)) as Horder.
  { intros reverse.
    pose proof (sorted_in_order Qltb (snd : Name * Q → Q) reverse scored
                  Qltb_asym Qltb_ntrans) as Hs.
    eapply strongly_sorted_mono; [|exact Hs].
    intros x y Hxy. simpl in Hxy. destruct reverse; by apply Qltb_ge in Hxy. }
  split; [apply (Horder false)|]. repeat split; apply (Horder true).
Qed.

(** ** The totals of the dissimilarity sorts *)

Section DissimTotals.
Context {Name Fp : Type} (dist : Fp → Fp → score).
Implicit Types (loaded : list (Name * Fp)) (l : list (Name * Fp * score)).

(** Summing over the positions [s .. s+m-1], none of which is [i]. *)
Lemma add_scores_run l (i : nat) (a : Name * Fp * score) (m s : nat)
    (t : score) :
  l !! i = Some a → s + m ≤ length l → i < s ∨ s + m ≤ i →
  Py.for_each (seq s m) (add_score dist l i) t
  = Some (foldl score_add t
            ((λ b, dist a.1.2 b.2) <$> take m (drop s l.*1))).
Proof.
  intros Ha. revert s t. induction m as [|m IH]; intros s t Hlen Hi; [done|].
  destruct (lookup_lt_is_Some_2 l s) as [b Hb]; [lia|].
  cbn [seq Py.for_each]. unfold add_score at 1.
  rewrite decide_False by lia. rewrite Ha, Hb. simpl.
  rewrite IH by lia.
  rewrite (drop_S _ b.1 s) by (by rewrite list_lookup_fmap, Hb). done.
Qed.

(** [sort_hist_dissim] sums over every position but the item's own. *)
Lemma hist_total l loaded (i : nat) (a : Name * Fp * score) :
  l.*1 = loaded → l !! i = Some a →
  Py.for_each (seq 0 (length l)) (add_score dist l i) (Fin 0)
  = Some (total_score dist a.1 (delete i loaded)).
Proof.
  intros Hl Ha. pose proof (lookup_lt_Some _ _ _ Ha) as Hi.
  replace (length l) with (i + S (length l - S i)) at 1 by lia.
  rewrite seq_app, for_each_app.
  rewrite (add_scores_run l i a i 0) by (done || lia). simpl.
  unfold add_score at 1. rewrite decide_True by done.
  rewrite (add_scores_run l i a (length l - S i) (S i)) by (done || lia).
  f_equal. unfold total_score.
  rewrite delete_take_drop, fmap_app, foldl_app, Hl, drop_0.
  f_equal. f_equal. apply take_ge.
  rewrite length_drop, <- Hl, length_fmap. lia.
Qed.

(** [sort_face_cnn_dissim] sums over the later positions only. *)
Lemma face_cnn_total l loaded (i : nat) (a : Name * Fp * score) :
  l.*1 = loaded → l !! i = Some a →
  Py.for_each (seq (i + 1) (length l - (i + 1))) (add_score dist l i) (Fin 0)
  = Some (total_score dist a.1 (drop (S i) loaded)).
Proof.
  intros Hl Ha. pose proof (lookup_lt_Some _ _ _ Ha) as Hi.
  rewrite (add_scores_run l i a) by (done || lia).
  f_equal. unfold total_score. rewrite Hl, Nat.add_1_r.
  f_equal. f_equal. apply take_ge.
  rewrite length_drop, <- Hl, length_fmap. lia.
Qed.

(** The first [k] turns of the scoring loop store the totals of the first
    [k] items. *)
Lemma dissim_loop (js : nat → list nat) (others : nat → list (Name * Fp))
    loaded (k : nat) :
  k ≤ length loaded →
  (∀ i l a, i < k → l.*1 = loaded → l !! i = Some a →
     Py.for_each (js i) (add_score dist l i) (Fin 0)
     = Some (total_score dist a.1 (others i))) →
  Py.for_each (seq 0 k) (set_total dist js) ((λ x, (x, Fin 0)) <$> loaded)
  = Some (imap (λ i x, (x, if decide (i < k)
                           then total_score dist x (others i) else Fin 0))
               loaded).
Proof.
  induction k as [|k IH]; intros Hk Htotal.
  { simpl. f_equal. apply list_eq. intros i.
    rewrite list_lookup_fmap, list_lookup_imap.
    by destruct (loaded !! i). }
  rewrite seq_S, for_each_app, IH
    by (lia || (intros; apply Htotal; [lia|done..])).
  simpl.
  set (l := imap (λ i x, (x, if decide (i < k)
                            then total_score dist x (others i) else Fin 0))
                 loaded).
  assert (l.*1 = loaded) as Hl.
  { apply list_eq. intros i. unfold l.
    rewrite list_lookup_fmap, list_lookup_imap. by destruct (loaded !! i). }
  destruct (lookup_lt_is_Some_2 loaded k) as [x Hx]; [lia|].
  assert (l !! k = Some (x, Fin 0)) as Hlk.
  { unfold l. rewrite list_lookup_imap, Hx. simpl.
    by rewrite decide_False by lia. }
  unfold set_total. rewrite (Htotal k l (x, Fin 0)) by (lia || done).
  simpl. rewrite Hlk. simpl. f_equal.
  apply list_eq. intros i. rewrite list_lookup_insert, list_lookup_imap.
  unfold l. rewrite length_imap, list_lookup_imap.
  case_decide as Hik.
  - destruct Hik as [<- _]. rewrite Hx. simpl. by rewrite decide_True by lia.
  - destruct (loaded !! i) as [y|] eqn:Hy; simpl; [|done].
    pose proof (lookup_lt_Some _ _ _ Hy).
    f_equal. f_equal. repeat case_decide; (done || lia).
Qed.

(** [sort_hist_dissim] gives every item the total of its distances to all
    the other items, and returns the items by total, highest first. *)
Theorem sort_hist_dissim_totals loaded :
  ∃ out, sort_hist_dissim dist loaded = Some out
    ∧ out ≡ₚ imap (λ i x, (x, total_score dist x (delete i loaded))) loaded
    ∧ StronglySorted (λ a b, score_ltb a.2 b.2 = false) out.
Proof.
  unfold sort_hist_dissim. rewrite length_fmap.
  rewrite (dissim_loop (λ _, seq 0 (length loaded))
             (λ i, delete i loaded) loaded (length loaded)); [|done|].
  - simpl. eexists. split; [done|]. split.
    + rewrite sorted_perm. apply reflexive_eq, imap_ext.
      intros i x Hx. simpl. pose proof (lookup_lt_Some _ _ _ Hx).
      by rewrite decide_True.
    + apply (sorted_in_order score_ltb snd true);
        [apply score_ltb_asym | apply score_ltb_ntrans].
  - intros i l a _ Hl Ha. simpl.
    replace (length loaded) with (length l)
      by (by rewrite <- Hl, length_fmap).
    by apply hist_total.
Qed.

(** [sort_face_cnn_dissim] gives every item the total of its distances to
    the items that come after it in the input only, so the last item's total
    is zero whatever its landmarks; the items are returned by that total,
    highest first. *)
Theorem sort_face_cnn_dissim_totals loaded :
  ∃ out, sort_face_cnn_dissim dist loaded = Some out
    ∧ out ≡ₚ imap (λ i x, (x, total_score dist x (drop (S i) loaded))) loaded
    ∧ StronglySorted (λ a b, score_ltb a.2 b.2 = false) out.
Proof.
  unfold sort_face_cnn_dissim. rewrite length_fmap.
  rewrite (dissim_loop (λ i, seq (i + 1) (length loaded - (i + 1)))
             (λ i, drop (S i) loaded) loaded (length loaded - 1)); [|lia|].
  - simpl. eexists. split; [done|]. split.
    + rewrite sorted_perm. apply reflexive_eq, imap_ext.
      intros i x Hx. simpl. pose proof (lookup_lt_Some _ _ _ Hx).
      case_decide; [done|].
      rewrite drop_ge by lia. done.
    + apply (sorted_in_order score_ltb snd true);
        [apply score_ltb_asym | apply score_ltb_ntrans].
  - intros i l a _ Hl Ha. simpl.
    replace (length loaded) with (length l)
      by (by rewrite <- Hl, length_fmap).
    by apply face_cnn_total.
Qed.

End DissimTotals.

(** ** What [final_process_folders] leaves on disk and in the log *)

Section FolderFiles.
Import Materializer.
Implicit Types (a : args) (w : world) (initial : gset string).
Implicit Types (es : list (nat * string)) (bins : list (list string)).

Lemma bin_entries_snoc bins (b : list string) :
  bin_entries (bins ++ [b]) = bin_entries bins ++ (pair (length bins) <$> b).
Proof.
  unfold bin_entries. rewrite imap_app, concat_app. simpl.
  by rewrite app_nil_r, Nat.add_0_r.
Qed.

Lemma bin_entries_names bins : (bin_entries bins).*2 = concat bins.
Proof.
  induction bins as [|b bins IH] using rev_ind; [done|].
  rewrite bin_entries_snoc, fmap_app, concat_app, IH. simpl.
  rewrite app_nil_r. f_equal. rewrite <- list_fmap_compose.
  exact (list_fmap_id b).
Qed.

Lemma bin_entries_elem bins (i : nat) (src : string) :
  (i, src) ∈ bin_entries bins ↔ ∃ b, bins !! i = Some b ∧ src ∈ b.
Proof.
  induction bins as [|b bins IH] using rev_ind.
  { split; [by intros ?%elem_of_nil | by intros (? & ? & _)]. }
  rewrite bin_entries_snoc, elem_of_app, IH, list_elem_of_fmap. split.
  - intros [(b' & Hb' & Hsrc) | (y & [= -> ->] & Hy)].
    + exists b'. split; [|done]. by apply lookup_app_l_Some.
    + exists b. split; [|done]. by rewrite list_lookup_middle.
  - intros (b' & Hb' & Hsrc).
    apply lookup_app_Some in Hb' as [Hb' | [Hlen Hb']].
    + left. by exists b'.
    + right. exists src.
      apply list_lookup_singleton_Some in Hb' as [Hi ->].
      split; [|done]. f_equal. lia.
Qed.

(** The two nested loops are one loop over [bin_entries]. *)
Lemma final_process_folders_flat a bins w :
  final_process_folders a bins w
  = foldl (λ w e, folders_one a e.1 w e.2) w (bin_entries bins).
Proof.
  unfold final_process_folders.
  induction bins as [|b bins IH] using rev_ind; [done|].
  rewrite imap_app, foldl_app, IH, bin_entries_snoc, foldl_app. simpl.
  by rewrite Nat.add_0_r, foldl_fmap.
Qed.

(** The files and the log after the loop went through [es]. *)
Lemma folders_loop a initial (ch : gmap string string) es :
  NoDup es.*2 →
  (∀ e e', e ∈ es → e' ∈ es → folder_name (output_dir a) e.1 e.2 ≠ e'.2) →
  foldl (λ w e, folders_one a e.1 w e.2) (World initial ch) es
  = World
      ((if keep_original a then initial else initial ∖ list_to_set es.*2)
       ∪ list_to_set (folder_names (output_dir a) (present initial es)))
      (if log_changes a
       then foldl (λ m e, <[e.2 := folder_name (output_dir a) e.1 e.2]> m)
                  ch (present initial es)
       else ch).
Proof.
  induction es as [|x es IH] using rev_ind; intros Hnodup Hfresh.
  { simpl. f_equal; [|by destruct (log_changes a)].
    destruct (keep_original a); set_solver. }
  rewrite fmap_app in Hnodup. apply NoDup_app in Hnodup as (Hnd & Hx & _).
  rewrite foldl_snoc, IH;
    [|done|intros e e' He He'; apply Hfresh; apply elem_of_app; by left].
  assert (x.2 ∉ es.*2) as Hxnew.
  { intros Hin. apply (Hx x.2 Hin). by left. }
  assert (x.2 ∉ folder_names (output_dir a) (present initial es)) as Hxdst.
  { intros Hin. apply list_elem_of_fmap in Hin as (e & Heq & He).
    apply list_elem_of_filter in He as [_ He].
    apply (Hfresh e x); [apply elem_of_app; by left
                        |apply elem_of_app; right; by left|done]. }
  rewrite present_snoc. unfold folder_names in *.
  rewrite !fmap_app, !list_to_set_app_L, foldl_app.
  unfold folders_one, set_process_file_method, copyfile, os_rename.
  fold (folder_name (output_dir a) x.1 x.2).
  destruct (log_changes a), (keep_original a); simpl;
    repeat case_decide; simpl; f_equal; set_solver.
Qed.

(** Looking a name up in the log the loop wrote. *)
Lemma log_lookup_in (f : nat * string → string) initial
    (ch : gmap string string) es (e : nat * string) :
  NoDup es.*2 → e ∈ es → e.2 ∈ initial →
  foldl (λ m e, <[e.2 := f e]> m) ch (present initial es) !! e.2 = Some (f e).
Proof.
  induction es as [|x es IH] using rev_ind; intros Hnodup He Hin.
  { by apply elem_of_nil in He. }
  rewrite fmap_app in Hnodup. apply NoDup_app in Hnodup as (Hnd & Hx & _).
  rewrite present_snoc, foldl_app.
  apply elem_of_app in He as [He | ->%list_elem_of_singleton].
  - assert (x.2 ≠ e.2) as Hne.
    { intros Heq. apply (Hx e.2); [|rewrite <- Heq; by left].
      apply list_elem_of_fmap. by exists e. }
    case_decide; simpl; [rewrite lookup_insert_ne by done|]; by apply IH.
  - rewrite decide_True by done. simpl. apply lookup_insert_eq.
Qed.

Lemma log_lookup_out (f : nat * string → string) initial
    (ch : gmap string string) es (src : string) :
  src ∉ initial ∨ src ∉ es.*2 →
  foldl (λ m e, <[e.2 := f e]> m) ch (present initial es) !! src = ch !! src.
Proof.
  induction es as [|x es IH] using rev_ind; intros Hsrc; [done|].
  rewrite present_snoc, foldl_app.
  assert (src ∉ initial ∨ src ∉ es.*2) as Hsrc'.
  { destruct Hsrc as [?|Hni]; [by left|right].
    intros Hin. apply Hni. rewrite fmap_app. apply elem_of_app. by left. }
  case_decide as Hx; simpl; [|by apply IH].
  rewrite lookup_insert_ne; [by apply IH|].
  intros Heq. destruct Hsrc as [Hni|Hni]; apply Hni; rewrite <- Heq; [done|].
  rewrite fmap_app. apply elem_of_app. right. by left.
Qed.

Lemma folders_fresh bins (out : string) :
  Forall (λ e, folder_name out e.1 e.2 ∉ concat bins) (bin_entries bins) →
  ∀ e e', e ∈ bin_entries bins → e' ∈ bin_entries bins →
    folder_name out e.1 e.2 ≠ e'.2.
Proof.
  intros Hfree e e' He He' Heq. rewrite Forall_forall in Hfree.
  apply (Hfree e He). rewrite Heq, <- bin_entries_names.
  apply list_elem_of_fmap. by exists e'.
Qed.

(** With logging, the log of [final_process_folders] maps every file it
    placed to the place it now has, and gains no entry for a file that was
    missing: [process_file] writes the log after the file operation. *)
Theorem folders_logs_placed_files_only a bins w :
  log_changes a = true →
  NoDup (concat bins) →
  Forall (λ e, folder_name (output_dir a) e.1 e.2 ∉ concat bins)
         (bin_entries bins) →
  let w' := final_process_folders a bins w in
  (∀ (i : nat) b src, bins !! i = Some b → src ∈ b → src ∈ files w →
     changes w' !! src = Some (folder_name (output_dir a) i src)
     ∧ folder_name (output_dir a) i src ∈ files w')
  ∧ (∀ src, src ∉ files w ∨ src ∉ concat bins →
       changes w' !! src = changes w !! src).
Proof.
  intros Hlog Hnodup Hfree w'. unfold w'.
  rewrite final_process_folders_flat. destruct w as [fs ch].
  rewrite folders_loop;
    [|by rewrite bin_entries_names|by apply folders_fresh].
  rewrite Hlog. simpl. split.
  - intros i b src Hb Hsrc Hin.
    assert ((i, src) ∈ bin_entries bins) as He.
    { apply bin_entries_elem. by exists b. }
    split.
    + apply (log_lookup_in (λ e, folder_name (output_dir a) e.1 e.2)
               fs ch (bin_entries bins) (i, src));
        [by rewrite bin_entries_names|done..].
    + apply elem_of_union_r, elem_of_list_to_set, list_elem_of_fmap.
      exists (i, src). split; [done|]. by apply list_elem_of_filter.
  - intros src Hsrc.
    apply (log_lookup_out (λ e, folder_name (output_dir a) e.1 e.2)).
    by rewrite bin_entries_names.
Qed.

End FolderFiles.

(** ** Logging and the files *)

Section LoggingIsSilent.
Import Materializer.





End LoggingIsSilent.

(** ** The renamed files are images still *)

Section FoundAgain.

Lemma string_append_cons (c : ascii) (a b : string) :
  String c a +:+ b = String c (a +:+ b).
Proof. reflexivity. Qed.

Lemma string_append_nil_r (a : string) : a +:+ "" = a.
Proof.
  induction a as [|c a IH]; [done|]. by rewrite string_append_cons, IH.
Qed.

Lemma string_append_assoc (a b c : string) :
  (a +:+ b) +:+ c = a +:+ (b +:+ c).
Proof.
  induction a as [|x a IH]; [done|]. by rewrite !string_append_cons, IH.
Qed.

Lemma no_slash_app (a b : string) :
  no_slash (a +:+ b) = no_slash a && no_slash b.
Proof.
  induction a as [|c a IH]; [done|].
  rewrite string_append_cons. simpl. by rewrite IH, andb_assoc.
Qed.

Lemma no_slash_digits (d : string) : all_digits d = true → no_slash d = true.
Proof.
  induction d as [|c d IH]; simpl; [done|].
  intros [Hc Hd]%andb_prop. rewrite IH, andb_true_r by done.
  destruct (Ascii.eqb_spec c "/") as [->|_]; [by vm_compute in Hc | done].
Qed.

Lemma no_slash_prefix (x : string) :
  no_slash x = true → String.prefix "/" x = false.
Proof.
  destruct x as [|c x]; [done|]. cbn [no_slash String.prefix].
  intros [Hc _]%andb_prop. destruct (ascii_dec "/" c) as [<-|]; done.
Qed.

Lemma no_slash_basename_from (cur p : string) :
  no_slash cur = true → no_slash (PyStr.basename_from cur p) = true.
Proof.
  revert cur. induction p as [|c p IH]; intros cur Hcur; simpl; [done|].
  destruct (Ascii.eqb_spec c "/") as [->|Hc]; apply IH; [done|].
  rewrite no_slash_app, Hcur. simpl. rewrite andb_true_r.
  apply negb_true_iff. by apply Ascii.eqb_neq.
Qed.

Lemma no_slash_ext_from (seen_name : bool) (p : string) :
  no_slash p = true → no_slash (PyStr.ext_from seen_name p) = true.
Proof.
  revert seen_name. induction p as [|c p IH]; intros seen_name; [done|].
  intros Hp. pose proof Hp as [Hc Hp']%andb_prop. cbn [PyStr.ext_from].
  destruct (Ascii.eqb c "."); [|by apply IH].
  specialize (IH seen_name Hp').
  destruct (PyStr.ext_from seen_name p); [|done].
  by destruct seen_name.
Qed.

Lemma basename_from_no_slash (cur p : string) :
  no_slash p = true → PyStr.basename_from cur p = cur +:+ p.
Proof.
  revert cur. induction p as [|c p IH]; intros cur; simpl.
  { by rewrite string_append_nil_r. }
  intros [Hc Hp]%andb_prop. apply negb_true_iff in Hc. rewrite Hc.
  by rewrite IH, string_append_assoc.
Qed.

Lemma basename_from_app (cur a x : string) :
  no_slash x = true →
  PyStr.basename_from cur (a +:+ x) = PyStr.basename_from cur a +:+ x.
Proof.
  intros Hx. revert cur. induction a as [|c a IH]; intros cur.
  { by apply basename_from_no_slash. }
  rewrite string_append_cons. simpl. destruct (Ascii.eqb c "/"); apply IH.
Qed.

Lemma basename_from_slash (cur a b : string) :
  PyStr.basename_from cur (a +:+ "/" +:+ b) = PyStr.basename b.
Proof.
  revert cur. induction a as [|c a IH]; intros cur; [done|].
  rewrite string_append_cons. simpl. destruct (Ascii.eqb c "/"); apply IH.
Qed.

(** A path that ends with the separator has the empty base name. *)
Lemma basename_from_trailing_slash (cur a : string) :
  String.eqb (String.substring (String.length a - 1) 1 a) "/" = true →
  PyStr.basename_from cur a = "".
Proof.
  revert cur. induction a as [|c a IH]; intros cur; [done|].
  intros H. destruct (decide (a = "")) as [->|Hne].
  - apply String.eqb_eq in H. injection H as ->. done.
  - assert (String.eqb
              (String.substring (String.length a - 1) 1 a) "/" = true) as H'.
    { destruct a as [|c' a']; [done|]. simpl. rewrite Nat.sub_0_r. exact H. }
    simpl. destruct (Ascii.eqb c "/"); by apply IH.
Qed.

(** [basename(join(a, x)) == x] for a name [x] without separator. *)
Lemma basename_join (a x : string) :
  no_slash x = true → PyStr.basename (PyStr.join a x) = x.
Proof.
  intros Hx. unfold PyStr.join, PyStr.basename.
  rewrite no_slash_prefix by done.
  destruct (String.eqb_spec a "") as [->|_]; simpl.
  { by apply basename_from_no_slash. }
  destruct (String.eqb _ "/") eqn:Hend.
  - by rewrite basename_from_app, basename_from_trailing_slash.
  - rewrite basename_from_slash. by apply basename_from_no_slash.
Qed.

Lemma ext_from_idem (seen_name : bool) (p : string) :
  PyStr.ext_from true (PyStr.ext_from seen_name p)
  = PyStr.ext_from seen_name p.
Proof.
  revert seen_name. induction p as [|c p IH]; intros seen_name; [done|].
  cbn [PyStr.ext_from].
  destruct (Ascii.eqb_spec c ".") as [->|Hc]; [|apply IH].
  specialize (IH seen_name).
  destruct (PyStr.ext_from seen_name p) as [|x e] eqn:He; [|done].
  destruct seen_name; [|done]. simpl. by rewrite He.
Qed.

Lemma ext_after_digits (seen_name : bool) (d rest : string) :
  d ≠ "" → all_digits d = true →
  PyStr.ext_from seen_name (d +:+ rest) = PyStr.ext_from true rest.
Proof.
  revert seen_name. induction d as [|c d IH]; intros seen_name Hne Hd; [done|].
  simpl in Hd. apply andb_prop in Hd as [Hc Hd].
  change (String c d +:+ rest) with (String c (d +:+ rest)).
  cbn [PyStr.ext_from].
  destruct (Ascii.eqb_spec c ".") as [->|_]; [by vm_compute in Hc|].
  destruct d as [|c' d']; [done|]. by apply IH.
Qed.

(** The name [final_process_rename] gives a file: it lies in the output
    directory, and its extension is that of the source. *)
Lemma final_name_basename (out : string) (i : nat) (src : string) :
  let b := PyStr.basename (Materializer.final_name out i src) in
  b = PyStr.pad5 i +:+ PyStr.splitext_ext (PyStr.basename src)
  ∧ PyStr.splitext_ext b = PyStr.splitext_ext (PyStr.basename src)
  ∧ PyStr.join out b = Materializer.final_name out i src.
Proof.
  intros b.
  assert (b = PyStr.pad5 i +:+ PyStr.splitext_ext (PyStr.basename src))
    as Hb.
  { unfold b, Materializer.final_name. apply basename_join.
    rewrite no_slash_app, no_slash_digits by apply pad5_digits. simpl.
    apply no_slash_ext_from. by apply no_slash_basename_from. }
  split; [done|]. rewrite Hb. split; [|done].
  unfold PyStr.splitext_ext at 1.
  rewrite ext_after_digits; [apply ext_from_idem | apply pad5_not_empty
                            | apply pad5_digits].
Qed.

Lemma filter_keeps_all {A : Type} (P : A → Prop) `{!∀ x, Decision (P x)}
    (l : list A) :
  Forall P l → filter P l = l.
Proof.
  induction 1 as [|x l Hx _ IH]; [done|].
  rewrite filter_cons_True by done. by rewrite IH.
Qed.

(** [find_images] finds every renamed file again: when the output directory
    holds the files [final_process_rename] made of the images found in a
    directory, looking for images there gives all of them, in order.  (The
    names of the entries of a directory hold no separator.) *)
Theorem renamed_files_are_found_again (root out : string)
    (dirs names : list string)
    (rest : list (string * list string * list string)) :
  Forall (λ file, no_slash file = true) names →
  let found := find_images ((root, dirs, names) :: rest) in
  let renamed := final_names out (imap pair found) in
  length found
  = length (filter (λ file,
              PyStr.lower (PyStr.splitext_ext file) ∈ extensions) names)
  ∧ find_images [(out, [], PyStr.basename <$> renamed)] = renamed.
Proof.
  intros Hnames found renamed. split.
  { unfold found, find_images. by rewrite length_fmap. }
  assert (Forall (λ src, PyStr.lower (PyStr.splitext_ext (PyStr.basename src))
                         ∈ extensions) found) as Hfound.
  { unfold found, find_images. apply Forall_fmap, Forall_forall.
    intros file [Himg Hin]%list_elem_of_filter. simpl.
    rewrite basename_join; [done|].
    rewrite Forall_forall in Hnames. by apply Hnames. }
  assert (Forall (λ f, PyStr.lower (PyStr.splitext_ext (PyStr.basename f))
                       ∈ extensions
                       ∧ PyStr.join out (PyStr.basename f) = f) renamed)
    as Hrenamed.
  { unfold renamed, final_names. apply Forall_fmap, Forall_forall.
    intros [i src] Hin. simpl.
    destruct (final_name_basename out i src) as (_ & -> & ->).
    split; [|done]. rewrite Forall_forall in Hfound. apply Hfound.
    apply list_elem_of_lookup in Hin as [j Hj].
    rewrite list_lookup_imap in Hj.
    destruct (found !! j) as [y|] eqn:Hy; simplify_eq/=.
    by eapply list_elem_of_lookup_2. }
  unfold find_images. rewrite filter_keeps_all.
  - rewrite <- list_fmap_compose.
    rewrite <- (list_fmap_id renamed) at 2.
    apply Forall_fmap_ext_1. eapply Forall_impl; [exact Hrenamed|].
    by intros f [_ Hf].
  - apply Forall_fmap. eapply Forall_impl; [exact Hrenamed|].
    by intros f [Hf _].
Qed.

End FoundAgain.

Lemma renamed_files_are_found_again_witness :
  Forall (λ file, no_slash file = true)
         ["b.JPG"; "notes.txt"; "a.png"]%string
  ∧ find_images [("out"%string, [],
                  PyStr.basename
                    <$> final_names "out"
                          (imap pair (find_images
                             [("in"%string, ["sub"%string],
                               ["b.JPG"; "notes.txt"; "a.png"]%string)])))]
    = ["out/00000.JPG"; "out/00001.png"]%string.
Proof.
  assert (Forall (λ file, no_slash file = true)
                 ["b.JPG"; "notes.txt"; "a.png"]%string) as Hnames
    by (repeat constructor).
  split; [exact Hnames|].
  destruct (renamed_files_are_found_again "in" "out" ["sub"%string]
              ["b.JPG"; "notes.txt"; "a.png"]%string [] Hnames)
    as [_ Hfound].
  rewrite Hfound. vm_compute. reflexivity.
Defined.

(** ** Ties keep their order *)

Lemma insert_by_filter {A : Type} (P : A → Prop) `{!∀ x, Decision (P x)}
    (stop : A → A → bool) (x : A) (l : list A) :
  (∀ y, P x → P y → stop x y = true) →
  filter P (Py.insert_by stop x l) = filter P (x :: l).
Proof.
  intros Hstop. induction l as [|y l IH]; [done|]. simpl.
  destruct (stop x y) eqn:Hxy; [done|].
  rewrite (filter_cons _ y (Py.insert_by stop x l)), IH.
  rewrite !(filter_cons _ x), !(filter_cons _ y).
  destruct (decide (P x)) as [Hx|Hx], (decide (P y)) as [Hy|Hy]; try done.
  by rewrite Hstop in Hxy.
Qed.

Lemma sorted_stable {A K : Type} (lt : K → K → bool) (key : A → K)
    (reverse : bool) (P : A → Prop) `{!∀ x, Decision (P x)} (l : list A) :
  (∀ x y, P x → P y → lt (key x) (key y) = false) →
  filter P (Py.sorted lt key reverse l) = filter P l.
Proof.
  intros Hties. unfold Py.sorted.
  induction l as [|x l IH]; [done|]. simpl.
  rewrite insert_by_filter.
  - by rewrite !(filter_cons _ x), IH.
  - intros y Hx Hy. apply negb_true_iff. destruct reverse; by apply Hties.
Qed.

(** The sorts by a number keep the items of equal value in the order they
    had in the input, whether they sort upwards or downwards. *)
Theorem scalar_sorts_stable {Name : Type} (scored : list (Name * Q)) (v : Q) :
  let ties := filter (λ x : Name * Q, Qeq x.2 v) in
  ties (sort_distance scored) = ties scored
  ∧ ties (sort_blur scored) = ties scored
  ∧ ties (sort_blur_fft scored) = ties scored
  ∧ ties (sort_color scored) = ties scored
  ∧ ties (sort_face_yaw scored) = ties scored
  ∧ ties (sort_size scored) = ties scored.
Proof.
  intros ties.
  assert (∀ reverse : bool,
            ties (Py.sorted Qltb snd reverse scored) = ties scored) as Hties.
  { intros reverse. apply sorted_stable. intros x y Hx Hy.
    apply Qltb_ge. rewrite Hx, Hy. apply Qle_refl. }
  split; [apply (Hties false)|]. repeat split; apply (Hties true).
Qed.

(** ** Clustering when the threshold separates nothing, or everything *)

Lemma inject_Z_S (n : nat) :
  (inject_Z (Z.of_nat (S n)) == inject_Z (Z.of_nat n) + 1)%Q.
Proof. by rewrite Nat2Z.inj_succ, <- Z.add_1_r, inject_Z_plus. Qed.

(** The mean of one score is that score, as far as [<] can tell. *)
Lemma mean_single (s u : score) :
  score_ltb (score_div (score_add (Fin 0) s) 1) u = score_ltb s u.
Proof.
  destruct s as [q|], u as [r|]; simpl; try done.
  assert ((0 + q) / inject_Z (Z.of_nat 1) == q)%Q as Hq by (simpl; field).
  destruct (Qltb q r) eqn:E.
  - apply Qltb_lt. rewrite Hq. by apply Qltb_lt.
  - apply Qltb_ge. rewrite Hq. by apply Qltb_ge.
Qed.

Lemma sum_below (t : Q) (l : list score) (a : Q) :
  Forall (λ s, ∃ q, s = Fin q ∧ (q < t)%Q) l →
  ∃ σ, foldl score_add (Fin a) l = Fin σ
    ∧ (σ <= a + inject_Z (Z.of_nat (length l)) * t)%Q
    ∧ (l ≠ [] → (σ < a + inject_Z (Z.of_nat (length l)) * t)%Q).
Proof.
  intros Hl. revert a. induction Hl as [|s l (q & -> & Hq) _ IH]; intros a.
  { exists a. split; [done|]. split; [|done].
    change (inject_Z (Z.of_nat (@length score []))) with 0%Q. lra. }
  destruct (IH (a + q)%Q) as (σ & Hsum & Hle & _).
  exists σ. split; [done|].
  assert (σ < a + inject_Z (Z.of_nat (length (Fin q :: l))) * t)%Q as Hlt.
  { change (length (Fin q :: l)) with (S (length l)).
    rewrite inject_Z_S. lra. }
  split; [lra | done].
Qed.

(** The mean of scores below [t] is below [t]. *)
Lemma mean_below (t : Q) (l : list score) :
  l ≠ [] → Forall (λ s, ∃ q, s = Fin q ∧ (q < t)%Q) l →
  ∃ m, mean l = Some (Fin m) ∧ (m < t)%Q.
Proof.
  intros Hne Hl. destruct (sum_below t l 0 Hl) as (σ & Hsum & _ & Hlt).
  specialize (Hlt Hne).
  exists (σ / inject_Z (Z.of_nat (length l)))%Q. split.
  - unfold mean. destruct l; [done|]. by rewrite Hsum.
  - apply Qlt_shift_div_r; [|lra].
    destruct l; [done|]. unfold Qlt. simpl. lia.
Qed.

Section ClusterExtremes.
Context {Name Fp : Type}.
Implicit Types (img_list : list (Name * Fp)).

Lemma singletons_wf img_list :
  clusters_wf (imap (λ (j : nat) (x : Name * Fp), (Z.of_nat j, [x.2])) img_list)
              ((λ x : Name * Fp, [x.1]) <$> img_list).
Proof.
  unfold clusters_wf. rewrite length_fmap. apply list_eq. intros i.
  rewrite !list_lookup_fmap, list_lookup_imap.
  destruct (img_list !! i) as [x|] eqn:Hx; simpl.
  - by rewrite lookup_seq_lt by (by eapply lookup_lt_Some).
  - by rewrite lookup_seq_ge by (by apply lookup_ge_None).
Qed.

(** While every new item scores at least the threshold against each single
    earlier item, every turn opens a bin. *)
Lemma cluster_loop_apart (score_of : Fp → list Fp → option score)
    (stored : Fp → Fp) (t : Q) img_list (m s : nat) :
  (∀ fp refs, refs ≠ [] → is_Some (score_of fp refs)) →
  s + m ≤ length img_list →
  (∀ (i j : nat) a b, j < i → img_list !! i = Some a → img_list !! j = Some b →
     score_ltb (default Inf (score_of a.2 [b.2])) (Fin t) = false) →
  Py.for_each (seq s m) (cluster_step score_of stored t img_list)
    (imap (λ (j : nat) x, (Z.of_nat j, [x.2])) (take s img_list),
     (λ x, [x.1]) <$> take s img_list)
  = Some (imap (λ (j : nat) x, (Z.of_nat j, [x.2])) (take (s + m) img_list),
          (λ x, [x.1]) <$> take (s + m) img_list).
Proof.
  intros Htotal Hlen Hfar. revert s Hlen.
  induction m as [|m IH]; intros s Hlen.
  { by rewrite Nat.add_0_r. }
  destruct (lookup_lt_is_Some_2 img_list s) as [item Hitem]; [lia|].
  set (rg := imap (λ (j : nat) (x : Name * Fp), (Z.of_nat j, [x.2]))
                  (take s img_list)).
  set (bins := (λ x : Name * Fp, [x.1]) <$> take s img_list).
  assert (length rg = s) as Hrg.
  { unfold rg. rewrite length_imap, length_take. lia. }
  destruct (cluster_step_spec score_of stored Htotal t img_list s item rg bins)
    as (key & best & _ & _ & Hyes & Hno).
  { apply singletons_wf. }
  { apply Forall_lookup. intros k e. unfold rg. rewrite list_lookup_imap.
    destruct (take s img_list !! k); simpl; [|done]. by intros [= <-]. }
  { done. }
  assert (score_ltb best (Fin t) = false) as Hbest.
  { destruct (score_ltb best (Fin t)) eqn:Hlt; [|done].
    destruct (Hyes eq_refl) as (k & refs & _ & Hk & Hkk & Hscore & _).
    unfold rg in Hkk. rewrite list_lookup_imap in Hkk.
    destruct (take s img_list !! k) as [x|] eqn:Hx; simplify_eq/=.
    apply lookup_take_Some in Hx as [Hx Hks].
    by rewrite (Hfar s k item x Hks Hitem Hx) in Hlt. }
  cbn [seq Py.for_each]. rewrite (Hno Hbest).
  replace (s + S m) with (S s + m) by lia.
  rewrite <- (IH (S s)) by lia. f_equal.
  rewrite (take_S_r _ _ _ Hitem), imap_app, fmap_app. simpl.
  rewrite length_take, Nat.add_0_r, Hrg.
  by replace (s `min` length img_list) with s by lia.
Qed.

Context (dist : Fp → Fp → score) (row0 : Fp → Fp).

(** When no image is nearer than the threshold to an earlier one,
    [group_hist] gives every image a bin of its own, in the order of the
    input. *)
Theorem group_hist_all_apart (min_threshold : Q) img_list :
  img_list ≠ [] →
  (∀ (i j : nat) a b, j < i →
     img_list !! i = Some a → img_list !! j = Some b →
     score_ltb (dist a.2 b.2) (Fin min_threshold) = false) →
  group_hist dist min_threshold img_list
  = Some ((λ x, [x.1]) <$> img_list).
Proof.
  intros Hne Hfar. destruct img_list as [|first rest] eqn:Hl; [done|].
  rewrite <- Hl in *.
  assert (img_list !! 0 = Some first) as Hfirst by (by rewrite Hl).
  unfold group_hist. rewrite Hfirst. simpl.
  change (@group_hist_step Name Fp dist)
    with (cluster_step (Name:=Name) (get_avg_score_hist dist) id).
  pose proof (cluster_loop_apart (get_avg_score_hist dist) id min_threshold
                img_list (length img_list - 1) 1
                (get_avg_score_hist_total dist)) as Hloop.
  replace (take 1 img_list) with [first] in Hloop by (by rewrite Hl).
  etransitivity.
  { apply (f_equal (fmap (M:=option) snd)). apply Hloop.
    - rewrite Hl. simpl. lia.
    - intros i j a b Hji Ha Hb.
      transitivity (score_ltb (dist a.2 b.2) (Fin min_threshold));
        [apply mean_single | by eapply Hfar]. }
  simpl. f_equal. f_equal. apply take_ge. rewrite Hl. simpl. lia.
Qed.

(** While every new item is nearer than the threshold to each earlier one,
    every turn of [group_hist] adds to the one bin. *)
Lemma hist_loop_together (t : Q) img_list (m s : nat) :
  0 < s → s + m ≤ length img_list →
  (∀ (i j : nat) a b, j < i → img_list !! i = Some a → img_list !! j = Some b →
     ∃ q, dist a.2 b.2 = Fin q ∧ (q < t)%Q) →
  Py.for_each (seq s m)
    (cluster_step (get_avg_score_hist dist) id t img_list)
    ([(0%Z, (take s img_list).*2)], [(take s img_list).*1])
  = Some ([(0%Z, (take (s + m) img_list).*2)],
          [(take (s + m) img_list).*1]).
Proof.
  intros Hs Hlen Hnear. revert s Hs Hlen.
  induction m as [|m IH]; intros s Hs Hlen.
  { by rewrite Nat.add_0_r. }
  destruct (lookup_lt_is_Some_2 img_list s) as [item Hitem]; [lia|].
  set (refs := (take s img_list).*2).
  assert (refs ≠ []) as Hrefs.
  { unfold refs. destruct img_list; [simpl in Hlen; lia|].
    by destruct s; [lia|]. }
  destruct (cluster_step_spec (get_avg_score_hist dist) id
              (get_avg_score_hist_total dist) t img_list s item
              [(0%Z, refs)] [(take s img_list).*1])
    as (key & best & _ & Hleast & Hyes & _).
  { done. } { by apply Forall_singleton. } { done. }
  destruct (mean_below t (dist item.2 <$> refs)) as (mu & Hmean & Hmu).
  { by destruct refs. }
  { apply Forall_fmap, Forall_forall. intros fp Hfp.
    apply list_elem_of_fmap in Hfp as (x & -> & Hx).
    apply list_elem_of_lookup in Hx as [j Hj].
    apply lookup_take_Some in Hj as [Hj Hjs].
    by apply (Hnear s j item x). }
  assert (score_ltb best (Fin t) = true) as Hbest.
  { destruct (score_ltb best (Fin t)) eqn:Hlt; [done|].
    specialize (Hleast (0%Z, refs) ltac:(by left)).
    unfold get_avg_score_hist in Hleast. cbn [snd] in Hleast.
    rewrite Hmean in Hleast.
    change (score_ltb (Fin mu) best = false) in Hleast.
    pose proof (score_ltb_ntrans _ _ _ Hleast Hlt) as Hcontra.
    simpl in Hcontra. apply Qltb_ge in Hcontra. lra. }
  destruct (Hyes Hbest) as (k & refs' & -> & Hk & Hkk & _ & _ & Hstep).
  simpl in Hk. assert (k = 0) as -> by lia.
  injection Hkk as <-.
  cbn [seq Py.for_each]. rewrite Hstep. simpl.
  replace (s + S m) with (S s + m) by lia.
  rewrite <- (IH (S s)) by lia.
  by rewrite (take_S_r _ _ _ Hitem), !fmap_app.
Qed.

(** Copies of one image, at distance 0 from each other, all go into one
    bin of [group_hist], in the order of the input, for any threshold above
    0: the sum of the scores is 0 and so is their mean. *)
Theorem group_hist_copies_in_one_bin (min_threshold : Q) img_list :
  img_list ≠ [] → (0 < min_threshold)%Q →
  (∀ (i j : nat) a b, j < i →
     img_list !! i = Some a → img_list !! j = Some b →
     dist a.2 b.2 = Fin 0) →
  group_hist dist min_threshold img_list = Some [img_list.*1].
Proof.
  intros Hne Hpos Hsame. destruct img_list as [|first rest] eqn:Hl; [done|].
  rewrite <- Hl in *.
  assert (img_list !! 0 = Some first) as Hfirst by (by rewrite Hl).
  unfold group_hist. rewrite Hfirst. simpl.
  change (@group_hist_step Name Fp dist)
    with (cluster_step (Name:=Name) (get_avg_score_hist dist) id).
  pose proof (hist_loop_together min_threshold img_list
                (length img_list - 1) 1) as Hloop.
  replace (take 1 img_list) with [first] in Hloop by (by rewrite Hl).
  etransitivity.
  { apply (f_equal (fmap (M:=option) snd)). apply Hloop; [lia| |].
    - rewrite Hl. simpl. lia.
    - intros i j a b Hji Ha Hb. exists 0%Q. split; [|done].
      by eapply Hsame. }
  simpl. do 3 f_equal. apply take_ge. rewrite Hl. simpl. lia.
Qed.

End ClusterExtremes.

(** ** The properties above, on concrete inputs *)


Lemma folders_logs_placed_files_only_witness :
  let a := Materializer.Args "out" true false in
  let bins := [["in/a.png"]; ["in/b.png"; "in/c.png"]]%string in
  let initial : gset string :=
    {["in/a.png"%string; "in/c.png"%string; "notes.txt"%string]} in
  let w' :=
    Materializer.final_process_folders a bins (Materializer.World initial ∅) in
  NoDup (concat bins)
  ∧ Materializer.changes w' !! "in/c.png"%string = Some "out/1/c.png"%string
  ∧ Materializer.changes w' !! "in/b.png"%string = None.
Proof.
  intros a bins initial w'.
  assert (NoDup (concat bins)) as Hnodup
    by (apply (bool_decide_unpack _); vm_compute; exact I).
  split; [exact Hnodup|].
  pose proof (folders_logs_placed_files_only a bins
                (Materializer.World initial ∅) eq_refl Hnodup) as Hlog.
  destruct Hlog as [Hin Hout].
  { apply (bool_decide_unpack _). vm_compute. exact I. }
  split.
  - destruct (Hin 1 ["in/b.png"; "in/c.png"]%string "in/c.png"%string)
      as [Hentry _].
    + reflexivity.
    + apply (bool_decide_unpack _). vm_compute. exact I.
    + apply (bool_decide_unpack _). vm_compute. exact I.
    + unfold w'. rewrite Hentry. vm_compute. reflexivity.
  - unfold w'. rewrite (Hout "in/b.png"%string); [reflexivity|].
    left. apply (bool_decide_unpack _). vm_compute. exact I.
Defined.

Lemma group_black_pixels_partition_witness :
  group_black_pixels 4 [("a", 10%Q); ("b", 60%Q); ("c", 30%Q)]%string
  = Some [[]; ["a"]; ["c"]; ["b"]]%string
  ∧ concat [[]; ["a"]; ["c"]; ["b"]]%string ≡ₚ ["a"; "b"; "c"]%string.
Proof.
  assert (group_black_pixels 4 [("a", 10%Q); ("b", 60%Q); ("c", 30%Q)]%string
          = Some [[]; ["a"]; ["c"]; ["b"]]%string) as Hrun by reflexivity.
  split; [exact Hrun|].
  exact (group_black_pixels_partition 4 _ _ Hrun).
Defined.

Lemma group_hist_partition_witness :
  [("a.png", 1%Z); ("b.png", 7%Z); ("c.png", 1%Z)]%string ≠ []
  ∧ ∃ bins,
      group_hist (λ x y, Fin (inject_Z (Z.abs (x - y)))) 1
        [("a.png", 1%Z); ("b.png", 7%Z); ("c.png", 1%Z)]%string = Some bins
      ∧ concat bins ≡ₚ ["a.png"; "b.png"; "c.png"]%string.
Proof.
  split; [done|].
  exact (group_hist_partition (λ x y, Fin (inject_Z (Z.abs (x - y)))) 1
           [("a.png", 1%Z); ("b.png", 7%Z); ("c.png", 1%Z)]%string
           ltac:(done)).
Defined.

Lemma group_hist_all_apart_witness :
  [("a.png", 0%Z); ("b.png", 5%Z)]%string ≠ []
  ∧ group_hist (λ x y, Fin (inject_Z (Z.abs (x - y)))) 1
      [("a.png", 0%Z); ("b.png", 5%Z)]%string
    = Some [["a.png"]; ["b.png"]]%string.
Proof.
  split; [done|].
  apply (group_hist_all_apart (λ x y, Fin (inject_Z (Z.abs (x - y)))) 1
           [("a.png", 0%Z); ("b.png", 5%Z)]%string); [done|].
  intros i j a b Hji Ha Hb.
  destruct i as [|[|i]]; destruct j as [|[|j]]; simplify_eq/=; try lia.
  reflexivity.
Defined.

Lemma group_hist_copies_in_one_bin_witness :
  [("a.png", 3%Z); ("b.png", 3%Z); ("c.png", 3%Z)]%string ≠ []
  ∧ (0 < 1)%Q
  ∧ group_hist (λ x y, Fin (inject_Z (Z.abs (x - y)))) 1
      [("a.png", 3%Z); ("b.png", 3%Z); ("c.png", 3%Z)]%string
    = Some [["a.png"; "b.png"; "c.png"]]%string.
Proof.
  split; [done|]. split; [done|].
  apply (group_hist_copies_in_one_bin
           (λ x y, Fin (inject_Z (Z.abs (x - y)))) 1
           [("a.png", 3%Z); ("b.png", 3%Z); ("c.png", 3%Z)]%string);
    [done|done|].
  intros i j a b Hji Ha Hb.
  destruct i as [|[|[|i]]]; destruct j as [|[|[|j]]]; simplify_eq/=; try lia;
    reflexivity.
Defined.

(** ** Reloading before an equal split *)

(** The equal split looks at the names and at the order only. *)
Lemma group_blur_names_only {Name V1 V2 : Type} (num_bins : Z)
    (l1 : list (Name * V1)) (l2 : list (Name * V2)) :
  l1.*1 = l2.*1 → group_blur num_bins l1 = group_blur num_bins l2.
Proof.
  intros Hnames.
  assert (length l1 = length l2) as Hlen.
  { by rewrite <- (length_fmap fst l1), Hnames, length_fmap. }
  destruct (decide (0 < num_bins)%Z) as [Hpos|Hneg].
  - rewrite <- (Z2Nat.id num_bins) by lia.
    rewrite !group_blur_closed_form by lia. cbv zeta.
    by rewrite Hnames, Hlen.
  - unfold group_blur.
    destruct (Z.eqb_spec num_bins 0) as [?|Hne]; [done|].
    assert (num_bins < 0)%Z as Hlt by lia.
    pose proof (Z.mod_neg_bound (Z.of_nat (length l1)) num_bins Hlt).
    pose proof (Z.mod_neg_bound (Z.of_nat (length l2)) num_bins Hlt).
    unfold Py.range. by rewrite !seqZ_nil by lia.
Qed.

(** [sort_process] reloads the sorted list with the values of the grouping
    metric before it groups; for [group_blur], [group_blur_fft] and
    [group_face_yaw] the bins are the same with the reload and without it:
    they follow the order the sorter gave, and the values of the grouping
    metric are never looked at. *)
Theorem reload_never_changes_equal_split {Name Old New : Type}
    `{EqDecision Name} (num_bins : Z) (sorted_list : list (Name * Old))
    (new_vals_list out : list (Name * New)) :
  splice_lists sorted_list new_vals_list = Some out →
  group_blur num_bins out = group_blur num_bins sorted_list
  ∧ group_blur_fft num_bins out = group_blur_fft num_bins sorted_list
  ∧ group_face_yaw num_bins out = group_face_yaw num_bins sorted_list.
Proof.
  intros Hout. apply splice_lists_order in Hout.
  repeat split; by apply group_blur_names_only.
Qed.

Lemma reload_never_changes_equal_split_witness :
  splice_lists [("b", 9%Z); ("a", 8%Z); ("c", 7%Z)]%string
               [("a", 1%Z); ("b", 2%Z); ("c", 3%Z)]%string
  = Some [("b", 2%Z); ("a", 1%Z); ("c", 3%Z)]%string
  ∧ group_blur 2 [("b", 2%Z); ("a", 1%Z); ("c", 3%Z)]%string
    = Some [["b"]; ["a"; "c"]]%string.
Proof.
  assert (splice_lists [("b", 9%Z); ("a", 8%Z); ("c", 7%Z)]%string
                       [("a", 1%Z); ("b", 2%Z); ("c", 3%Z)]%string
          = Some [("b", 2%Z); ("a", 1%Z); ("c", 3%Z)]%string) as Hout
    by reflexivity.
  split; [exact Hout|].
  destruct (reload_never_changes_equal_split 2 _ _ _ Hout) as [-> _].
  reflexivity.
Defined.

(** ** What the final processes do to the files and to what they hold *)

Section Transfers.
Context {Content : Type}.
Implicit Types (m : gmap string Content) (ops : list (string * string)).






End Transfers.

Section ContentsKept.
Context {Content : Type}.
Import Materializer.
Implicit Types (a : args) (initial : gmap string Content).
Implicit Types (img_list : list string) (bins : list (list string)).






End ContentsKept.


